(** * KMR image codec: a shallow embedding of the codec modules and the
    properties of its container, Paeth, QOI and Huffman stages.

    Source files embedded here:
    - [app/utils/container.ts]  (buildContainer, parseContainer)
    - [app/utils/huffman.ts]    (deltaEncode, rleEncode, buildCodeLengths,
                                 encodeHuffman, decodeHuffman)
    - [app/utils/qoi.ts]        (qoiHash, encodeQOI, decodeQOI)
    - [app/utils/algorithm.ts]  (processImageFrame)
    - [app/utils/decode.ts]     (paeth, decodePaethResidual,
                                 decodeContainerToImage)
    - [app/api/compress/route.ts] (buildResidualImage, the encode pipeline)

    Conventions.  A typed array is a [list Z]; reading goes through [aget],
    writing through [aset] (out-of-range writes are dropped, as typed arrays
    do).  Integers are [Z] with the 32-bit behaviour of the JavaScript bit
    operators written out ([wrap32], [shl32], ...).  A function that can
    throw returns a [result]. *)

From Stdlib Require Import ZArith Lia Bool String DecimalString Sorted Permutation.
From Stdlib Require Import Floats.SpecFloat.
From stdpp Require Import base list.

Open Scope Z_scope.

(* ================================================================== *)
(** * Part I: the embedding                                            *)
(* ================================================================== *)

(** ** JavaScript values used by the codec *)

Inductive error : Type :=
| RangeError
| TypeError
| Error (msg : string).

Inductive result (A : Type) : Type :=
| Ok (a : A)
| Throw (e : error).
Arguments Ok {A} a.
Arguments Throw {A} e.

#[global] Instance result_ret : MRet result := fun A a => Ok a.
#[global] Instance result_bind : MBind result := fun A B f m =>
  match m with
  | Ok a => f a
  | Throw e => Throw e
  end.

Definition is_ok {A} (r : result A) : bool :=
  match r with Ok _ => true | Throw _ => false end.

(** Typed-array element read.  Every read the theorems below rely on is in
    range; an out-of-range read ([undefined] in JavaScript) is given the
    value 0 here, which is what a typed array stores for [undefined]. *)
Definition aget (a : list Z) (i : nat) : Z := default 0 (a !! i).

(** Typed-array element write: dropped when out of range. *)
Definition aset (a : list Z) (i : nat) (v : Z) : list Z := <[i := v]> a.

(** [arr.slice(from, from + len)]: clipped to the array. *)
Definition slice (a : list Z) (from len : nat) : list Z := take len (drop from a).

(** Element conversions on store. *)
Definition toUint8 (v : Z) : Z := v mod 256.
Definition toUint8Clamp (v : Z) : Z := Z.max 0 (Z.min 255 v).
Definition toInt8 (v : Z) : Z := (v + 128) mod 256 - 128.
Definition wrap32 (v : Z) : Z := (v + 2 ^ 31) mod 2 ^ 32 - 2 ^ 31.
Definition toUint32 (v : Z) : Z := v mod 2 ^ 32.

(** The 32-bit operators [<<], [>>], [>>>], [|], [&]. *)
Definition shl32 (a n : Z) : Z := wrap32 (Z.shiftl (wrap32 a) (n mod 32)).
Definition sar32 (a n : Z) : Z := Z.shiftr (wrap32 a) (n mod 32).
Definition shr32 (a n : Z) : Z := Z.shiftr (toUint32 a) (n mod 32).
Definition or32 (a b : Z) : Z := Z.lor (wrap32 a) (wrap32 b).
Definition and32 (a b : Z) : Z := Z.land (wrap32 a) (wrap32 b).

(** [Math.ceil(a / b)] for non-negative integers [a] and positive [b]. *)
Definition ceil_div (a b : Z) : Z := (a + b - 1) / b.

Definition zeros (n : nat) : list Z := replicate n 0.

(** A template literal [`${v}`] on an integer: its decimal digits. *)
Definition decimal (v : Z) : string := NilZero.string_of_int (Z.to_int v).

(** ** container.ts *)

Module Container.

(** Character codes of ['KMR1']. *)
Definition CONTAINER_MAGIC : list Z := [75; 77; 82; 49].
Definition HEADER_SIZE : nat := 32.

Record ContainerInput : Type := {
  in_width : Z;
  in_height : Z;
  in_blockSize : Z;
  in_discardBits : Z;
  in_smooth : bool;
  in_qoi : list Z;
  in_huffmanY : list Z;
  in_huffmanCb : list Z;
  in_huffmanCr : list Z
}.

(** [view.setUint32(offset, v, false)]: four bytes, big-endian. *)
Definition setUint32 (v : Z) : list Z :=
  let u := toUint32 v in
  [u / 2 ^ 24; (u / 2 ^ 16) mod 256; (u / 2 ^ 8) mod 256; u mod 256].

Definition buildContainer (c : ContainerInput) : list Z :=
  let block := Z.max 2 (Z.min 255 (in_blockSize c)) in
  let discard := Z.max 0 (Z.min 255 (in_discardBits c)) in
  CONTAINER_MAGIC
    ++ [toUint8 1; toUint8 block; toUint8 discard;
        toUint8 (if in_smooth c then 1 else 0)]
    ++ setUint32 (in_width c)
    ++ setUint32 (in_height c)
    ++ setUint32 (Z.of_nat (length (in_qoi c)))
    ++ setUint32 (Z.of_nat (length (in_huffmanY c)))
    ++ setUint32 (Z.of_nat (length (in_huffmanCb c)))
    ++ setUint32 (Z.of_nat (length (in_huffmanCr c)))
    ++ in_qoi c ++ in_huffmanY c ++ in_huffmanCb c ++ in_huffmanCr c.

Record ParsedContainer : Type := {
  version : Z;
  width : Z;
  height : Z;
  blockSize : Z;
  discardBits : Z;
  smooth : bool;
  qoi : list Z;
  huffmanY : list Z;
  huffmanCb : list Z;
  huffmanCr : list Z;
  totalSize : nat
}.

(** [view.getUint8(offset)]: a [RangeError] past the end of the buffer. *)
Definition getUint8 (buffer : list Z) (offset : nat) : result Z :=
  match buffer !! offset with
  | Some b => Ok b
  | None => Throw RangeError
  end.

(** [view.getUint32(offset, false)]. *)
Definition getUint32 (buffer : list Z) (offset : nat) : result Z :=
  b0 ← getUint8 buffer offset;
  b1 ← getUint8 buffer (offset + 1);
  b2 ← getUint8 buffer (offset + 2);
  b3 ← getUint8 buffer (offset + 3);
  Ok (b0 * 2 ^ 24 + b1 * 2 ^ 16 + b2 * 2 ^ 8 + b3).

Definition parseContainer (buffer : list Z) : result ParsedContainer :=
  m0 ← getUint8 buffer 0;
  m1 ← getUint8 buffer 1;
  m2 ← getUint8 buffer 2;
  m3 ← getUint8 buffer 3;
  if negb (bool_decide ([m0; m1; m2; m3] = CONTAINER_MAGIC))
  then Throw (Error "Invalid container magic")
  else
    version ← getUint8 buffer 4;
    if negb (version =? 1)
    then Throw (Error ("Unsupported container version: " ++ decimal version))
    else
      blockSize ← getUint8 buffer 5;
      discardBits ← getUint8 buffer 6;
      smoothByte ← getUint8 buffer 7;
      let smooth := smoothByte =? 1 in
      width ← getUint32 buffer 8;
      height ← getUint32 buffer 12;
      qoiLen ← getUint32 buffer 16;
      yLen ← getUint32 buffer 20;
      cbLen ← getUint32 buffer 24;
      crLen ← getUint32 buffer 28;
      let offset := 32%nat in
      let qoi := slice buffer offset (Z.to_nat qoiLen) in
      let offset := (offset + Z.to_nat qoiLen)%nat in
      let huffmanY := slice buffer offset (Z.to_nat yLen) in
      let offset := (offset + Z.to_nat yLen)%nat in
      let huffmanCb := slice buffer offset (Z.to_nat cbLen) in
      let offset := (offset + Z.to_nat cbLen)%nat in
      let huffmanCr := slice buffer offset (Z.to_nat crLen) in
      Ok {| version := version; width := width; height := height;
            blockSize := blockSize; discardBits := discardBits;
            smooth := smooth; qoi := qoi; huffmanY := huffmanY;
            huffmanCb := huffmanCb; huffmanCr := huffmanCr;
            totalSize := length buffer |}.

End Container.

(** ** ImageData *)

Record ImageData : Type := {
  width : Z;
  height : Z;
  data : list Z
}.

(** The loop nest [for (y = 0; y < height; y++) for (x = 0; x < width; x++)]
    over a state [S]. *)
Definition forXY {S : Type} (w h : nat) (body : nat -> nat -> S -> S) (s : S) : S :=
  foldl (fun s y => foldl (fun s x => body x y s) s (seq 0 w)) s (seq 0 h).

(** ** The Paeth predictor: decode.ts and api/compress/route.ts *)

Module Paeth.

Definition paeth (a b c : Z) : Z :=
  let p := a + b - c in
  let pa := Z.abs (p - a) in
  let pb := Z.abs (p - b) in
  let pc := Z.abs (p - c) in
  if (pa <=? pb) && (pa <=? pc) then a
  else if pb <=? pc then b
  else c.

(** [idx(x, y) = (y * width + x) * 4]. *)
Definition idx (w x y : nat) : nat := ((y * w + x) * 4)%nat.

(** The closure [pred(c)] of both loops: [src] is [data] in
    [buildResidualImage] and [out] in [decodePaethResidual]. *)
Definition pred (src : list Z) (w x y c : nat) : Z :=
  let hasLeft := (0 <? x)%nat in
  let hasUp := (0 <? y)%nat in
  let left := idx w (x - 1) y in
  let up := idx w x (y - 1) in
  let upLeft := idx w (x - 1) (y - 1) in
  let A := if hasLeft then aget src (left + c) else 0 in
  let B := if hasUp then aget src (up + c) else 0 in
  let C := if hasLeft && hasUp then aget src (upLeft + c) else 0 in
  paeth A B C.

(** One iteration of the loop body of [buildResidualImage]. *)
Definition residualStep (data : list Z) (w x y : nat) (out : list Z) : list Z :=
  let o := idx w x y in
  let r := aget data o in
  let g := aget data (o + 1) in
  let b := aget data (o + 2) in
  let a := aget data (o + 3) in
  let pr := pred data w x y 0 in
  let pg := pred data w x y 1 in
  let pb := pred data w x y 2 in
  let out := aset out o (toUint8Clamp (Z.land (r - pr + 256) 255)) in
  let out := aset out (o + 1) (toUint8Clamp (Z.land (g - pg + 256) 255)) in
  let out := aset out (o + 2) (toUint8Clamp (Z.land (b - pb + 256) 255)) in
  aset out (o + 3) (toUint8Clamp a).

Definition buildResidualImage (imageData : ImageData) : ImageData :=
  let w := Z.to_nat (width imageData) in
  let h := Z.to_nat (height imageData) in
  let out := zeros (length (data imageData)) in
  {| width := width imageData;
     height := height imageData;
     data := forXY w h (residualStep (data imageData) w) out |}.

(** One iteration of the loop body of [decodePaethResidual]: the
    prediction reads the pixels already written to [out]. *)
Definition decodeStep (data : list Z) (w x y : nat) (out : list Z) : list Z :=
  let o := idx w x y in
  let out := aset out o (toUint8Clamp (Z.land (aget data o + pred out w x y 0) 255)) in
  let out := aset out (o + 1) (toUint8Clamp (Z.land (aget data (o + 1) + pred out w x y 1) 255)) in
  let out := aset out (o + 2) (toUint8Clamp (Z.land (aget data (o + 2) + pred out w x y 2) 255)) in
  aset out (o + 3) (toUint8Clamp (aget data (o + 3))).

Definition decodePaethResidual (residual : ImageData) : ImageData :=
  let w := Z.to_nat (width residual) in
  let h := Z.to_nat (height residual) in
  let out := zeros (length (data residual)) in
  {| width := width residual;
     height := height residual;
     data := forXY w h (decodeStep (data residual) w) out |}.

End Paeth.

(** ** qoi.ts *)

Module QOI.

Definition QOI_OP_INDEX : Z := 0.
Definition QOI_OP_DIFF : Z := 64.
Definition QOI_OP_LUMA : Z := 128.
Definition QOI_OP_RUN : Z := 192.
Definition QOI_OP_RGB : Z := 254.
Definition QOI_OP_RGBA : Z := 255.
Definition QOI_MASK_2 : Z := 192.

Definition qoiHash (r g b a : Z) : Z := (r * 3 + g * 5 + b * 7 + a * 11) mod 64.

(** The 14-byte header and the 8-byte end marker. *)
Definition header (w h : Z) : list Z :=
  [113; 111; 105; 102;
   Z.land (sar32 w 24) 255; Z.land (sar32 w 16) 255;
   Z.land (sar32 w 8) 255; Z.land w 255;
   Z.land (sar32 h 24) 255; Z.land (sar32 h 16) 255;
   Z.land (sar32 h 8) 255; Z.land h 255;
   4; 0].
Definition endMarker : list Z := [0; 0; 0; 0; 0; 0; 0; 1].

(** Encoder state: the previous pixel, the pending run, the 64-entry
    index (256 bytes) and the bytes written so far.  [bytes] is allocated
    with [14 + 5 * width * height + 8] entries and at most five bytes are
    written per pixel, so every write [bytes[p++] = v] lands in range; the
    model keeps the written prefix, [p] being its length. *)
Record EncState : Type := {
  e_r : Z; e_g : Z; e_b : Z; e_a : Z;
  e_run : Z;
  e_index : list Z;
  e_bytes : list Z
}.

(** The chunk written for a pixel that differs from the previous one and
    is not found in the index. *)
Definition encodeOp (r g b a px_r px_g px_b px_a : Z) : list Z :=
  if a =? px_a then
    let vg_r := sar32 (shl32 (r - px_r) 24) 24 in
    let vg_g := sar32 (shl32 (g - px_g) 24) 24 in
    let vg_b := sar32 (shl32 (b - px_b) 24) 24 in
    if (-3 <? vg_r) && (vg_r <? 2) && (-3 <? vg_g) && (vg_g <? 2)
       && (-3 <? vg_b) && (vg_b <? 2)
    then [Z.lor (Z.lor (Z.lor QOI_OP_DIFF (Z.shiftl (vg_r + 2) 4))
                       (Z.shiftl (vg_g + 2) 2)) (vg_b + 2)]
    else
      let vg_dr := sar32 (shl32 (vg_r - vg_g) 24) 24 in
      let vg_db := sar32 (shl32 (vg_b - vg_g) 24) 24 in
      if (-33 <? vg_g) && (vg_g <? 32) && (-9 <? vg_dr) && (vg_dr <? 8)
         && (-9 <? vg_db) && (vg_db <? 8)
      then [Z.lor QOI_OP_LUMA (vg_g + 32);
            Z.lor (Z.shiftl (vg_dr + 8) 4) (vg_db + 8)]
      else [QOI_OP_RGB; r; g; b]
  else [QOI_OP_RGBA; r; g; b; a].

(** The body of the pixel loop of [encodeQOI] for the pixel at [pxPos]. *)
Definition encodePixel (pixels : list Z) (st : EncState) (pxPos : nat) : EncState :=
  let r := aget pixels pxPos in
  let g := aget pixels (pxPos + 1) in
  let b := aget pixels (pxPos + 2) in
  let a := aget pixels (pxPos + 3) in
  let st' :=
    if (r =? e_r st) && (g =? e_g st) && (b =? e_b st) && (a =? e_a st) then
      let run := e_run st + 1 in
      if run =? 62
      then {| e_r := e_r st; e_g := e_g st; e_b := e_b st; e_a := e_a st;
              e_run := 0; e_index := e_index st;
              e_bytes := e_bytes st ++ [Z.lor QOI_OP_RUN (run - 1)] |}
      else {| e_r := e_r st; e_g := e_g st; e_b := e_b st; e_a := e_a st;
              e_run := run; e_index := e_index st; e_bytes := e_bytes st |}
    else
      let bytes :=
        if 0 <? e_run st
        then e_bytes st ++ [Z.lor QOI_OP_RUN (e_run st - 1)]
        else e_bytes st in
      let indexPos := qoiHash r g b a in
      let idxOffset := Z.to_nat (indexPos * 4) in
      let index := e_index st in
      if (aget index idxOffset =? r) && (aget index (idxOffset + 1) =? g)
         && (aget index (idxOffset + 2) =? b) && (aget index (idxOffset + 3) =? a)
      then {| e_r := e_r st; e_g := e_g st; e_b := e_b st; e_a := e_a st;
              e_run := 0; e_index := index;
              e_bytes := bytes ++ [Z.lor QOI_OP_INDEX indexPos] |}
      else
        let index := aset index idxOffset (toUint8 r) in
        let index := aset index (idxOffset + 1) (toUint8 g) in
        let index := aset index (idxOffset + 2) (toUint8 b) in
        let index := aset index (idxOffset + 3) (toUint8 a) in
        {| e_r := e_r st; e_g := e_g st; e_b := e_b st; e_a := e_a st;
           e_run := 0; e_index := index;
           e_bytes := bytes ++ encodeOp r g b a (e_r st) (e_g st) (e_b st) (e_a st) |}
  in
  {| e_r := r; e_g := g; e_b := b; e_a := a;
     e_run := e_run st'; e_index := e_index st'; e_bytes := e_bytes st' |}.

Definition encodeQOI (imageData : ImageData) : list Z :=
  let w := width imageData in
  let h := height imageData in
  let pixels := data imageData in
  let totalPixels := Z.to_nat (w * h) in
  let st0 := {| e_r := 0; e_g := 0; e_b := 0; e_a := 255; e_run := 0;
                e_index := zeros (64 * 4); e_bytes := header w h |} in
  let st := foldl (encodePixel pixels) st0
                  (map (fun i => (4 * i)%nat) (seq 0 totalPixels)) in
  let bytes :=
    if 0 <? e_run st
    then e_bytes st ++ [Z.lor QOI_OP_RUN (e_run st - 1)]
    else e_bytes st in
  bytes ++ endMarker.

(** Decoder state: read position, previous pixel, remaining run, index,
    output raster and write position. *)
Record DecState : Type := {
  d_p : nat;
  d_r : Z; d_g : Z; d_b : Z; d_a : Z;
  d_run : Z;
  d_index : list Z;
  d_pixels : list Z;
  d_pxPos : nat
}.

(** The body of the [while] loop of [decodeQOI]. *)
Definition decodeStep (bytes : list Z) (st : DecState) : DecState :=
  let st1 :=
    if 0 <? d_run st then
      {| d_p := d_p st; d_r := d_r st; d_g := d_g st; d_b := d_b st;
         d_a := d_a st; d_run := d_run st - 1; d_index := d_index st;
         d_pixels := d_pixels st; d_pxPos := d_pxPos st |}
    else
      let p := d_p st in
      let b1 := aget bytes p in
      let p := (p + 1)%nat in
      let '(p, r, g, b, a, run) :=
        if b1 =? QOI_OP_RGB then
          (p + 3, aget bytes p, aget bytes (p + 1), aget bytes (p + 2),
           d_a st, d_run st)%nat
        else if b1 =? QOI_OP_RGBA then
          (p + 4, aget bytes p, aget bytes (p + 1), aget bytes (p + 2),
           aget bytes (p + 3), d_run st)%nat
        else
          let tag := Z.land b1 QOI_MASK_2 in
          if tag =? QOI_OP_INDEX then
            let idx := Z.to_nat (Z.land b1 63 * 4) in
            (p, aget (d_index st) idx, aget (d_index st) (idx + 1),
             aget (d_index st) (idx + 2), aget (d_index st) (idx + 3),
             d_run st)%nat
          else if tag =? QOI_OP_DIFF then
            (p, Z.land (d_r st + Z.land (Z.shiftr b1 4) 3 - 2 + 256) 255,
             Z.land (d_g st + Z.land (Z.shiftr b1 2) 3 - 2 + 256) 255,
             Z.land (d_b st + Z.land b1 3 - 2 + 256) 255,
             d_a st, d_run st)
          else if tag =? QOI_OP_LUMA then
            let b2 := aget bytes p in
            let vg := Z.land b1 63 - 32 in
            let dr := Z.land (Z.shiftr b2 4) 15 - 8 in
            let db := Z.land b2 15 - 8 in
            ((p + 1)%nat, Z.land (d_r st + vg + dr + 256) 255,
             Z.land (d_g st + vg + 256) 255,
             Z.land (d_b st + vg + db + 256) 255,
             d_a st, d_run st)
          else if tag =? QOI_OP_RUN then
            (p, d_r st, d_g st, d_b st, d_a st, Z.land b1 63)
          else
            (p, d_r st, d_g st, d_b st, d_a st, d_run st)
      in
      let indexPos := Z.to_nat (qoiHash r g b a * 4) in
      let index := aset (d_index st) indexPos (toUint8 r) in
      let index := aset index (indexPos + 1) (toUint8 g) in
      let index := aset index (indexPos + 2) (toUint8 b) in
      let index := aset index (indexPos + 3) (toUint8 a) in
      {| d_p := p; d_r := r; d_g := g; d_b := b; d_a := a; d_run := run;
         d_index := index; d_pixels := d_pixels st; d_pxPos := d_pxPos st |}
  in
  let pxPos := d_pxPos st1 in
  let pixels := aset (d_pixels st1) pxPos (toUint8Clamp (d_r st1)) in
  let pixels := aset pixels (pxPos + 1) (toUint8Clamp (d_g st1)) in
  let pixels := aset pixels (pxPos + 2) (toUint8Clamp (d_b st1)) in
  let pixels := aset pixels (pxPos + 3) (toUint8Clamp (d_a st1)) in
  {| d_p := d_p st1; d_r := d_r st1; d_g := d_g st1; d_b := d_b st1;
     d_a := d_a st1; d_run := d_run st1; d_index := d_index st1;
     d_pixels := pixels; d_pxPos := (pxPos + 4)%nat |}.

(** [while (pxPos < pixels.length && p < bytes.length - 8)]: every
    iteration advances [pxPos] by four, so [fuel] = number of pixels
    suffices. *)
Fixpoint decodeLoop (fuel : nat) (bytes : list Z) (st : DecState) : DecState :=
  match fuel with
  | O => st
  | S fuel' =>
      if (d_pxPos st <? length (d_pixels st))%nat
         && (Z.of_nat (d_p st) <? Z.of_nat (length bytes) - 8)
      then decodeLoop fuel' bytes (decodeStep bytes st)
      else st
  end.

(** [(b0 << 24) | (b1 << 16) | (b2 << 8) | b3], a signed 32-bit value. *)
Definition readInt32 (bytes : list Z) (p : nat) : Z :=
  or32 (or32 (or32 (shl32 (aget bytes p) 24) (shl32 (aget bytes (p + 1)) 16))
             (shl32 (aget bytes (p + 2)) 8))
       (aget bytes (p + 3)).

Definition decodeQOI (bytes : list Z) : result ImageData :=
  if (length bytes <? 14 + 8)%nat then Throw (Error "QOI stream too small")
  else if negb (bool_decide (take 4 bytes = [113; 111; 105; 102]))
  then Throw (Error "Invalid QOI magic")
  else
    let w := readInt32 bytes 4 in
    let h := readInt32 bytes 8 in
    let channels := aget bytes 12 in
    if negb (channels =? 4) then Throw (Error "Only RGBA QOI is supported")
    else if w * h * 4 <? 0 then Throw RangeError
    else
      let n := Z.to_nat (w * h * 4) in
      let st0 := {| d_p := 14; d_r := 0; d_g := 0; d_b := 0; d_a := 255;
                    d_run := 0; d_index := zeros (64 * 4);
                    d_pixels := zeros n; d_pxPos := 0 |} in
      let st := decodeLoop n bytes st0 in
      Ok {| width := w; height := h; data := d_pixels st |}.

End QOI.

(** ** huffman.ts *)

Module Huffman.

Definition RLE_MARKER : Z := 255.

Record CodeLen : Type := { symbol : Z; len : Z }.

(** [Array.prototype.sort(cmp)] is stable; [le a b] stands for
    [cmp(a, b) <= 0] (a comparator result of [NaN] counts as 0). *)
Fixpoint insertBy {A : Type} (le : A -> A -> bool) (a : A) (l : list A) : list A :=
  match l with
  | [] => [a]
  | b :: l' => if le a b then a :: l else b :: insertBy le a l'
  end.
Definition sortBy {A : Type} (le : A -> A -> bool) (l : list A) : list A :=
  foldr (insertBy le) [] l.

(** *** Delta and run-length front end *)

Fixpoint deltaFrom (prev : Z) (data : list Z) : list Z :=
  match data with
  | [] => []
  | v :: rest =>
      let diff := Z.max (-128) (Z.min 127 (v - prev)) in
      Z.land (diff + 128) 255 :: deltaFrom v rest
  end.
Definition deltaEncode (data : list Z) : list Z := deltaFrom 0 data.

(** The inner [while] of [rleEncode]: extends [run] over [rest], the
    elements that follow position [i + run - 1]. *)
Fixpoint runLength (value : Z) (rest : list Z) (run : Z) : Z :=
  match rest with
  | d :: rest' =>
      if (d =? value) && (run <? 255) then runLength value rest' (run + 1) else run
  | [] => run
  end.

(** The outer [while (i < len)]; [data] is the part from position [i] on,
    and every iteration consumes at least one element. *)
Fixpoint rleLoop (fuel : nat) (data : list Z) : list Z :=
  match fuel, data with
  | S fuel', value :: rest =>
      let run := runLength value rest 1 in
      let chunk :=
        if (3 <=? run) || (value =? RLE_MARKER)
        then [RLE_MARKER; run; value]
        else replicate (Z.to_nat run) value in
      chunk ++ rleLoop fuel' (drop (Z.to_nat run) data)
  | _, _ => []
  end.
Definition rleEncode (data : list Z) : list Z := rleLoop (length data) data.

(** *** Code lengths *)

(** [class Node]: a leaf carries a symbol, an inner node two children. *)
Inductive Node : Type :=
| Leaf (freq : Z) (sym : Z)
| Inner (freq : Z) (l r : Node).

Definition freq (n : Node) : Z :=
  match n with Leaf f _ => f | Inner f _ _ => f end.

(** The [Map] of frequencies, in insertion order. *)
Fixpoint bump (v : Z) (freqs : list (Z * Z)) : list (Z * Z) :=
  match freqs with
  | [] => [(v, 1)]
  | (k, c) :: rest => if k =? v then (k, c + 1) :: rest else (k, c) :: bump v rest
  end.
Definition countFreqs (rle : list Z) : list (Z * Z) :=
  foldl (fun m v => bump v m) [] rle.

(** [queue.splice(idx, 0, parent)] after the scan
    [while (idx < queue.length && queue[idx].freq < parent.freq) idx++]. *)
Definition leFreq (a b : Node) : bool := freq a <=? freq b.

Fixpoint buildTree (fuel : nat) (queue : list Node) : list Node :=
  match fuel, queue with
  | S fuel', l :: r :: rest =>
      let parent := Inner (freq l + freq r) l r in
      buildTree fuel' (insertBy leFreq parent rest)
  | _, _ => queue
  end.

Fixpoint walk (node : Node) (depth : Z) : list CodeLen :=
  match node with
  | Leaf _ s => [{| symbol := s; len := if depth =? 0 then 1 else depth |}]
  | Inner _ l r => walk l (depth + 1) ++ walk r (depth + 1)
  end.

Definition buildCodeLengths (freqs : list (Z * Z)) : list CodeLen :=
  let queue :=
    sortBy (fun a b => freq a - freq b <=? 0)
           (map (fun '(s, f) => Leaf f s) freqs) in
  match queue with
  | [] => []
  | [Leaf _ s] => [{| symbol := s; len := 1 |}]
  | _ =>
      match buildTree (length queue) queue with
      | root :: _ => walk root 0
      | [] => []
      end
  end.

(** *** Encoder *)

(** The comparator of the canonical sort: by length, then by symbol. *)
Definition canonicalLe (a b : CodeLen) : bool :=
  (if len a =? len b then symbol a - symbol b else len a - len b) <=? 0.

(** The loop that fills [codes] (an [Int32Array]) and [lens] (an
    [Int8Array]); [first] is [i = 0]. *)
Fixpoint assignCodes (first : bool) (code prevLen : Z) (codeLens : list CodeLen)
         (codes lens : list Z) : list Z * list Z :=
  match codeLens with
  | [] => (codes, lens)
  | e :: rest =>
      let code := if first then code else shl32 (code + 1) (len e - prevLen) in
      assignCodes false code (len e) rest
                  (aset codes (Z.to_nat (symbol e)) (wrap32 code))
                  (aset lens (Z.to_nat (symbol e)) (toInt8 (len e)))
  end.

(** Bit packer state.  [p_out] is the written prefix of [out] ([outPos]
    is its length) and [p_cap] is [out.length]. *)
Record PackState : Type := {
  p_acc : Z;
  p_pending : Z;
  p_out : list Z;
  p_cap : nat
}.

Definition pushBit (st : PackState) (bit : Z) : PackState :=
  let acc := or32 (shl32 (p_acc st) 1) bit in
  let pending := p_pending st + 1 in
  if pending =? 8 then
    let cap := if (p_cap st <=? length (p_out st))%nat
               then (p_cap st * 2)%nat else p_cap st in
    {| p_acc := 0; p_pending := 0;
       p_out := p_out st ++ [toUint8 acc]; p_cap := cap |}
  else
    {| p_acc := acc; p_pending := pending;
       p_out := p_out st; p_cap := p_cap st |}.

(** [for (let b = l - 1; b >= 0; b--)] over the bits of [codes[sym]]. *)
Definition pushSymbol (codes lens : list Z) (st : PackState) (sym : Z) : PackState :=
  let c := aget codes (Z.to_nat sym) in
  let l := aget lens (Z.to_nat sym) in
  foldl (fun st b => pushBit st (and32 (sar32 c b) 1)) st (reverse (seqZ 0 l)).

(** The final flush writes [out[outPos++]] without growing the buffer:
    the byte is lost when [outPos] has reached [out.length], and
    [out.slice(0, outPos)] is then clipped to the buffer. *)
Definition flush (st : PackState) : list Z :=
  if 0 <? p_pending st then
    let acc := shl32 (p_acc st) (8 - p_pending st) in
    if (length (p_out st) <? p_cap st)%nat
    then p_out st ++ [toUint8 acc]
    else p_out st
  else p_out st.

Definition sortedCodeLens (rle : list Z) : list CodeLen :=
  sortBy canonicalLe (buildCodeLengths (countFreqs rle)).

Definition headerBytes (codeLens : list CodeLen) : list Z :=
  toUint8 (Z.of_nat (length codeLens))
    :: flat_map (fun e => [toUint8 (symbol e); toUint8 (len e)]) codeLens.

Definition encodeHuffman (data : list Z) : list Z :=
  if (length data =? 0)%nat then []
  else
    let deltas := deltaEncode data in
    let rle := rleEncode deltas in
    let codeLens := sortedCodeLens rle in
    let prevLen := match codeLens with e :: _ => len e | [] => 0 end in
    let '(codes, lens) :=
      assignCodes true 0 prevLen codeLens (replicate 256 (-1)) (zeros 256) in
    let estimatedSize := (1 + length codeLens * 2 + length rle)%nat in
    let st0 := {| p_acc := 0; p_pending := 0;
                  p_out := headerBytes codeLens;
                  p_cap := (estimatedSize * 2)%nat |} in
    flush (foldl (pushSymbol codes lens) st0 rle).

(** *** Decoder *)

(** A header entry as read: [data[p++]] is [undefined] ([None]) past the
    end of the input. *)
Record Entry : Type := { e_symbol : option Z; e_len : option Z }.

Fixpoint readEntries (count : nat) (data : list Z) (p : nat) : list Entry :=
  match count with
  | O => []
  | S count' =>
      {| e_symbol := data !! p; e_len := data !! (p + 1)%nat |}
        :: readEntries count' data (p + 2)
  end.

(** [lenCounts[len]++] on an [Int32Array(33)]. *)
Definition countLen (lenCounts : list Z) (e : Entry) : list Z :=
  match e_len e with
  | Some l => aset lenCounts (Z.to_nat l) (aget lenCounts (Z.to_nat l) + 1)
  | None => lenCounts
  end.

(** The comparator on entries; a subtraction involving [undefined] is
    [NaN], which [sort] treats as 0.  ([undefined === undefined] holds.) *)
Definition entryLe (a b : Entry) : bool :=
  let sub (x y : option Z) : bool :=
    match x, y with
    | Some x, Some y => x - y <=? 0
    | _, _ => true
    end in
  if bool_decide (e_len a = e_len b)
  then sub (e_symbol a) (e_symbol b)
  else sub (e_len a) (e_len b).

Definition MAX_CODE_LEN : nat := 32.

(** [minCode], [maxCode], [valPtr]: three [Int32Array(32)] filled with -1. *)
Record Tables : Type := {
  minCode : list Z;
  maxCode : list Z;
  valPtr : list Z
}.

(** A store [t[len] = v] into an [Int32Array(32)] at a byte-valued index. *)
Definition store32 (t : list Z) (l : Z) (v : Z) : list Z :=
  aset t (Z.to_nat l) (wrap32 v).

(** The loop [for (let i = 0; i < codeLens.length; )].  [currentLen] is
    [None] when [codeLens[0].len] is [undefined].  When [lenCounts[len]]
    is [undefined] (a length above 32, or an [undefined] length) the
    increments turn [i] into [NaN] and the loop ends; the stores of that
    iteration fall outside the tables. *)
Fixpoint tableLoop (fuel : nat) (codeLens : list Entry) (lenCounts : list Z)
         (i : nat) (currentCode : Z) (currentLen : option Z) (symbolOffset : Z)
         (t : Tables) : Tables :=
  match fuel with
  | O => t
  | S fuel' =>
      match codeLens !! i with
      | None => t
      | Some e =>
          match e_len e with
          | None => t
          | Some l =>
              let '(currentCode, currentLen) :=
                match currentLen with
                | Some cl =>
                    if cl <? l
                    then (Nat.iter (Z.to_nat (l - cl)) (fun c => shl32 c 1) currentCode,
                          Some l)
                    else (currentCode, Some cl)
                | None => (currentCode, None)
                end in
              if 32 <? l then t
              else
                let countForLen := aget lenCounts (Z.to_nat l) in
                let t := {| minCode := store32 (minCode t) l currentCode;
                            maxCode := store32 (maxCode t) l (currentCode + countForLen - 1);
                            valPtr := store32 (valPtr t) l symbolOffset |} in
                tableLoop fuel' codeLens lenCounts
                          (i + Z.to_nat countForLen)
                          (currentCode + countForLen) currentLen
                          (symbolOffset + countForLen) t
          end
      end
  end.

(** Bit reader state: read position, accumulator, number of buffered
    bits, and the symbols written to [rleStream] so far ([rlePos] is
    their number; every write is in range because the loop stops once
    [rlePos] reaches the length of the buffer). *)
Record ReadState : Type := {
  r_p : nat;
  r_acc : Z;
  r_bits : Z;
  r_rle : list Z
}.

(** [while (bitsAvailable < 24 && p < dataLen)]. *)
Fixpoint fill (fuel : nat) (data : list Z) (p : nat) (acc bits : Z) : nat * Z * Z :=
  match fuel with
  | O => (p, acc, bits)
  | S fuel' =>
      if (bits <? 24) && (p <? length data)%nat
      then fill fuel' data (p + 1) (or32 (shl32 acc 8) (aget data p)) (bits + 8)
      else (p, acc, bits)
  end.

(** The inner [while (true)]: reads one bit per round; returns the
    decoded symbol, if any, and the bits left. *)
Fixpoint readSymbol (fuel : nat) (t : Tables) (symbols : list Z)
         (acc bits : Z) (curLen curCode : Z) : option Z * Z :=
  match fuel with
  | O => (None, bits)
  | S fuel' =>
      let curLen := curLen + 1 in
      if bits =? 0 then (None, bits)
      else
        let bits := bits - 1 in
        let bit := and32 (shr32 acc bits) 1 in
        let curCode := or32 (shl32 curCode 1) bit in
        let mx := aget (maxCode t) (Z.to_nat curLen) in
        if negb (mx =? -1) && (curCode <=? mx) then
          let symbolIndex :=
            aget (valPtr t) (Z.to_nat curLen)
            + (curCode - aget (minCode t) (Z.to_nat curLen)) in
          let sym := if symbolIndex <? 0 then 0
                     else aget symbols (Z.to_nat symbolIndex) in
          (Some sym, bits)
        else if 30 <=? curLen then (None, bits)
        else readSymbol fuel' t symbols acc bits curLen curCode
  end.

(** The main decode loop; each round that does not stop adds a symbol,
    and the loop stops once [expectedLength * 2] symbols are there. *)
Fixpoint decodeLoop (fuel : nat) (data : list Z) (startLen : option Z)
         (t : Tables) (symbols : list Z) (limit : nat) (st : ReadState) : ReadState :=
  match fuel with
  | O => st
  | S fuel' =>
      if ((r_p st <? length data)%nat || (0 <? r_bits st)) then
        let '(p, acc, bits) := fill 4 data (r_p st) (r_acc st) (r_bits st) in
        let stop :=
          match startLen with
          | Some sl => (bits <? sl) && (length data <=? p)%nat
          | None => false
          end in
        if stop
        then {| r_p := p; r_acc := acc; r_bits := bits; r_rle := r_rle st |}
        else
          match readSymbol 30 t symbols acc bits 0 0 with
          | (Some sym, bits) =>
              let st := {| r_p := p; r_acc := acc; r_bits := bits;
                           r_rle := r_rle st ++ [toUint8 sym] |} in
              if (limit <=? length (r_rle st))%nat then st
              else decodeLoop fuel' data startLen t symbols limit st
          | (None, bits) =>
              {| r_p := p; r_acc := acc; r_bits := bits; r_rle := r_rle st |}
          end
      else st
  end.

(** One decoded delta: [prevVal + (v - 128)] clamped to a byte. *)
Definition unDelta (prevVal v : Z) : Z :=
  let pixel := prevVal + (v - 128) in
  let pixel := if pixel <? 0 then 0 else pixel in
  if 255 <? pixel then 255 else pixel.

(** The run loop [for (let r = 0; r < run; r++)]; [out] is the written
    prefix of [finalOut] in reverse order. *)
Fixpoint applyRun (run : nat) (expectedLength : nat) (v : Z)
         (out : list Z) (prevVal : Z) : list Z * Z :=
  match run with
  | O => (out, prevVal)
  | S run' =>
      if (expectedLength <=? length out)%nat then (out, prevVal)
      else
        let pixel := unDelta prevVal v in
        applyRun run' expectedLength v (toUint8 pixel :: out) pixel
  end.

(** The fused RLE and delta decoding loop over [rleStream[0 .. rlePos)]. *)
Fixpoint expand (fuel : nat) (rle : list Z) (expectedLength : nat)
         (out : list Z) (prevVal : Z) : list Z :=
  match fuel with
  | O => out
  | S fuel' =>
      match rle with
      | [] => out
      | val :: rest =>
          if (expectedLength <=? length out)%nat then out
          else if val =? RLE_MARKER then
            match rest with
            | run :: v :: rest' =>
                let '(out, prevVal) :=
                  applyRun (Z.to_nat run) expectedLength v out prevVal in
                expand fuel' rest' expectedLength out prevVal
            | _ => out
            end
          else
            let pixel := unDelta prevVal val in
            expand fuel' rest expectedLength (toUint8 pixel :: out) pixel
      end
  end.

Definition decodeHuffman (data : list Z) (expectedLength : nat) : result (list Z) :=
  if (length data =? 0)%nat || (expectedLength =? 0)%nat then Ok []
  else
    let count := Z.to_nat (aget data 0) in
    let entries := readEntries count data 1 in
    let p := (1 + 2 * count)%nat in
    let lenCounts := foldl countLen (zeros (MAX_CODE_LEN + 1)) entries in
    let codeLens := sortBy entryLe entries in
    let symbols := map (fun e => wrap32 (default 0 (e_symbol e))) codeLens in
    match codeLens with
    | [] => Throw TypeError
    | first :: _ =>
        let t0 := {| minCode := replicate MAX_CODE_LEN (-1);
                     maxCode := replicate MAX_CODE_LEN (-1);
                     valPtr := replicate MAX_CODE_LEN (-1) |} in
        let t := tableLoop (length codeLens) codeLens lenCounts 0 0
                           (e_len first) 0 t0 in
        let st0 := {| r_p := p; r_acc := 0; r_bits := 0; r_rle := [] |} in
        let st := decodeLoop (expectedLength * 2) data (e_len first) t symbols
                             (expectedLength * 2) st0 in
        let out := reverse (expand (length (r_rle st)) (r_rle st)
                                   expectedLength [] 0) in
        Ok (out ++ zeros (expectedLength - length out))
    end.

End Huffman.

(** ** JavaScript numbers: IEEE 754 binary64 *)

Module Num.

Definition prec : Z := 53.
Definition emax : Z := 1024.

Definition ofZ (z : Z) : spec_float := binary_normalize prec emax z 0 false.
Definition add : spec_float -> spec_float -> spec_float := SFadd prec emax.
Definition sub : spec_float -> spec_float -> spec_float := SFsub prec emax.
Definition mul : spec_float -> spec_float -> spec_float := SFmul prec emax.
Definition div : spec_float -> spec_float -> spec_float := SFdiv prec emax.
Definition neg : spec_float -> spec_float := SFopp.

(** A decimal literal [n / 10^k]: the nearest double to the quotient. *)
Definition lit (n d : Z) : spec_float := div (ofZ n) (ofZ d).

(** [Math.min] and [Math.max] (on operands that are not [NaN]). *)
Definition min (a b : spec_float) : spec_float := if SFltb b a then b else a.
Definition max (a b : spec_float) : spec_float := if SFltb a b then b else a.

(** [Math.round] of a finite number, as an integer: [floor(x + 1/2)],
    computed exactly. *)
Definition round (x : spec_float) : Z :=
  match x with
  | S754_finite s m e =>
      let n := if s then Z.neg m else Z.pos m in
      if 0 <=? e then n * 2 ^ e
      else (2 * n + 2 ^ (- e)) / 2 ^ (- e + 1)
  | _ => 0
  end.

(** The conversion of a number stored into a [Uint8ClampedArray]:
    clamped to [0, 255] and rounded to nearest, ties to even. *)
Definition toUint8Clamp (x : spec_float) : Z :=
  match x with
  | S754_finite false m e =>
      if 0 <=? e then Z.min 255 (Z.pos m * 2 ^ e)
      else
        let d := 2 ^ (- e) in
        let f := Z.pos m / d in
        let r := Z.pos m mod d in
        let v := match 2 * r ?= d with
                 | Lt => f
                 | Gt => f + 1
                 | Eq => if Z.even f then f else f + 1
                 end in
        Z.min 255 v
  | S754_infinity false => 255
  | _ => 0
  end.

End Num.

(** ** algorithm.ts *)

Module Algorithm.

Definition R_Y : spec_float := Num.lit 299 1000.
Definition G_Y : spec_float := Num.lit 587 1000.
Definition B_Y : spec_float := Num.lit 114 1000.

Record ProcessResult : Type := {
  processedImageData : ImageData;
  nodalPointsY : list Z;
  nodalPointsCb : list Z;
  nodalPointsCr : list Z
}.

(** [quantize]: the nodal values it returns are integers. *)
Definition quantize (discard : Z) (val : spec_float) : Z :=
  let rounded := Num.round val in
  if discard =? 0 then rounded
  else and32 (shl32 (sar32 rounded discard) discard) 255.

(** The bounds of the tile [(gx, gy)]. *)
Definition tileXs (w block gx : nat) : list nat :=
  let xStart := (gx * block)%nat in
  let xEnd := Nat.min w (xStart + block) in
  seq xStart (xEnd - xStart).

(** Sums of Y, Cb, Cr over a tile, and the pixel count. *)
Definition tileSums (data : list Z) (w h block gx gy : nat)
  : spec_float * spec_float * spec_float * Z :=
  foldl (fun acc y =>
    foldl (fun '(sumY, sumCb, sumCr, count) x =>
      let offset := ((y * w + x) * 4)%nat in
      let r := Num.ofZ (aget data offset) in
      let g := Num.ofZ (aget data (offset + 1)) in
      let b := Num.ofZ (aget data (offset + 2)) in
      let Y := Num.add (Num.add (Num.mul R_Y r) (Num.mul G_Y g)) (Num.mul B_Y b) in
      let Cb := Num.add (Num.add (Num.sub (Num.mul (Num.neg (Num.lit 1687 10000)) r)
                                           (Num.mul (Num.lit 3313 10000) g))
                                  (Num.mul (Num.lit 5 10) b))
                        (Num.ofZ 128) in
      let Cr := Num.add (Num.sub (Num.sub (Num.mul (Num.lit 5 10) r)
                                           (Num.mul (Num.lit 4187 10000) g))
                                  (Num.mul (Num.lit 813 10000) b))
                        (Num.ofZ 128) in
      (Num.add sumY Y, Num.add sumCb Cb, Num.add sumCr Cr, count + 1))
      acc (tileXs w block gx))
    (Num.ofZ 0, Num.ofZ 0, Num.ofZ 0, 0) (tileXs h block gy).

(** Step 1-3: the body of the nodal loop for the tile [(gx, gy)]. *)
Definition nodalStep (data : list Z) (w h block gridWidth : nat) (discard : Z)
           (gx gy : nat) (nodal : list Z * list Z * list Z)
  : list Z * list Z * list Z :=
  let '(nodalY, nodalCb, nodalCr) := nodal in
  let '(sumY, sumCb, sumCr, count) := tileSums data w h block gx gy in
  if count =? 0 then nodal
  else
    let c := Num.ofZ count in
    let avgY := quantize discard (Num.div sumY c) in
    let avgCb := quantize discard
                   (Num.min (Num.ofZ 255) (Num.max (Num.ofZ 0) (Num.div sumCb c))) in
    let avgCr := quantize discard
                   (Num.min (Num.ofZ 255) (Num.max (Num.ofZ 0) (Num.div sumCr c))) in
    let idx := (gy * gridWidth + gx)%nat in
    (<[idx := avgY]> nodalY, <[idx := avgCb]> nodalCb, <[idx := avgCr]> nodalCr).

(** YCrCb to RGB, then the store into the [Uint8ClampedArray]:
    the four bytes written for one pixel. *)
Definition rgbBytes (Yv Cbv Crv : spec_float) : list Z :=
  let r := Num.add Yv (Num.mul (Num.lit 1402 1000) Crv) in
  let g := Num.sub (Num.sub Yv (Num.mul (Num.lit 34414 100000) Cbv))
                   (Num.mul (Num.lit 71414 100000) Crv) in
  let b := Num.add Yv (Num.mul (Num.lit 1772 1000) Cbv) in
  let clamp v := Num.toUint8Clamp (Num.min (Num.ofZ 255) (Num.max (Num.ofZ 0) v)) in
  [clamp r; clamp g; clamp b; 255].

(** The four stores [outputData[offset .. offset + 3] = ...]. *)
Definition writePixel (out : list Z) (offset : nat) (bytes : list Z) : list Z :=
  foldl (fun out '(k, v) => aset out (offset + k) v) out
        (zip (seq 0 (length bytes)) bytes).

(** Flat reconstruction: the body for the tile [(gx, gy)]. *)
Definition flatStep (nodalY nodalCb nodalCr : list Z) (w h block gridWidth : nat)
           (gx gy : nat) (out : list Z) : list Z :=
  let idx := (gy * gridWidth + gx)%nat in
  let Yv := Num.ofZ (aget nodalY idx) in
  let Cbv := Num.ofZ (aget nodalCb idx - 128) in
  let Crv := Num.ofZ (aget nodalCr idx - 128) in
  let bytes := rgbBytes Yv Cbv Crv in
  foldl (fun out y =>
    foldl (fun out x => writePixel out ((y * w + x) * 4) bytes)
          out (tileXs w block gx))
    out (tileXs h block gy).

Definition lerp (a b t : spec_float) : spec_float :=
  Num.add a (Num.mul (Num.sub b a) t).

(** Bilinear reconstruction: the body for the pixel [(x, y)]. *)
Definition smoothStep (nodalY nodalCb nodalCr : list Z)
           (w h block gridWidth gridHeight : nat)
           (x y : nat) (out : list Z) : list Z :=
  let gy := (y / block)%nat in
  let gy1 := Nat.min (gy + 1) (gridHeight - 1) in
  let y0 := (gy * block)%nat in
  let y1 := Nat.min (h - 1) ((gy + 1) * block) in
  let ty := if (y1 =? y0)%nat then Num.ofZ 0
            else Num.div (Num.ofZ (Z.of_nat y - Z.of_nat y0))
                         (Num.ofZ (Z.of_nat y1 - Z.of_nat y0)) in
  let gx := (x / block)%nat in
  let gx1 := Nat.min (gx + 1) (gridWidth - 1) in
  let x0 := (gx * block)%nat in
  let x1 := Nat.min (w - 1) ((gx + 1) * block) in
  let tx := if (x1 =? x0)%nat then Num.ofZ 0
            else Num.div (Num.ofZ (Z.of_nat x - Z.of_nat x0))
                         (Num.ofZ (Z.of_nat x1 - Z.of_nat x0)) in
  let idx00 := (gy * gridWidth + gx)%nat in
  let idx10 := (gy * gridWidth + gx1)%nat in
  let idx01 := (gy1 * gridWidth + gx)%nat in
  let idx11 := (gy1 * gridWidth + gx1)%nat in
  let interp (nodal : list Z) : spec_float :=
    let top := lerp (Num.ofZ (aget nodal idx00)) (Num.ofZ (aget nodal idx10)) tx in
    let bot := lerp (Num.ofZ (aget nodal idx01)) (Num.ofZ (aget nodal idx11)) tx in
    lerp top bot ty in
  let yVal := interp nodalY in
  let cbVal := Num.sub (interp nodalCb) (Num.ofZ 128) in
  let crVal := Num.sub (interp nodalCr) (Num.ofZ 128) in
  writePixel out ((y * w + x) * 4) (rgbBytes yVal cbVal crVal).

(** [blockSize] and [discardBits] are integers here ([Math.floor] is the
    identity on them). *)
Definition processImageFrame (imageData : ImageData) (blockSize discardBits : Z)
           (smooth : bool) : ProcessResult :=
  let w := Z.to_nat (width imageData) in
  let h := Z.to_nat (height imageData) in
  let data := data imageData in
  let block := Z.to_nat (Z.max 2 blockSize) in
  let discard := Z.min 6 (Z.max 0 discardBits) in
  let gridWidth := Z.to_nat (ceil_div (Z.of_nat w) (Z.of_nat block)) in
  let gridHeight := Z.to_nat (ceil_div (Z.of_nat h) (Z.of_nat block)) in
  let n := (gridWidth * gridHeight)%nat in
  let '(nodalY, nodalCb, nodalCr) :=
    forXY gridWidth gridHeight (nodalStep data w h block gridWidth discard)
          (zeros n, zeros n, zeros n) in
  let outputData := zeros (length data) in
  let outputData :=
    if discard =? 0 then data
    else if negb smooth then
      forXY gridWidth gridHeight
            (flatStep nodalY nodalCb nodalCr w h block gridWidth) outputData
    else
      forXY w h
            (smoothStep nodalY nodalCb nodalCr w h block gridWidth gridHeight)
            outputData in
  {| processedImageData :=
       {| width := width imageData; height := height imageData;
          data := outputData |};
     nodalPointsY := nodalY;
     nodalPointsCb := nodalCb;
     nodalPointsCr := nodalCr |}.

End Algorithm.

(** ** The two pipelines: api/compress/route.ts and decode.ts *)

Module Pipeline.

(** The codec part of [POST]: from the decoded upload to the container. *)
Definition encode (imageData : ImageData) (blockSize discardBits : Z)
           (smooth : bool) : list Z :=
  let processed := Algorithm.processImageFrame imageData blockSize discardBits smooth in
  let residual := Paeth.buildResidualImage (Algorithm.processedImageData processed) in
  let qoiBytes := QOI.encodeQOI residual in
  let huffmanY := Huffman.encodeHuffman (Algorithm.nodalPointsY processed) in
  let huffmanCb := Huffman.encodeHuffman (Algorithm.nodalPointsCb processed) in
  let huffmanCr := Huffman.encodeHuffman (Algorithm.nodalPointsCr processed) in
  Container.buildContainer
    {| Container.in_width := width imageData;
       Container.in_height := height imageData;
       Container.in_blockSize := blockSize;
       Container.in_discardBits := discardBits;
       Container.in_smooth := smooth;
       Container.in_qoi := qoiBytes;
       Container.in_huffmanY := huffmanY;
       Container.in_huffmanCb := huffmanCb;
       Container.in_huffmanCr := huffmanCr |}.

(** The residual image handed to [encodeQOI] during encode. *)
Definition residualOf (imageData : ImageData) (blockSize discardBits : Z)
           (smooth : bool) : ImageData :=
  Paeth.buildResidualImage
    (Algorithm.processedImageData
       (Algorithm.processImageFrame imageData blockSize discardBits smooth)).

Record DecodedContainer : Type := {
  imageData : ImageData;
  d_width : Z;
  d_height : Z;
  d_blockSize : Z;
  d_discardBits : Z;
  d_smooth : bool;
  qoiSize : nat;
  nodalSize : nat;
  d_totalSize : nat;
  nodalPointsY : list Z;
  nodalPointsCb : list Z;
  nodalPointsCr : list Z
}.

Definition decodeContainerToImage (buffer : list Z) : result DecodedContainer :=
  parsed ← Container.parseContainer buffer;
  let w := Container.width parsed in
  let h := Container.height parsed in
  let blockSize := Container.blockSize parsed in
  let gridWidth := ceil_div w (Z.max 2 blockSize) in
  let gridHeight := ceil_div h (Z.max 2 blockSize) in
  let nodeCount := Z.to_nat (gridWidth * gridHeight) in
  nodalPointsY ← Huffman.decodeHuffman (Container.huffmanY parsed) nodeCount;
  nodalPointsCb ← Huffman.decodeHuffman (Container.huffmanCb parsed) nodeCount;
  nodalPointsCr ← Huffman.decodeHuffman (Container.huffmanCr parsed) nodeCount;
  residualImage ← QOI.decodeQOI (Container.qoi parsed);
  if negb (width residualImage =? w) || negb (height residualImage =? h)
  then Throw (Error "QOI payload dimensions do not match container header")
  else
    let reconstructed := Paeth.decodePaethResidual residualImage in
    Ok {| imageData := reconstructed;
          d_width := w; d_height := h;
          d_blockSize := blockSize;
          d_discardBits := Container.discardBits parsed;
          d_smooth := Container.smooth parsed;
          qoiSize := length (Container.qoi parsed);
          nodalSize := (length (Container.huffmanY parsed)
                        + length (Container.huffmanCb parsed)
                        + length (Container.huffmanCr parsed))%nat;
          d_totalSize := Container.totalSize parsed;
          nodalPointsY := nodalPointsY;
          nodalPointsCb := nodalPointsCb;
          nodalPointsCr := nodalPointsCr |}.

End Pipeline.

(** ** Inputs used by the concrete scenarios *)

Definition px (r g b a : Z) : list Z := [r; g; b; a].

(** Scenario S1: the 2x2 solid red image. *)
Definition solidRed : ImageData :=
  {| width := 2; height := 2;
     data := px 255 0 0 255 ++ px 255 0 0 255 ++ px 255 0 0 255 ++ px 255 0 0 255 |}.

(** A 3x2 image whose first two pixels are not opaque. *)
Definition translucent : ImageData :=
  {| width := 3; height := 2;
     data := px 10 20 30 0 ++ px 200 100 50 17 ++ px 0 0 0 255
             ++ px 255 255 255 255 ++ px 0 3 0 255 ++ px 255 1 255 255 |}.

(** A 32-byte container: magic, version 1, block 8, no discard, the given
    smooth byte, a 1x1 image, and the four recorded section lengths. *)
Definition headerOnly (smoothByte qoiLen yLen cbLen crLen : Z) : list Z :=
  Container.CONTAINER_MAGIC ++ [1; 8; 0; smoothByte]
    ++ Container.setUint32 1 ++ Container.setUint32 1
    ++ Container.setUint32 qoiLen ++ Container.setUint32 yLen
    ++ Container.setUint32 cbLen ++ Container.setUint32 crLen.

(** The unsigned big-endian value of the four bytes at [offset]. *)
Definition be32 (buffer : list Z) (offset : nat) : Z :=
  aget buffer offset * 2 ^ 24 + aget buffer (offset + 1) * 2 ^ 16
  + aget buffer (offset + 2) * 2 ^ 8 + aget buffer (offset + 3).

(** The total size a header records: 32 plus its four section lengths. *)
Definition recordedSize (buffer : list Z) : result Z :=
  qoiLen ← Container.getUint32 buffer 16;
  yLen ← Container.getUint32 buffer 20;
  cbLen ← Container.getUint32 buffer 24;
  crLen ← Container.getUint32 buffer 28;
  Ok (32 + qoiLen + yLen + cbLen + crLen).

(** The alpha byte of pixel [i]. *)
Definition alphaAt (img : ImageData) (i : nat) : Z := aget (data img) (4 * i + 3).

(** ** Predicates and reference functions used by the statements *)

Definition isByte (v : Z) : Prop := 0 <= v <= 255.

(** A valid RGBA image: non-negative dimensions, [4 * width * height] bytes. *)
Definition validImage (img : ImageData) : Prop :=
  0 <= width img /\ 0 <= height img
  /\ length (data img) = (4 * (Z.to_nat (height img) * Z.to_nat (width img)))%nat
  /\ Forall isByte (data img).

(** The byte that [buildResidualImage] leaves at position [i]. *)
Definition residualByte (data : list Z) (w i : nat) : Z :=
  let k := (i / 4)%nat in
  let c := (i mod 4)%nat in
  if (c <? 3)%nat
  then Z.land (aget data i - Paeth.pred data w (k mod w) (k / w) c + 256) 255
  else toUint8Clamp (aget data i).

(** The raster has the size its dimensions announce. *)
Definition sizedImage (img : ImageData) : Prop :=
  length (data img) = (4 * (Z.to_nat (height img) * Z.to_nat (width img)))%nat.

(** The alpha byte of pixel [p] of a raster is 255. *)
Definition opaqueAt (p : nat) (out : list Z) : Prop := aget out (4 * p + 3) = 255.



(** A transformation of a raster of [n] bytes that keeps its size and
    every alpha byte that is already 255. *)
Definition keeps (n : nat) (f : list Z -> list Z) : Prop :=
  forall out, length out = n ->
              length (f out) = n /\ forall p, opaqueAt p out -> opaqueAt p (f out).

(** ** Reference functions for the Huffman round trip *)

(** No step of the sequence (starting from 0) leaves the range the delta
    stage can represent. *)
Fixpoint stepsInRange (prev : Z) (data : list Z) : Prop :=
  match data with
  | [] => True
  | v :: rest => -128 <= v - prev <= 127 /\ stepsInRange v rest
  end.

(** The values the decoder rebuilds from a list of delta bytes. *)
Fixpoint decodeDeltas (prev : Z) (deltas : list Z) : list Z :=
  match deltas with
  | [] => []
  | d :: rest => Huffman.unDelta prev d :: decodeDeltas (Huffman.unDelta prev d) rest
  end.

(** The value reached after decoding [deltas] from [prev]. *)
Definition lastDecoded (prev : Z) (deltas : list Z) : Z :=
  foldl Huffman.unDelta prev deltas.

(** The weight [2^(30 - l)] of a code of length [l <= 30], the sum of the
    weights of a list of code lengths (a Kraft sum scaled by [2^30]), and
    the canonical code of an entry of length [l] that follows [pre]. *)
Definition weight (l : Z) : Z := 2 ^ (30 - l).
Definition kraftSum (es : list Huffman.CodeLen) : Z :=
  foldr (fun e s => weight (Huffman.len e) + s) 0 es.
Definition codeOf (pre : list Huffman.CodeLen) (l : Z) : Z := kraftSum pre / weight l.

(** The [n] low bits of [c], most significant first. *)
Fixpoint bitsN (c : Z) (n : nat) : list bool :=
  match n with
  | O => []
  | S k => Z.testbit c (Z.of_nat k) :: bitsN c k
  end.
Definition bitsOf (c l : Z) : list bool := bitsN c (Z.to_nat l).
Definition byteBits (b : Z) : list bool := bitsN b 8.

(** The bits the encoder writes for a symbol, given its two arrays. *)
Definition symBits (codes lens : list Z) (sym : Z) : list bool :=
  bitsOf (aget codes (Z.to_nat sym)) (aget lens (Z.to_nat sym)).

Definition lenLe (a b : Huffman.CodeLen) : Prop := Huffman.len a <= Huffman.len b.

(** A code table as the encoder builds it: sorted by length, lengths between
    1 and 30 (the codes fit the 32-bit operators), byte symbols without
    repetition, Kraft sum at most 1. *)
Definition goodTable (es : list Huffman.CodeLen) : Prop :=
  StronglySorted lenLe es
  /\ Forall (fun e => 1 <= Huffman.len e <= 30) es
  /\ Forall (fun e => isByte (Huffman.symbol e)) es
  /\ NoDup (map Huffman.symbol es)
  /\ kraftSum es <= 2 ^ 30.

(** The packer has written the bits [bs] after the header [hdr]: whole
    bytes in [p_out], the rest in the accumulator. *)
Definition packed (hdr : list Z) (cap0 : nat) (bs : list bool)
           (st : Huffman.PackState) : Prop :=
  exists body,
    Huffman.p_out st = hdr ++ body
    /\ Forall isByte body
    /\ bs = flat_map byteBits body ++ bitsOf (Huffman.p_acc st) (Huffman.p_pending st)
    /\ 0 <= Huffman.p_pending st < 8
    /\ 0 <= Huffman.p_acc st < 2 ^ Huffman.p_pending st
    /\ (cap0 <= Huffman.p_cap st)%nat.

(** A header entry that was read in full. *)
Definition toEntry (e : Huffman.CodeLen) : Huffman.Entry :=
  {| Huffman.e_symbol := Some (Huffman.symbol e); Huffman.e_len := Some (Huffman.len e) |}.

(** The number of entries of length [l]. *)
Fixpoint lenCount (l : Z) (es : list Huffman.CodeLen) : Z :=
  match es with
  | [] => 0
  | e :: rest => (if Huffman.len e =? l then 1 else 0) + lenCount l rest
  end.

(** The decoder tables describe the entries of length [l]: they form the
    block [grp] of the sorted table, after [pre]. *)
Definition groupAt (es : list Huffman.CodeLen) (l : Z) (t : Huffman.Tables) : Prop :=
  exists pre grp rest,
    es = pre ++ grp ++ rest
    /\ Forall (fun e => Huffman.len e < l) pre
    /\ Forall (fun e => Huffman.len e = l) grp
    /\ grp <> []
    /\ Forall (fun e => l < Huffman.len e) rest
    /\ aget (Huffman.minCode t) (Z.to_nat l) = codeOf pre l
    /\ aget (Huffman.maxCode t) (Z.to_nat l) = codeOf pre l + Z.of_nat (length grp) - 1
    /\ aget (Huffman.valPtr t) (Z.to_nat l) = Z.of_nat (length pre).

(** The tables are those of the code table [es], as far as the entries
    [done] go. *)
Definition tablesUpTo (es done : list Huffman.CodeLen) (t : Huffman.Tables) : Prop :=
  length (Huffman.minCode t) = 32%nat
  /\ length (Huffman.maxCode t) = 32%nat
  /\ length (Huffman.valPtr t) = 32%nat
  /\ (forall l, 0 <= l < 32 -> aget (Huffman.maxCode t) (Z.to_nat l) = -1 \/ groupAt es l t)
  /\ (forall e, e ∈ done -> groupAt es (Huffman.len e) t).

(** The bits the reader has not consumed yet: those buffered in the
    accumulator, then those of the bytes from [r_p] on. *)
Definition stream (data : list Z) (st : Huffman.ReadState) : list bool :=
  bitsOf (Huffman.r_acc st) (Huffman.r_bits st)
  ++ flat_map byteBits (drop (Huffman.r_p st) data).

(** The symbol [s] has an entry in the table [es], and [bitsFor s] are the
    bits of its canonical code. *)
Definition hasCode (es : list Huffman.CodeLen) (bitsFor : Z -> list bool) (s : Z) : Prop :=
  exists pre e rest,
    es = pre ++ e :: rest /\ Huffman.symbol e = s
    /\ bitsFor s = bitsOf (codeOf pre (Huffman.len e)) (Huffman.len e).

(** The symbols at the leaves of a tree, left to right. *)
Fixpoint leafSyms (n : Huffman.Node) : list Z :=
  match n with
  | Huffman.Leaf _ s => [s]
  | Huffman.Inner _ l r => leafSyms l ++ leafSyms r
  end.

Definition isLeaf (n : Huffman.Node) : Prop :=
  match n with Huffman.Leaf _ _ => True | Huffman.Inner _ _ _ => False end.

(** ** Reference functions for the further properties *)

(** What the delta stage keeps of a sequence: the encoder clamps each step
    (taken from the previous input value [prev]) to [-128, 127], the
    decoder adds the clamped step to its own previous output [out] and
    clamps the sum to [0, 255]. *)
Fixpoint clampedWalk (prev out : Z) (data : list Z) : list Z :=
  match data with
  | [] => []
  | v :: rest =>
      let step := Z.max (-128) (Z.min 127 (v - prev)) in
      let o := Z.max 0 (Z.min 255 (out + step)) in
      o :: clampedWalk v o rest
  end.

(** ** Reference functions for the size of the Huffman body *)

(** The sum of [g] over a list. *)
Definition sumBy {A : Type} (g : A -> Z) (l : list A) : Z :=
  foldr (fun x acc => g x + acc) 0 l.

(** The frequencies of the inner nodes of a tree, added up. *)
Fixpoint innerSum (n : Huffman.Node) : Z :=
  match n with
  | Huffman.Leaf _ _ => 0
  | Huffman.Inner f l r => f + innerSum l + innerSum r
  end.

(** Every inner node carries the sum of the frequencies of its children,
    as the parents made by [buildTree] do. *)
Fixpoint summed (n : Huffman.Node) : Prop :=
  match n with
  | Huffman.Leaf _ _ => True
  | Huffman.Inner f l r =>
      f = Huffman.freq l + Huffman.freq r /\ summed l /\ summed r
  end.

(** The (symbol, frequency) pairs at the leaves of a tree, left to right. *)
Fixpoint leafFreqs (n : Huffman.Node) : list (Z * Z) :=
  match n with
  | Huffman.Leaf f s => [(s, f)]
  | Huffman.Inner _ l r => leafFreqs l ++ leafFreqs r
  end.

(** The length a code table records for a symbol (0 when it has none). *)
Fixpoint lenOf (es : list Huffman.CodeLen) (s : Z) : Z :=
  match es with
  | [] => 0
  | e :: rest => if Huffman.symbol e =? s then Huffman.len e else lenOf rest s
  end.

(** The number of bits a table spends on symbols with the given counts. *)
Definition cost (es : list Huffman.CodeLen) (freqs : list (Z * Z)) : Z :=
  sumBy (fun p => p.2 * lenOf es p.1) freqs.

(** The sum of [2 T / j] for [j] from 2 to [m]: a bound on the weights
    of the parents made while a queue of [m] nodes of total frequency [T]
    is merged. *)
Fixpoint mergeBound (T : Z) (m : nat) : Z :=
  match m with
  | O => 0
  | S k => (if (k =? 0)%nat then 0 else 2 * T / Z.of_nat (S k)) + mergeBound T k
  end.

(** ** Reference functions for the encoder's output *)

(** The number a list of bits spells, most significant bit first. *)
Definition bitsValue (bs : list bool) : Z :=
  foldl (fun acc (b : bool) => 2 * acc + (if b then 1 else 0)) 0 bs.

(** The bits cut into bytes, the last byte filled up with zero bits. *)
Fixpoint packBits (fuel : nat) (bs : list bool) : list Z :=
  match fuel, bs with
  | S fuel', _ :: _ =>
      let chunk := take 8 bs in
      bitsValue chunk * 2 ^ Z.of_nat (8 - length chunk) :: packBits fuel' (drop 8 bs)
  | _, _ => []
  end.

(** The two arrays the encoder fills for a code table. *)
Definition arraysOf (es : list Huffman.CodeLen) : list Z * list Z :=
  Huffman.assignCodes true 0 (match es with e :: _ => Huffman.len e | [] => 0 end)
                      es (replicate 256 (-1)) (zeros 256).

(** The code bits of a run-length stream, under its own table. *)
Definition bitsFor (rle : list Z) : list bool :=
  let arrays := arraysOf (Huffman.sortedCodeLens rle) in
  flat_map (symBits arrays.1 arrays.2) rle.

(** Header and packed code bits of a sequence. *)
Definition packedForm (seq : list Z) : list Z :=
  let rle := Huffman.rleEncode (Huffman.deltaEncode seq) in
  let bits := bitsFor rle in
  Huffman.headerBytes (Huffman.sortedCodeLens rle) ++ packBits (length bits) bits.

(** Decidable forms of the conditions on a sequence. *)
Fixpoint stepsInRangeb (prev : Z) (data : list Z) : bool :=
  match data with
  | [] => true
  | v :: rest => (-128 <=? v - prev) && (v - prev <=? 127) && stepsInRangeb v rest
  end.

Definition isByteb (v : Z) : bool := (0 <=? v) && (v <=? 255).

(** ** Sequences at the limits of the decoder *)

(** [n] copies of the pair [a, b], then [tail]. *)
Fixpoint repeatPair (n : nat) (a b : Z) (tail : list Z) : list Z :=
  match n with
  | O => tail
  | S k => a :: b :: repeatPair k a b tail
  end.

(** 100, then for [j] from 1 to 12 the pair [100 + j, 100] repeated
    [2 * 3^(j-1)] times, then 150: 1062882 bytes. *)
Definition longCodeSeq : list Z :=
  100 ::
    repeatPair (Z.to_nat 2) 101 100
    (repeatPair (Z.to_nat 6) 102 100
    (repeatPair (Z.to_nat 18) 103 100
    (repeatPair (Z.to_nat 54) 104 100
    (repeatPair (Z.to_nat 162) 105 100
    (repeatPair (Z.to_nat 486) 106 100
    (repeatPair (Z.to_nat 1458) 107 100
    (repeatPair (Z.to_nat 4374) 108 100
    (repeatPair (Z.to_nat 13122) 109 100
    (repeatPair (Z.to_nat 39366) 110 100
    (repeatPair (Z.to_nat 118098) 111 100
    (repeatPair (Z.to_nat 354294) 112 100
    ([150])))))))))))).

(** The delta bytes of [longCodeSeq]: 26 symbols with the counts
    1, 2, 2, 6, 6, ..., 354294, 354294, 1. *)
Definition longCodeDeltas : list Z :=
  228 ::
    repeatPair (Z.to_nat 2) 129 127
    (repeatPair (Z.to_nat 6) 130 126
    (repeatPair (Z.to_nat 18) 131 125
    (repeatPair (Z.to_nat 54) 132 124
    (repeatPair (Z.to_nat 162) 133 123
    (repeatPair (Z.to_nat 486) 134 122
    (repeatPair (Z.to_nat 1458) 135 121
    (repeatPair (Z.to_nat 4374) 136 120
    (repeatPair (Z.to_nat 13122) 137 119
    (repeatPair (Z.to_nat 39366) 138 118
    (repeatPair (Z.to_nat 118098) 139 117
    (repeatPair (Z.to_nat 354294) 140 116
    ([178])))))))))))).

(** A stream the run-length stage leaves as it is: no marker byte and no
    two equal neighbours. *)
Fixpoint plain (data : list Z) : Prop :=
  match data with
  | [] => True
  | v :: rest =>
      v <> Huffman.RLE_MARKER
      /\ match rest with d :: _ => d <> v | [] => True end
      /\ plain rest
  end.

(** Up [d] and down [d] for [d] from 1 to 127, then 0, 127, 128, 0: all
    256 delta bytes occur among the 258 steps. *)
Definition allDeltasSeq : list Z :=
  flat_map (fun d => [d; 0]) (seqZ 1 127) ++ [0; 127; 128; 0].
(* ================================================================== *)
(** * Part II: properties                                              *)
(* ================================================================== *)

(** ** Container *)

Lemma getUint8_ok (buffer : list Z) (i : nat) :
  (i < length buffer)%nat -> exists b, Container.getUint8 buffer i = Ok b /\ buffer !! i = Some b.
Proof.
  intros Hi. unfold Container.getUint8.
  destruct (lookup_lt_is_Some_2 buffer i Hi) as [b Hb].
  rewrite Hb. eauto.
Qed.

Lemma getUint8_throw (buffer : list Z) (i : nat) :
  (length buffer <= i)%nat -> Container.getUint8 buffer i = Throw RangeError.
Proof.
  intros Hi. unfold Container.getUint8.
  rewrite (lookup_ge_None_2 buffer i Hi). reflexivity.
Qed.

Lemma getUint32_ok (buffer : list Z) (i : nat) :
  (i + 4 <= length buffer)%nat -> exists v, Container.getUint32 buffer i = Ok v.
Proof.
  intros Hi. unfold Container.getUint32.
  destruct (getUint8_ok buffer i) as (b0 & -> & _); [lia|].
  destruct (getUint8_ok buffer (i + 1)) as (b1 & -> & _); [lia|].
  destruct (getUint8_ok buffer (i + 2)) as (b2 & -> & _); [lia|].
  destruct (getUint8_ok buffer (i + 3)) as (b3 & -> & _); [lia|].
  simpl. eauto.
Qed.

Lemma getUint32_throw (buffer : list Z) (i : nat) :
  (length buffer < i + 4)%nat -> Container.getUint32 buffer i = Throw RangeError.
Proof.
  intros Hi. unfold Container.getUint32, Container.getUint8.
  destruct (buffer !! i) eqn:E0; [|reflexivity]. simpl.
  destruct (buffer !! (i + 1)%nat) eqn:E1; [|reflexivity]. simpl.
  destruct (buffer !! (i + 2)%nat) eqn:E2; [|reflexivity]. simpl.
  destruct (buffer !! (i + 3)%nat) eqn:E3; [|reflexivity].
  apply lookup_lt_Some in E3. lia.
Qed.

(** C3 (as stated, refuted): a 32-byte buffer whose header records a QOI
    section of 5 bytes (recorded total 37) is parsed without any error. *)
Lemma C3_wrong_lengths_accepted :
  recordedSize (headerOnly 1 5 0 0 0) = Ok 37
  /\ length (headerOnly 1 5 0 0 0) = 32%nat
  /\ is_ok (Container.parseContainer (headerOnly 1 5 0 0 0)) = true.
Proof. vm_compute. auto. Qed.

Lemma getUint32_value (buffer : list Z) (i : nat) (v : Z) :
  Container.getUint32 buffer i = Ok v -> v = be32 buffer i.
Proof.
  unfold Container.getUint32, Container.getUint8, be32, aget.
  destruct (buffer !! i) as [b0|]; simpl; [|discriminate].
  destruct (buffer !! (i + 1)%nat) as [b1|]; simpl; [|discriminate].
  destruct (buffer !! (i + 2)%nat) as [b2|]; simpl; [|discriminate].
  destruct (buffer !! (i + 3)%nat) as [b3|]; simpl; [|discriminate].
  intros [= <-]. reflexivity.
Qed.

Lemma length_slice (a : list Z) (from len : nat) :
  length (slice a from len) = Nat.min len (length a - from).
Proof. unfold slice. rewrite length_take, length_drop. reflexivity. Qed.

(** C3 (amended): [parseContainer] succeeds exactly when the buffer holds
    the 32 header bytes, starts with the magic [KMR1] and has version 1;
    the recorded section lengths play no part in the decision.  When it
    succeeds, each section is the slice of the buffer that starts where the
    previous one was recorded to end and has the recorded length, clipped
    to the end of the buffer. *)
Theorem C3_parseContainer_succeeds_iff (buffer : list Z) :
  (is_ok (Container.parseContainer buffer) = true
   <-> ((32 <= length buffer)%nat
        /\ take 4 buffer = Container.CONTAINER_MAGIC
        /\ buffer !! 4%nat = Some 1))
  /\ forall p, Container.parseContainer buffer = Ok p ->
       let qoiLen := Z.to_nat (be32 buffer 16) in
       let yLen := Z.to_nat (be32 buffer 20) in
       let cbLen := Z.to_nat (be32 buffer 24) in
       let crLen := Z.to_nat (be32 buffer 28) in
       Container.qoi p = slice buffer 32 qoiLen
       /\ Container.huffmanY p = slice buffer (32 + qoiLen) yLen
       /\ Container.huffmanCb p = slice buffer (32 + qoiLen + yLen) cbLen
       /\ Container.huffmanCr p = slice buffer (32 + qoiLen + yLen + cbLen) crLen
       /\ length (Container.qoi p) = Nat.min qoiLen (length buffer - 32)
       /\ length (Container.huffmanY p)
          = Nat.min yLen (length buffer - (32 + qoiLen))
       /\ length (Container.huffmanCb p)
          = Nat.min cbLen (length buffer - (32 + qoiLen + yLen))
       /\ length (Container.huffmanCr p)
          = Nat.min crLen (length buffer - (32 + qoiLen + yLen + cbLen))
       /\ Container.totalSize p = length buffer.
Proof.
  split.
  - unfold Container.parseContainer.
    destruct (decide (32 <= length buffer)%nat) as [Hlen|Hlen].
    + destruct (getUint8_ok buffer 0) as (m0 & -> & H0); [lia|].
      destruct (getUint8_ok buffer 1) as (m1 & -> & H1); [lia|].
      destruct (getUint8_ok buffer 2) as (m2 & -> & H2); [lia|].
      destruct (getUint8_ok buffer 3) as (m3 & -> & H3); [lia|].
      destruct (getUint8_ok buffer 4) as (v & -> & H4); [lia|].
      destruct (getUint8_ok buffer 5) as (b5 & -> & _); [lia|].
      destruct (getUint8_ok buffer 6) as (b6 & -> & _); [lia|].
      destruct (getUint8_ok buffer 7) as (b7 & -> & _); [lia|].
      destruct (getUint32_ok buffer 8) as (w & ->); [lia|].
      destruct (getUint32_ok buffer 12) as (h & ->); [lia|].
      destruct (getUint32_ok buffer 16) as (l1 & ->); [lia|].
      destruct (getUint32_ok buffer 20) as (l2 & ->); [lia|].
      destruct (getUint32_ok buffer 24) as (l3 & ->); [lia|].
      destruct (getUint32_ok buffer 28) as (l4 & ->); [lia|].
      assert (Htake : take 4 buffer = [m0; m1; m2; m3]).
      { destruct buffer as [|a0 [|a1 [|a2 [|a3 rest]]]]; simpl in Hlen; try lia.
        cbn in H0, H1, H2, H3. simplify_eq. reflexivity. }
      rewrite Htake, H4. simpl.
      destruct (bool_decide_reflect ([m0; m1; m2; m3] = Container.CONTAINER_MAGIC)) as [Hm|Hm];
        simpl.
      * destruct (Z.eqb_spec v 1) as [->|Hv]; simpl.
        -- split; auto.
        -- split; [discriminate|]. intros (_ & _ & Hv'). congruence.
      * split; [discriminate|]. intros (_ & Hm' & _). contradiction.
    + split; [|intros (? & _); lia].
      intros Hok. exfalso. revert Hok.
      destruct (Container.getUint8 buffer 0) as [m0|]; simpl; [|discriminate].
      destruct (Container.getUint8 buffer 1) as [m1|]; simpl; [|discriminate].
      destruct (Container.getUint8 buffer 2) as [m2|]; simpl; [|discriminate].
      destruct (Container.getUint8 buffer 3) as [m3|]; simpl; [|discriminate].
      destruct (negb _); [discriminate|].
      destruct (Container.getUint8 buffer 4) as [v|]; simpl; [|discriminate].
      destruct (negb _); [discriminate|].
      destruct (Container.getUint8 buffer 5) as [b5|]; simpl; [|discriminate].
      destruct (Container.getUint8 buffer 6) as [b6|]; simpl; [|discriminate].
      destruct (Container.getUint8 buffer 7) as [b7|]; simpl; [|discriminate].
      destruct (Container.getUint32 buffer 8) as [w|]; simpl; [|discriminate].
      destruct (Container.getUint32 buffer 12) as [h|]; simpl; [|discriminate].
      destruct (Container.getUint32 buffer 16) as [l1|]; simpl; [|discriminate].
      destruct (Container.getUint32 buffer 20) as [l2|]; simpl; [|discriminate].
      destruct (Container.getUint32 buffer 24) as [l3|]; simpl; [|discriminate].
      rewrite getUint32_throw by lia. discriminate.
  - intros p. unfold Container.parseContainer.
    destruct (Container.getUint8 buffer 0) as [m0|]; simpl; [|discriminate].
    destruct (Container.getUint8 buffer 1) as [m1|]; simpl; [|discriminate].
    destruct (Container.getUint8 buffer 2) as [m2|]; simpl; [|discriminate].
    destruct (Container.getUint8 buffer 3) as [m3|]; simpl; [|discriminate].
    destruct (negb _); [discriminate|].
    destruct (Container.getUint8 buffer 4) as [v|]; simpl; [|discriminate].
    destruct (negb _); [discriminate|].
    destruct (Container.getUint8 buffer 5) as [b5|]; simpl; [|discriminate].
    destruct (Container.getUint8 buffer 6) as [b6|]; simpl; [|discriminate].
    destruct (Container.getUint8 buffer 7) as [b7|]; simpl; [|discriminate].
    destruct (Container.getUint32 buffer 8) as [w|]; simpl; [|discriminate].
    destruct (Container.getUint32 buffer 12) as [h|]; simpl; [|discriminate].
    destruct (Container.getUint32 buffer 16) as [l1|] eqn:E1; simpl; [|discriminate].
    destruct (Container.getUint32 buffer 20) as [l2|] eqn:E2; simpl; [|discriminate].
    destruct (Container.getUint32 buffer 24) as [l3|] eqn:E3; simpl; [|discriminate].
    destruct (Container.getUint32 buffer 28) as [l4|] eqn:E4; simpl; [|discriminate].
    apply getUint32_value in E1, E2, E3, E4. subst l1 l2 l3 l4.
    intros [= <-].
    cbn [Container.qoi Container.huffmanY Container.huffmanCb Container.huffmanCr
         Container.totalSize].
    rewrite !length_slice. repeat split; reflexivity.
Qed.

(** C5 (as stated, refuted): a smooth byte of 2 is non-zero, yet the parsed
    container has [smooth = false]. *)
Lemma C5_smooth_byte_two_reads_off :
  headerOnly 2 0 0 0 0 !! 7%nat = Some 2
  /\ exists p, Container.parseContainer (headerOnly 2 0 0 0 0) = Ok p
               /\ Container.smooth p = false.
Proof. split; [reflexivity|]. eexists. split; [vm_compute; reflexivity|reflexivity]. Qed.

(** C5 (amended): the parsed [smooth] flag is on exactly when the byte at
    offset 7 equals 1; 0 and every value from 2 to 255 are read as off. *)
Theorem C5_smooth_on_iff_byte_is_one (buffer : list Z) (p : Container.ParsedContainer) :
  Container.parseContainer buffer = Ok p ->
  (Container.smooth p = true <-> buffer !! 7%nat = Some 1).
Proof.
  unfold Container.parseContainer.
  destruct (Container.getUint8 buffer 0) as [m0|]; simpl; [|discriminate].
  destruct (Container.getUint8 buffer 1) as [m1|]; simpl; [|discriminate].
  destruct (Container.getUint8 buffer 2) as [m2|]; simpl; [|discriminate].
  destruct (Container.getUint8 buffer 3) as [m3|]; simpl; [|discriminate].
  destruct (negb _); [discriminate|].
  destruct (Container.getUint8 buffer 4) as [v|]; simpl; [|discriminate].
  destruct (negb _); [discriminate|].
  destruct (Container.getUint8 buffer 5) as [b5|]; simpl; [|discriminate].
  destruct (Container.getUint8 buffer 6) as [b6|]; simpl; [|discriminate].
  unfold Container.getUint8 at 1.
  destruct (buffer !! 7%nat) as [b7|] eqn:E7; simpl; [|discriminate].
  destruct (Container.getUint32 buffer 8) as [w|]; simpl; [|discriminate].
  destruct (Container.getUint32 buffer 12) as [h|]; simpl; [|discriminate].
  destruct (Container.getUint32 buffer 16) as [l1|]; simpl; [|discriminate].
  destruct (Container.getUint32 buffer 20) as [l2|]; simpl; [|discriminate].
  destruct (Container.getUint32 buffer 24) as [l3|]; simpl; [|discriminate].
  destruct (Container.getUint32 buffer 28) as [l4|]; simpl; [|discriminate].
  intros [= <-]. simpl.
  destruct (Z.eqb_spec b7 1) as [->|Hne]; split; auto; try discriminate.
  intros [= ->]. contradiction.
Qed.

Lemma C5_smooth_on_iff_byte_is_one_witness :
  exists p, Container.parseContainer (headerOnly 1 0 0 0 0) = Ok p
            /\ (Container.smooth p = true <-> headerOnly 1 0 0 0 0 !! 7%nat = Some 1).
Proof.
  eexists. split.
  - vm_compute. reflexivity.
  - apply (C5_smooth_on_iff_byte_is_one (headerOnly 1 0 0 0 0)).
    vm_compute. reflexivity.
Defined.

(** ** Huffman: concrete scenarios *)

(** C9 (as stated, refuted): the post-delta bytes of [42,42,42,42,42] are
    not 170,0,0,0,0 -- the +128 bias applies to the zero differences too. *)
Lemma C9_delta_is_not_170_0_0_0_0 :
  ~ (Huffman.deltaEncode [42; 42; 42; 42; 42] = [170; 0; 0; 0; 0]
     /\ Huffman.rleEncode (Huffman.deltaEncode [42; 42; 42; 42; 42]) = [170; 255; 4; 0]
     /\ Huffman.decodeHuffman (Huffman.encodeHuffman [42; 42; 42; 42; 42]) 5
        = Ok [42; 42; 42; 42; 42]).
Proof. intros (H & _). vm_compute in H. discriminate. Qed.

(** C9 (amended): for [42,42,42,42,42] the post-delta bytes are
    170,128,128,128,128, their run-length encoding is [170, 0xFF, 4, 128],
    and decoding the full encoding with expected length 5 gives the input. *)
Theorem C9_degenerate_scenario :
  Huffman.deltaEncode [42; 42; 42; 42; 42] = [170; 128; 128; 128; 128]
  /\ Huffman.rleEncode (Huffman.deltaEncode [42; 42; 42; 42; 42]) = [170; 255; 4; 128]
  /\ Huffman.decodeHuffman (Huffman.encodeHuffman [42; 42; 42; 42; 42]) 5
     = Ok [42; 42; 42; 42; 42].
Proof. vm_compute. auto. Qed.

(** C8 (the decoder at three malformed inputs): a header cut short, a
    bitstream that ends before the expected length, and a bit pattern that
    matches no code are all answered with a zero-filled array; no error is
    raised. *)
Theorem C8_malformed_streams_decode_to_zeros :
  Huffman.decodeHuffman [5] 3 = Ok [0; 0; 0]
  /\ Huffman.decodeHuffman [1; 65; 1] 3 = Ok [0; 0; 0]
  /\ Huffman.decodeHuffman [1; 65; 1; 255] 3 = Ok [0; 0; 0].
Proof. vm_compute. auto. Qed.

(** C10 (the decoder at an entry count of zero): [codeLens[0].len] is read
    from an empty table and the call throws a [TypeError]. *)
Theorem C10_zero_count_throws :
  Huffman.decodeHuffman [0] 1 = Throw TypeError.
Proof. vm_compute. reflexivity. Qed.

(** ** QOI and the pipeline: concrete scenarios *)

(** C6 (the codec at the 2x2 solid red image): the stream ends with a run
    chunk for three pixels; the decoder leaves the loop once the chunk has
    been read, so the last two pixels stay zero. *)
Theorem C6_solid_red_loses_trailing_run :
  QOI.decodeQOI (QOI.encodeQOI solidRed)
  = Ok {| width := 2; height := 2;
          data := px 255 0 0 255 ++ px 255 0 0 255 ++ px 0 0 0 0 ++ px 0 0 0 0 |}.
Proof. vm_compute. reflexivity. Qed.

(** C1 (the pipeline at scenario S1, block size 2, no discarded bits,
    smoothing on): the decoded raster differs from the input in the alpha
    byte of the last pixel. *)
Theorem C1_solid_red_not_lossless :
  exists d, Pipeline.decodeContainerToImage (Pipeline.encode solidRed 2 0 true) = Ok d
            /\ data (Pipeline.imageData d)
               = px 255 0 0 255 ++ px 255 0 0 255 ++ px 255 0 0 255 ++ px 255 0 0 0
            /\ data (Pipeline.imageData d) <> data solidRed.
Proof.
  eexists. split; [vm_compute; reflexivity|]. split; [reflexivity|].
  vm_compute. discriminate.
Qed.

(** C4 (as stated, refuted): with one discarded bit the residual of a
    translucent image is opaque at pixel 0, where the source alpha is 0. *)
Lemma C4_alpha_replaced_when_discarding :
  alphaAt translucent 0 = 0
  /\ alphaAt (Pipeline.residualOf translucent 2 1 false) 0 = 255.
Proof. vm_compute. auto. Qed.

(** ** Typed arrays and loops: general facts *)

Lemma length_aset (a : list Z) (i : nat) (v : Z) : length (aset a i v) = length a.
Proof. apply length_insert. Qed.

Lemma aget_aset_eq (a : list Z) (i : nat) (v : Z) :
  (i < length a)%nat -> aget (aset a i v) i = v.
Proof.
  intros Hi. unfold aget, aset. rewrite list_lookup_insert_eq by exact Hi. reflexivity.
Qed.

Lemma aget_aset_ne (a : list Z) (i j : nat) (v : Z) :
  i <> j -> aget (aset a i v) j = aget a j.
Proof.
  intros Hij. unfold aget, aset. rewrite list_lookup_insert_ne by exact Hij. reflexivity.
Qed.

Lemma aget_ext (a b : list Z) :
  length a = length b ->
  (forall j, (j < length a)%nat -> aget a j = aget b j) ->
  a = b.
Proof.
  intros Hlen Hget. apply list_eq. intros j.
  destruct (decide (j < length a)%nat) as [Hj|Hj].
  - specialize (Hget j Hj). unfold aget in Hget.
    destruct (lookup_lt_is_Some_2 a j Hj) as [x Hx].
    destruct (lookup_lt_is_Some_2 b j ltac:(lia)) as [y Hy].
    rewrite Hx, Hy in *. simpl in Hget. congruence.
  - rewrite !lookup_ge_None_2 by lia. reflexivity.
Qed.


Lemma aget_byte (a : list Z) (i : nat) : Forall isByte a -> isByte (aget a i).
Proof.
  intros Ha. unfold aget. destruct (a !! i) as [v|] eqn:E; simpl.
  - eapply Forall_lookup_1; eauto.
  - unfold isByte. lia.
Qed.

Lemma land_255 (v : Z) : Z.land v 255 = v mod 256.
Proof. change 255 with (Z.ones 8). rewrite Z.land_ones by lia. reflexivity. Qed.

Lemma toUint8Clamp_byte (v : Z) : isByte v -> toUint8Clamp v = v.
Proof. unfold isByte, toUint8Clamp. lia. Qed.

(** Invariants of a counting loop and of the row-major loop nest. *)
Lemma foldl_seq_invariant {S : Type} (P : nat -> S -> Prop) (f : S -> nat -> S)
      (n : nat) (s : S) :
  P 0%nat s ->
  (forall i s, (i < n)%nat -> P i s -> P (Datatypes.S i) (f s i)) ->
  P n (foldl f s (seq 0 n)).
Proof.
  intros H0 Hstep. induction n as [|n IH].
  - exact H0.
  - rewrite seq_S, foldl_app. simpl. apply Hstep; [lia|].
    apply IH. intros i s' Hi. apply Hstep. lia.
Qed.

Lemma forXY_invariant {S : Type} (P : nat -> S -> Prop) (w h : nat)
      (body : nat -> nat -> S -> S) (s : S) :
  P 0%nat s ->
  (forall x y s, (x < w)%nat -> (y < h)%nat ->
                 P (y * w + x)%nat s -> P (y * w + x + 1)%nat (body x y s)) ->
  P (h * w)%nat (forXY w h body s).
Proof.
  intros H0 Hstep. unfold forXY.
  apply (foldl_seq_invariant (fun y s => P (y * w)%nat s)); [exact H0|].
  intros y s' Hy Hs'.
  replace (Datatypes.S y * w)%nat with (y * w + w)%nat by lia.
  apply (foldl_seq_invariant (fun x s => P (y * w + x)%nat s)).
  - replace (y * w + 0)%nat with (y * w)%nat by lia. exact Hs'.
  - intros x s'' Hx Hs''.
    replace (y * w + Datatypes.S x)%nat with (y * w + x + 1)%nat by lia.
    apply Hstep; assumption.
Qed.

(** ** Paeth predictor *)


Lemma paeth_byte (a b c : Z) : isByte a -> isByte b -> isByte c -> isByte (Paeth.paeth a b c).
Proof.
  intros Ha Hb Hc. unfold Paeth.paeth.
  destruct (_ && _); [assumption|]. destruct (_ <=? _); assumption.
Qed.

Lemma pred_byte (src : list Z) (w x y c : nat) :
  Forall isByte src -> isByte (Paeth.pred src w x y c).
Proof.
  intros Hsrc. unfold Paeth.pred.
  assert (H0 : isByte 0) by (unfold isByte; lia).
  apply paeth_byte.
  - destruct (0 <? x)%nat; [apply aget_byte|]; assumption.
  - destruct (0 <? y)%nat; [apply aget_byte|]; assumption.
  - destruct (_ && _); [apply aget_byte|]; assumption.
Qed.

(** The prediction for pixel [k = y * w + x] only reads bytes before
    position [4 * k]. *)
Lemma pred_agree (a b : list Z) (w x y c : nat) :
  (x < w)%nat -> (c < 4)%nat ->
  (forall j, (j < 4 * (y * w + x))%nat -> aget a j = aget b j) ->
  Paeth.pred a w x y c = Paeth.pred b w x y c.
Proof.
  intros Hx Hc Hagree. unfold Paeth.pred, Paeth.idx.
  destruct (Nat.ltb_spec 0 x) as [Hx0|Hx0], (Nat.ltb_spec 0 y) as [Hy0|Hy0]; simpl.
  - rewrite !Hagree; [reflexivity|nia..].
  - rewrite !Hagree; [reflexivity|nia..].
  - rewrite !Hagree; [reflexivity|nia..].
  - reflexivity.
Qed.


Lemma residualByte_rgb (data : list Z) (w x y c : nat) :
  (x < w)%nat -> (c < 3)%nat ->
  residualByte data w (Paeth.idx w x y + c)
  = Z.land (aget data (Paeth.idx w x y + c) - Paeth.pred data w x y c + 256) 255.
Proof.
  intros Hx Hc. unfold residualByte, Paeth.idx.
  replace (((y * w + x) * 4 + c) / 4)%nat with (y * w + x)%nat
    by (apply Nat.div_unique with c; lia).
  replace (((y * w + x) * 4 + c) mod 4)%nat with c
    by (apply Nat.mod_unique with (y * w + x)%nat; lia).
  replace ((y * w + x) mod w)%nat with x
    by (apply Nat.mod_unique with y; lia).
  replace ((y * w + x) / w)%nat with y
    by (apply Nat.div_unique with x; lia).
  destruct (Nat.ltb_spec c 3); [reflexivity|lia].
Qed.

Lemma residualByte_red (data : list Z) (w x y : nat) :
  (x < w)%nat ->
  residualByte data w (Paeth.idx w x y)
  = Z.land (aget data (Paeth.idx w x y) - Paeth.pred data w x y 0 + 256) 255.
Proof.
  intros Hx. pose proof (residualByte_rgb data w x y 0 Hx ltac:(lia)) as H.
  rewrite Nat.add_0_r in H. exact H.
Qed.

Lemma residualByte_alpha (data : list Z) (w x y : nat) :
  residualByte data w (Paeth.idx w x y + 3)
  = toUint8Clamp (aget data (Paeth.idx w x y + 3)).
Proof.
  unfold residualByte, Paeth.idx.
  replace (((y * w + x) * 4 + 3) mod 4)%nat with 3%nat
    by (apply Nat.mod_unique with (y * w + x)%nat; lia).
  reflexivity.
Qed.

Lemma land_255_byte (v : Z) : isByte (Z.land v 255).
Proof. rewrite land_255. unfold isByte. pose proof (Z.mod_pos_bound v 256). lia. Qed.

(** Four consecutive stores at [o .. o + 3]. *)
Lemma four_stores (out : list Z) (o : nat) (v0 v1 v2 v3 : Z) (j : nat) :
  (o + 3 < length out)%nat ->
  aget (aset (aset (aset (aset out o v0) (o + 1) v1) (o + 2) v2) (o + 3) v3) j
  = if decide (j = o) then v0
    else if decide (j = o + 1)%nat then v1
    else if decide (j = o + 2)%nat then v2
    else if decide (j = o + 3)%nat then v3
    else aget out j.
Proof.
  intros Ho.
  repeat case_decide; subst;
    repeat first [rewrite aget_aset_eq by (rewrite ?length_aset; lia)
                 |rewrite aget_aset_ne by lia]; reflexivity.
Qed.

Lemma buildResidualImage_bytes (img : ImageData) :
  sizedImage img ->
  let res := data (Paeth.buildResidualImage img) in
  length res = length (data img)
  /\ forall j, (j < length res)%nat ->
               aget res j = residualByte (data img) (Z.to_nat (width img)) j.
Proof.
  unfold sizedImage. intros Hlen. simpl.
  set (w := Z.to_nat (width img)) in *. set (h := Z.to_nat (height img)) in *.
  set (d := data img) in *.
  pose (P := fun (k : nat) (out : list Z) =>
               length out = length d
               /\ forall j, (j < 4 * k)%nat -> aget out j = residualByte d w j).
  assert (HP : P (h * w)%nat (forXY w h (Paeth.residualStep d w) (zeros (length d)))).
  { apply forXY_invariant.
    - split; [apply length_replicate|]. intros j Hj. lia.
    - intros x y out Hx Hy (Hl & Hout).
      assert (Hk : (y * w + x < h * w)%nat) by nia.
      unfold Paeth.residualStep.
      set (o := Paeth.idx w x y).
      assert (Ho : o = (4 * (y * w + x))%nat) by (unfold o, Paeth.idx; lia).
      split; [rewrite !length_aset; exact Hl|].
      intros j Hj. rewrite four_stores by lia.
      repeat case_decide; try subst j.
      + rewrite toUint8Clamp_byte by apply land_255_byte.
        unfold o. rewrite residualByte_red by lia. reflexivity.
      + rewrite toUint8Clamp_byte by apply land_255_byte.
        unfold o. rewrite residualByte_rgb by lia. reflexivity.
      + rewrite toUint8Clamp_byte by apply land_255_byte.
        unfold o. rewrite residualByte_rgb by lia. reflexivity.
      + unfold o. rewrite residualByte_alpha. reflexivity.
      + apply Hout. lia. }
  destruct HP as (Hl & Hout). split; [exact Hl|].
  intros j Hj. apply Hout. lia.
Qed.

(** Adding the prediction back recovers the source byte. *)
Lemma unpredict (r p : Z) :
  isByte r -> isByte p -> Z.land (Z.land (r - p + 256) 255 + p) 255 = r.
Proof.
  unfold isByte. intros Hr Hp. rewrite !land_255.
  rewrite Zplus_mod_idemp_l.
  replace (r - p + 256 + p) with (r + 1 * 256) by lia.
  rewrite Z_mod_plus_full. apply Z.mod_small. lia.
Qed.

(** C7: for every valid RGBA image, the inverse Paeth reconstruction of
    its forward Paeth residual is the image itself. *)
Theorem C7_paeth_inverse_of_forward (img : ImageData) :
  validImage img ->
  Paeth.decodePaethResidual (Paeth.buildResidualImage img) = img.
Proof.
  intros (Hw & Hh & Hlen & Hbytes).
  destruct (buildResidualImage_bytes img Hlen) as (Hrlen & Hres).
  destruct img as [wz hz d]. simpl in *.
  unfold Paeth.decodePaethResidual. simpl. f_equal.
  set (w := Z.to_nat wz) in *. set (h := Z.to_nat hz) in *.
  set (res := forXY w h (Paeth.residualStep d w) (zeros (length d))) in *.
  pose (P := fun (k : nat) (out : list Z) =>
               length out = length d
               /\ forall j, (j < 4 * k)%nat -> aget out j = aget d j).
  assert (HP : P (h * w)%nat (forXY w h (Paeth.decodeStep res w) (zeros (length res)))).
  { apply forXY_invariant.
    - split; [unfold zeros; rewrite length_replicate; exact Hrlen|]. intros j Hj. lia.
    - intros x y out Hx Hy (Hl & Hout).
      assert (Hk : (y * w + x < h * w)%nat) by nia.
      unfold Paeth.decodeStep.
      set (o := Paeth.idx w x y).
      assert (Ho : o = (4 * (y * w + x))%nat) by (unfold o, Paeth.idx; lia).
      split; [rewrite !length_aset; exact Hl|].
      assert (Hpred : forall out' c, (c < 4)%nat ->
                 (forall j, (j < o)%nat -> aget out' j = aget out j) ->
                 Paeth.pred out' w x y c = Paeth.pred d w x y c).
      { intros out' c Hc Hsame. apply pred_agree; [lia..|].
        intros j Hj. rewrite Hsame by lia. apply Hout. lia. }
      intros j Hj. rewrite four_stores by lia.
      repeat case_decide; try subst j.
      + rewrite Hpred; [|lia|auto].
        rewrite Hres by lia.
        unfold o at 1. rewrite residualByte_red by lia. fold o.
        rewrite unpredict by (first [apply aget_byte|apply pred_byte]; exact Hbytes).
        apply toUint8Clamp_byte, aget_byte, Hbytes.
      + rewrite Hpred; [|lia|intros; rewrite aget_aset_ne by lia; reflexivity].
        rewrite Hres by lia. unfold o at 1.
        rewrite residualByte_rgb by lia. fold o.
        rewrite unpredict by (first [apply aget_byte|apply pred_byte]; exact Hbytes).
        apply toUint8Clamp_byte, aget_byte, Hbytes.
      + rewrite Hpred; [|lia|intros; rewrite !aget_aset_ne by lia; reflexivity].
        rewrite Hres by lia. unfold o at 1.
        rewrite residualByte_rgb by lia. fold o.
        rewrite unpredict by (first [apply aget_byte|apply pred_byte]; exact Hbytes).
        apply toUint8Clamp_byte, aget_byte, Hbytes.
      + rewrite Hres by lia. unfold o.
        rewrite residualByte_alpha.
        rewrite (toUint8Clamp_byte (aget d _)) by (apply aget_byte, Hbytes).
        apply toUint8Clamp_byte, aget_byte, Hbytes.
      + apply Hout. lia. }
  destruct HP as (Hl & Hout).
  apply aget_ext; [exact Hl|].
  intros j Hj. apply Hout. lia.
Qed.

Lemma C7_paeth_inverse_of_forward_witness :
  validImage translucent
  /\ Paeth.decodePaethResidual (Paeth.buildResidualImage translucent) = translucent.
Proof.
  assert (Hv : validImage translucent).
  { unfold validImage. simpl. repeat split; try lia.
    repeat constructor; unfold isByte; lia. }
  split; [exact Hv|]. apply (C7_paeth_inverse_of_forward translucent Hv).
Defined.

(** ** The alpha channel of the reconstructed preview *)

Lemma keeps_foldl {A : Type} (n : nat) (g : list Z -> A -> list Z) (l : list A) :
  (forall a, a ∈ l -> keeps n (fun out => g out a)) ->
  keeps n (fun out => foldl g out l).
Proof.
  induction l as [|b l IH]; intros Hg out Hlen; simpl.
  - auto.
  - destruct (Hg b ltac:(left) out Hlen) as (Hlen' & Hop).
    destruct (IH (fun a Ha => Hg a ltac:(right; exact Ha)) (g out b) Hlen') as (Hlen'' & Hop').
    split; [exact Hlen''|]. intros p Hp. apply Hop', Hop, Hp.
Qed.

(** After a loop, the property each round establishes holds for every
    element visited, provided later rounds cannot undo it. *)
Lemma covers_foldl {A : Type} (n : nat) (Q : A -> list Z -> Prop)
      (g : list Z -> A -> list Z) (l : list A) :
  (forall a, a ∈ l -> keeps n (fun out => g out a)) ->
  (forall a f out, keeps n f -> length out = n -> Q a out -> Q a (f out)) ->
  (forall a out, a ∈ l -> length out = n -> Q a (g out a)) ->
  forall out, length out = n -> forall a, a ∈ l -> Q a (foldl g out l).
Proof.
  intros Hkeep Hstable. induction l as [|b l IH]; intros Hest out Hlen a Ha; simpl.
  - inversion Ha.
  - assert (Hkb : keeps n (fun out => g out b)) by (apply Hkeep; left).
    assert (Hkl : keeps n (fun out => foldl g out l)).
    { apply keeps_foldl. intros c Hc. apply Hkeep. right. exact Hc. }
    destruct (Hkb out Hlen) as (Hlen' & _).
    apply elem_of_cons in Ha as [->|Ha].
    + apply (Hstable b (fun out => foldl g out l)); [exact Hkl|exact Hlen'|].
      apply Hest; [left|exact Hlen].
    + apply IH; auto.
      * intros c Hc. apply Hkeep. right. exact Hc.
      * intros c out' Hc. apply Hest. right. exact Hc.
Qed.

(** The four stores of one reconstructed pixel. *)
Lemma writePixel_rgb (out : list Z) (q : nat) (Yv Cbv Crv : spec_float) :
  exists r g b,
    Algorithm.writePixel out (q * 4) (Algorithm.rgbBytes Yv Cbv Crv)
    = aset (aset (aset (aset out (q * 4) r) (q * 4 + 1) g) (q * 4 + 2) b) (q * 4 + 3) 255.
Proof.
  unfold Algorithm.writePixel, Algorithm.rgbBytes. simpl.
  rewrite Nat.add_0_r. eauto.
Qed.

Lemma writePixel_keeps (n q : nat) (Yv Cbv Crv : spec_float) :
  keeps n (fun out => Algorithm.writePixel out (q * 4) (Algorithm.rgbBytes Yv Cbv Crv)).
Proof.
  intros out Hlen.
  destruct (writePixel_rgb out q Yv Cbv Crv) as (r & g & b & ->).
  split; [rewrite !length_aset; exact Hlen|].
  unfold opaqueAt. intros p Hp.
  destruct (decide (p = q)) as [->|Hpq].
  - destruct (decide (q * 4 + 3 < length out)%nat) as [Hin|Hout].
    + replace (4 * q + 3)%nat with (q * 4 + 3)%nat by lia.
      apply aget_aset_eq. rewrite !length_aset. exact Hin.
    + unfold aset at 1. rewrite list_insert_ge by (rewrite !length_aset; lia).
      rewrite !aget_aset_ne by lia. exact Hp.
  - rewrite !aget_aset_ne by lia. exact Hp.
Qed.

Lemma writePixel_opaque (out : list Z) (q : nat) (Yv Cbv Crv : spec_float) :
  (q * 4 + 3 < length out)%nat ->
  opaqueAt q (Algorithm.writePixel out (q * 4) (Algorithm.rgbBytes Yv Cbv Crv)).
Proof.
  intros Hin. destruct (writePixel_rgb out q Yv Cbv Crv) as (r & g & b & ->).
  unfold opaqueAt. replace (4 * q + 3)%nat with (q * 4 + 3)%nat by lia.
  apply aget_aset_eq. rewrite !length_aset. exact Hin.
Qed.

Lemma elem_of_tileXs (w block g x : nat) :
  x ∈ Algorithm.tileXs w block g
  <-> (g * block <= x)%nat /\ (x < w)%nat /\ (x < g * block + block)%nat.
Proof.
  unfold Algorithm.tileXs. rewrite elem_of_seq. lia.
Qed.

(** Every coordinate below [w] lies in the tile numbered [x / block], and
    that tile is one of the grid. *)
Lemma tile_of_coordinate (w block x : nat) :
  (0 < block)%nat -> (x < w)%nat ->
  x ∈ Algorithm.tileXs w block (x / block)
  /\ (x / block)%nat ∈ seq 0 (Z.to_nat (ceil_div (Z.of_nat w) (Z.of_nat block))).
Proof.
  intros Hb Hx. split.
  - apply elem_of_tileXs.
    pose proof (Nat.div_mod_eq x block). pose proof (Nat.mod_upper_bound x block).
    lia.
  - apply elem_of_seq. split; [lia|]. simpl.
    apply Nat2Z.inj_lt. rewrite Z2Nat.id.
    + unfold ceil_div. rewrite Nat2Z.inj_div.
      replace (Z.of_nat w + Z.of_nat block - 1)
        with ((Z.of_nat w - 1) + 1 * Z.of_nat block) by lia.
      rewrite Z_div_plus_full by lia.
      assert (Z.of_nat x / Z.of_nat block <= (Z.of_nat w - 1) / Z.of_nat block)
        by (apply Z.div_le_mono; lia).
      lia.
    + unfold ceil_div. apply Z.div_pos; lia.
Qed.

Lemma flat_reconstruction_opaque (nodalY nodalCb nodalCr : list Z)
      (w h block gridWidth : nat) (p : nat) :
  (0 < block)%nat -> (p < h * w)%nat ->
  let gw := Z.to_nat (ceil_div (Z.of_nat w) (Z.of_nat block)) in
  let gh := Z.to_nat (ceil_div (Z.of_nat h) (Z.of_nat block)) in
  let out := forXY gw gh (Algorithm.flatStep nodalY nodalCb nodalCr w h block gridWidth)
                   (zeros (4 * (h * w))) in
  length out = (4 * (h * w))%nat /\ opaqueAt p out.
Proof.
  intros Hb Hp gw gh. set (n := (4 * (h * w))%nat).
  assert (Hw : (0 < w)%nat) by nia.
  (* the tile (gx, gy) *)
  assert (K2 : forall gx gy,
             keeps n (Algorithm.flatStep nodalY nodalCb nodalCr w h block gridWidth gx gy)).
  { intros gx gy. unfold Algorithm.flatStep.
    apply (keeps_foldl n). intros y _. apply (keeps_foldl n). intros x _.
    apply writePixel_keeps. }
  assert (Hstable : forall (P : nat -> Prop) f out,
             keeps n f -> length out = n ->
             (forall q, P q -> opaqueAt q out) -> (forall q, P q -> opaqueAt q (f out))).
  { intros P f out Hf Hlen HP q Hq. apply (Hf out Hlen), HP, Hq. }
  assert (C2 : forall gx gy out, length out = n ->
             forall y, y ∈ Algorithm.tileXs h block gy ->
             forall x, x ∈ Algorithm.tileXs w block gx ->
             opaqueAt (y * w + x)
               (Algorithm.flatStep nodalY nodalCb nodalCr w h block gridWidth gx gy out)).
  { intros gx gy out Hlen y Hy. unfold Algorithm.flatStep.
    revert y Hy.
    apply (covers_foldl n (fun y out => forall x, x ∈ Algorithm.tileXs w block gx ->
                                                  opaqueAt (y * w + x) out)).
    - intros y _. apply (keeps_foldl n). intros x _. apply writePixel_keeps.
    - intros y f out' Hf Hlen' HQ x Hx. apply (Hf out' Hlen'), HQ, Hx.
    - intros y out' Hy Hlen'.
      apply (covers_foldl n (fun x out => opaqueAt (y * w + x) out)).
      + intros x _. apply writePixel_keeps.
      + intros x f out'' Hf Hlen'' HQ. apply (Hf out'' Hlen''), HQ.
      + intros x out'' Hx Hlen''. apply writePixel_opaque.
        apply elem_of_tileXs in Hx, Hy. unfold n in Hlen''. nia.
      + exact Hlen'.
    - exact Hlen. }
  assert (Hkeep : keeps n (forXY gw gh
                     (Algorithm.flatStep nodalY nodalCb nodalCr w h block gridWidth))).
  { unfold forXY. apply (keeps_foldl n). intros gy _. apply (keeps_foldl n).
    intros gx _. apply K2. }
  assert (Hz : length (zeros n) = n) by apply length_replicate.
  split; [apply (Hkeep _ Hz)|].
  set (x := (p mod w)%nat). set (y := (p / w)%nat).
  assert (Hxy : p = (y * w + x)%nat)
    by (unfold x, y; pose proof (Nat.div_mod_eq p w); lia).
  assert (Hxw : (x < w)%nat) by (apply Nat.mod_upper_bound; lia).
  assert (Hyh : (y < h)%nat) by (unfold y; apply Nat.Div0.div_lt_upper_bound; lia).
  destruct (tile_of_coordinate w block x Hb Hxw) as (Hxt & Hgx).
  destruct (tile_of_coordinate h block y Hb Hyh) as (Hyt & Hgy).
  rewrite Hxy.
  cut (forall gy, gy ∈ seq 0 gh ->
       forall y', y' ∈ Algorithm.tileXs h block gy ->
       forall gx, gx ∈ seq 0 gw ->
       forall x', x' ∈ Algorithm.tileXs w block gx ->
       opaqueAt (y' * w + x')
         (forXY gw gh (Algorithm.flatStep nodalY nodalCb nodalCr w h block gridWidth)
                (zeros n))).
  { intros HALL. apply (HALL (y / block)%nat Hgy y Hyt (x / block)%nat Hgx x Hxt). }
  unfold forXY. generalize (zeros n) Hz.
  clear Hgx Hgy Hxt Hyt Hxy Hxw Hyh Hkeep Hz. clear x y.
  apply (covers_foldl n
           (fun gy out => forall y', y' ∈ Algorithm.tileXs h block gy ->
                          forall gx, gx ∈ seq 0 gw ->
                          forall x', x' ∈ Algorithm.tileXs w block gx ->
                                     opaqueAt (y' * w + x') out)).
  - intros gy _. apply (keeps_foldl n). intros gx _. apply K2.
  - intros gy f out' Hf Hlen' HQ y' Hy' gx Hgx x' Hx'.
    apply (Hf out' Hlen'), (HQ y' Hy' gx Hgx x' Hx').
  - intros gy out' Hgy Hlen' y' Hy' gx Hgx x' Hx'. revert gx Hgx x' Hx'.
    apply (covers_foldl n
             (fun gx out => forall x', x' ∈ Algorithm.tileXs w block gx ->
                                       opaqueAt (y' * w + x') out)).
    + intros gx _. apply K2.
    + intros gx f out'' Hf Hlen'' HQ x' Hx'. apply (Hf out'' Hlen''), HQ, Hx'.
    + intros gx out'' Hgx Hlen'' x' Hx'. apply C2; assumption.
    + exact Hlen'.
Qed.

Lemma smooth_reconstruction_opaque (nodalY nodalCb nodalCr : list Z)
      (w h block gridWidth gridHeight : nat) (p : nat) :
  (p < h * w)%nat ->
  let out := forXY w h (Algorithm.smoothStep nodalY nodalCb nodalCr w h block
                                             gridWidth gridHeight)
                   (zeros (4 * (h * w))) in
  length out = (4 * (h * w))%nat /\ opaqueAt p out.
Proof.
  intros Hp. simpl. set (n := (4 * (h * w))%nat).
  pose (P := fun (k : nat) (out : list Z) =>
               length out = n /\ forall q, (q < k)%nat -> opaqueAt q out).
  assert (HP : P (h * w)%nat
                 (forXY w h (Algorithm.smoothStep nodalY nodalCb nodalCr w h block
                                                  gridWidth gridHeight) (zeros n))).
  { apply forXY_invariant.
    - split; [apply length_replicate|]. intros q Hq. lia.
    - intros x y out Hx Hy (Hlen & Hout). unfold Algorithm.smoothStep.
      split.
      + apply (writePixel_keeps n); exact Hlen.
      + intros q Hq. destruct (decide (q = y * w + x)%nat) as [->|Hne].
        * apply writePixel_opaque. unfold n in Hlen. nia.
        * apply (writePixel_keeps n); [exact Hlen|]. apply Hout. lia. }
  destruct HP as (Hlen & Hout). split; [exact Hlen|]. apply Hout, Hp.
Qed.

Lemma residualByte_alpha_index (data : list Z) (w i : nat) :
  residualByte data w (4 * i + 3) = toUint8Clamp (aget data (4 * i + 3)).
Proof.
  unfold residualByte.
  replace ((4 * i + 3) mod 4)%nat with 3%nat
    by (apply Nat.mod_unique with i; lia).
  reflexivity.
Qed.

(** C4 (amended): the alpha byte of the residual image is the alpha byte of
    the reconstructed preview: the source alpha when no bits are discarded
    ([discardBits <= 0]) and 255 at every pixel otherwise. *)
Theorem C4_residual_alpha (img : ImageData) (blockSize discardBits : Z)
        (smooth : bool) (i : nat) :
  validImage img ->
  (i < Z.to_nat (height img) * Z.to_nat (width img))%nat ->
  alphaAt (Pipeline.residualOf img blockSize discardBits smooth) i
  = if discardBits <=? 0 then alphaAt img i else 255.
Proof.
  intros (Hw & Hh & Hlen & Hbytes) Hi.
  unfold Pipeline.residualOf, alphaAt.
  set (proc := Algorithm.processedImageData
                 (Algorithm.processImageFrame img blockSize discardBits smooth)).
  assert (Hdims : width proc = width img /\ height proc = height img).
  { unfold proc, Algorithm.processImageFrame.
    destruct (forXY _ _ _ _) as [[nY nCb] nCr]. simpl. auto. }
  destruct Hdims as (Hpw & Hph).
  assert (Hproc : length (data proc) = (4 * (Z.to_nat (height img) * Z.to_nat (width img)))%nat
                  /\ aget (data proc) (4 * i + 3)
                     = if discardBits <=? 0 then aget (data img) (4 * i + 3) else 255).
  { unfold proc, Algorithm.processImageFrame.
    destruct (forXY _ _ _ _) as [[nY nCb] nCr]. simpl data.
    rewrite Hlen.
    destruct (Z.leb_spec discardBits 0) as [Hd|Hd].
    - replace (Z.min 6 (Z.max 0 discardBits)) with 0 by lia. simpl. auto.
    - destruct (Z.eqb_spec (Z.min 6 (Z.max 0 discardBits)) 0) as [Hz|_]; [lia|].
      destruct smooth; simpl negb; cbv iota.
      + apply smooth_reconstruction_opaque. exact Hi.
      + apply flat_reconstruction_opaque; [lia|exact Hi]. }
  destruct Hproc as (Hplen & Halpha).
  assert (Hsized : sizedImage proc).
  { unfold sizedImage. rewrite Hpw, Hph. exact Hplen. }
  destruct (buildResidualImage_bytes proc Hsized) as (Hrlen & Hres).
  rewrite Hres by lia. rewrite residualByte_alpha_index, Halpha.
  destruct (discardBits <=? 0).
  - apply toUint8Clamp_byte, aget_byte, Hbytes.
  - reflexivity.
Qed.

Lemma C4_residual_alpha_witness :
  validImage translucent
  /\ (1 < Z.to_nat (height translucent) * Z.to_nat (width translucent))%nat
  /\ alphaAt (Pipeline.residualOf translucent 2 1 false) 1 = 255.
Proof.
  assert (Hv : validImage translucent).
  { unfold validImage. simpl. repeat split; try lia.
    repeat constructor; unfold isByte; lia. }
  assert (Hi : (1 < Z.to_nat (height translucent) * Z.to_nat (width translucent))%nat).
  { simpl. lia. }
  split; [exact Hv|]. split; [exact Hi|].
  apply (C4_residual_alpha translucent 2 1 false 1 Hv Hi).
Defined.

(** ** Huffman front end: run-length and delta decoding *)

Lemma unDelta_byte (prev v : Z) : isByte (Huffman.unDelta prev v).
Proof.
  unfold Huffman.unDelta, isByte. cbv zeta.
  repeat match goal with
         | |- context [?a <? ?b] => destruct (Z.ltb_spec a b)
         end; lia.
Qed.

Lemma toUint8_byte (v : Z) : isByte v -> toUint8 v = v.
Proof. unfold isByte, toUint8. intros. apply Z.mod_small. lia. Qed.

Lemma decodeDeltas_app (prev : Z) (a b : list Z) :
  decodeDeltas prev (a ++ b) = decodeDeltas prev a ++ decodeDeltas (lastDecoded prev a) b.
Proof.
  revert prev. induction a as [|d a IH]; intros prev; simpl; [reflexivity|].
  rewrite IH. reflexivity.
Qed.

Lemma length_decodeDeltas (prev : Z) (ds : list Z) :
  length (decodeDeltas prev ds) = length ds.
Proof. revert prev. induction ds; intros; simpl; auto. Qed.

Lemma deltaFrom_byte (prev : Z) (data : list Z) : Forall isByte (Huffman.deltaFrom prev data).
Proof.
  revert prev. induction data as [|v rest IH]; intros prev; simpl; constructor.
  - apply land_255_byte.
  - apply IH.
Qed.

Lemma length_deltaFrom (prev : Z) (data : list Z) :
  length (Huffman.deltaFrom prev data) = length data.
Proof. revert prev. induction data; intros; simpl; auto. Qed.

(** Without clamping, decoding the deltas gives the sequence back. *)
Lemma decodeDeltas_deltaFrom (prev : Z) (data : list Z) :
  Forall isByte data -> stepsInRange prev data ->
  decodeDeltas prev (Huffman.deltaFrom prev data) = data.
Proof.
  revert prev. induction data as [|v rest IH]; intros prev Hb Hs; simpl; [reflexivity|].
  inversion Hb as [|? ? Hv Hrest]; subst. destruct Hs as (Hstep & Hs).
  assert (Hd : Huffman.unDelta prev
                 (Z.land (Z.max (-128) (Z.min 127 (v - prev)) + 128) 255) = v).
  { rewrite land_255. unfold isByte in Hv.
    replace (Z.max (-128) (Z.min 127 (v - prev))) with (v - prev) by lia.
    rewrite Z.mod_small by lia. unfold Huffman.unDelta.
    replace (prev + (v - prev + 128 - 128)) with v by lia.
    destruct (Z.ltb_spec v 0); [lia|]. destruct (Z.ltb_spec 255 v); [lia|]. reflexivity. }
  rewrite Hd. f_equal. apply IH; assumption.
Qed.

(** The run found by the inner loop of [rleEncode]. *)
Lemma runLength_spec (value : Z) (rest : list Z) (run : Z) :
  1 <= run ->
  let r := Huffman.runLength value rest run in
  run <= r /\ r <= Z.max run 255
  /\ (Z.to_nat (r - run) <= length rest)%nat
  /\ take (Z.to_nat (r - run)) rest = replicate (Z.to_nat (r - run)) value.
Proof.
  revert run. induction rest as [|d rest IH]; intros run Hrun; simpl.
  - rewrite Z.sub_diag. simpl. repeat split; auto; lia.
  - destruct (Z.eqb_spec d value) as [->|Hne]; simpl.
    + destruct (Z.ltb_spec run 255) as [Hlt|Hge].
      * destruct (IH (run + 1) ltac:(lia)) as (H1 & H2 & H3 & H4).
        set (r := Huffman.runLength value rest (run + 1)) in *.
        replace (Z.to_nat (r - run)) with (S (Z.to_nat (r - (run + 1)))) by lia.
        simpl. rewrite H4. repeat split; auto; lia.
      * rewrite Z.sub_diag. simpl. repeat split; auto; lia.
    + rewrite Z.sub_diag. simpl. repeat split; auto; lia.
Qed.

Lemma applyRun_spec (run N : nat) (v : Z) (out : list Z) (prev : Z) :
  (length out + run <= N)%nat ->
  Huffman.applyRun run N v out prev
  = (reverse (decodeDeltas prev (replicate run v)) ++ out,
     lastDecoded prev (replicate run v)).
Proof.
  revert out prev. induction run as [|run IH]; intros out prev Hlen; simpl.
  - reflexivity.
  - destruct (Nat.leb_spec N (length out)) as [Hle|_]; [lia|].
    rewrite toUint8_byte by apply unDelta_byte.
    rewrite IH by (simpl; lia).
    rewrite reverse_cons, <- app_assoc. reflexivity.
Qed.

(** Decoding the run-length encoding of [ds], whatever follows it in the
    stream, rebuilds exactly the values of [ds] once the expected length is
    the number of values. *)
Lemma expand_rleLoop (fuel : nat) :
  forall (ds : list Z) (efuel : nat) (junk out : list Z) (prev : Z) (N : nat),
    (length ds <= fuel)%nat ->
    Forall isByte ds ->
    N = (length out + length ds)%nat ->
    (length (Huffman.rleLoop fuel ds ++ junk) <= efuel)%nat ->
    Huffman.expand efuel (Huffman.rleLoop fuel ds ++ junk) N out prev
    = reverse (decodeDeltas prev ds) ++ out.
Proof.
  induction fuel as [|fuel IH]; intros ds efuel junk out prev N Hfuel Hbytes HN Hefuel.
  - destruct ds; [|simpl in Hfuel; lia]. simpl.
    destruct efuel; simpl; [reflexivity|].
    destruct junk; [reflexivity|].
    destruct (Nat.leb_spec N (length out)); [reflexivity|simpl in HN; lia].
  - destruct ds as [|value rest].
    + simpl. destruct efuel; simpl; [reflexivity|].
      destruct junk; [reflexivity|].
      destruct (Nat.leb_spec N (length out)); [reflexivity|simpl in HN; lia].
    + cbn [Huffman.rleLoop] in *.
      destruct (runLength_spec value rest 1 ltac:(lia)) as (Hr1 & Hr2 & Hr3 & Hr4).
      set (r := Huffman.runLength value rest 1) in *.
      pose proof (Forall_inv Hbytes) as Hv.
      pose proof (Forall_inv_tail Hbytes) as Hrest.
      assert (Hsplit : value :: rest
                       = replicate (Z.to_nat r) value ++ drop (Z.to_nat r) (value :: rest)).
      { replace (Z.to_nat r) with (S (Z.to_nat (r - 1))) by lia. simpl.
        rewrite <- Hr4. rewrite take_drop. reflexivity. }
      set (ds' := drop (Z.to_nat r) (value :: rest)) in *.
      assert (Hds' : (length ds' <= fuel)%nat).
      { unfold ds'. rewrite length_drop. simpl in *. lia. }
      assert (Hbytes' : Forall isByte ds') by (apply Forall_drop; exact Hbytes).
      assert (Hlen : length (value :: rest) = (Z.to_nat r + length ds')%nat).
      { rewrite Hsplit at 1. rewrite length_app, length_replicate. reflexivity. }
      replace (decodeDeltas prev (value :: rest))
        with (decodeDeltas prev (replicate (Z.to_nat r) value ++ ds'))
        by (rewrite <- Hsplit; reflexivity).
      rewrite decodeDeltas_app, reverse_app, <- !app_assoc.
      destruct ((3 <=? r) || (value =? Huffman.RLE_MARKER)) eqn:Hmark.
      * (* a marker group *)
        cbn [app] in *. destruct efuel as [|efuel]; [simpl in Hefuel; lia|].
        cbn [Huffman.expand].
        destruct (Nat.leb_spec N (length out)) as [Hle|_]; [lia|].
        change (Huffman.RLE_MARKER =? Huffman.RLE_MARKER) with true. cbv iota.
        rewrite applyRun_spec by lia.
        apply IH; auto.
        -- rewrite length_app, length_reverse, length_decodeDeltas, length_replicate. lia.
        -- simpl in Hefuel. lia.
      * (* a literal group of one or two values *)
        apply orb_false_iff in Hmark as (Hr & Hvm).
        apply Z.leb_gt in Hr. apply Z.eqb_neq in Hvm.
        assert (Hone : forall ef stream o pv,
                   (length o < N)%nat ->
                   Huffman.expand (S ef) (value :: stream) N o pv
                   = Huffman.expand ef stream N (Huffman.unDelta pv value :: o)
                                    (Huffman.unDelta pv value)).
        { intros ef stream o pv Ho. cbn [Huffman.expand].
          destruct (Nat.leb_spec N (length o)) as [Hle|_]; [lia|].
          destruct (Z.eqb_spec value Huffman.RLE_MARKER) as [He|_]; [contradiction|].
          rewrite toUint8_byte by apply unDelta_byte. reflexivity. }
        assert (Hcases : r = 1 \/ r = 2) by lia.
        destruct Hcases as [Hr'|Hr']; rewrite Hr' in *; simpl in Hefuel |- *.
        -- destruct efuel as [|efuel]; [lia|].
           rewrite Hone by lia.
           rewrite (IH ds' efuel junk _ _ N Hds' Hbytes') by (simpl in *; lia).
           reflexivity.
        -- destruct efuel as [|[|efuel]]; [lia|lia|].
           rewrite Hone by lia. rewrite Hone by (simpl; lia).
           rewrite (IH ds' efuel junk _ _ N Hds' Hbytes') by (simpl in *; lia).
           reflexivity.
Qed.

(** The front end is inverted by the fused decoding loop. *)
Lemma expand_rleEncode (data junk : list Z) (efuel : nat) :
  Forall isByte data -> stepsInRange 0 data ->
  (length (Huffman.rleEncode (Huffman.deltaEncode data) ++ junk) <= efuel)%nat ->
  Huffman.expand efuel (Huffman.rleEncode (Huffman.deltaEncode data) ++ junk)
                 (length data) [] 0
  = reverse data.
Proof.
  intros Hb Hs Hfuel. unfold Huffman.rleEncode, Huffman.deltaEncode in *.
  rewrite expand_rleLoop; auto.
  - rewrite decodeDeltas_deltaFrom by assumption. apply app_nil_r.
  - apply deltaFrom_byte.
  - rewrite length_deltaFrom. reflexivity.
Qed.

(** ** 32-bit operators on small operands *)

Lemma wrap32_small (x : Z) : - 2 ^ 31 <= x < 2 ^ 31 -> wrap32 x = x.
Proof. intros Hx. unfold wrap32. rewrite Z.mod_small; lia. Qed.

Lemma wrap32_mod (x : Z) : wrap32 x mod 2 ^ 32 = x mod 2 ^ 32.
Proof.
  unfold wrap32.
  rewrite (Z.mod_eq (x + 2 ^ 31) (2 ^ 32)) by lia.
  replace (x + 2 ^ 31 - 2 ^ 32 * ((x + 2 ^ 31) / 2 ^ 32) - 2 ^ 31)
    with (x + (- ((x + 2 ^ 31) / 2 ^ 32)) * 2 ^ 32) by lia.
  apply Z_mod_plus_full.
Qed.

Lemma testbit_wrap32 (x i : Z) : 0 <= i < 32 -> Z.testbit (wrap32 x) i = Z.testbit x i.
Proof.
  intros Hi.
  rewrite <- (Z.mod_pow2_bits_low (wrap32 x) 32 i) by lia.
  rewrite <- (Z.mod_pow2_bits_low x 32 i) by lia.
  rewrite wrap32_mod. reflexivity.
Qed.

Lemma testbit_or32 (a b i : Z) :
  0 <= i < 32 -> Z.testbit (or32 a b) i = Z.testbit a i || Z.testbit b i.
Proof.
  intros Hi. unfold or32. rewrite Z.lor_spec, !testbit_wrap32 by lia. reflexivity.
Qed.

Lemma testbit_shl32 (a n i : Z) :
  0 <= n < 32 -> 0 <= i < 32 ->
  Z.testbit (shl32 a n) i = if i <? n then false else Z.testbit a (i - n).
Proof.
  intros Hn Hi. unfold shl32. rewrite Z.mod_small by lia.
  rewrite testbit_wrap32 by lia. rewrite Z.shiftl_spec by lia.
  destruct (Z.ltb_spec i n).
  - apply Z.testbit_neg_r. lia.
  - apply testbit_wrap32. lia.
Qed.

Lemma shl32_small (x n : Z) :
  0 <= x -> 0 <= n < 32 -> x * 2 ^ n < 2 ^ 31 -> shl32 x n = x * 2 ^ n.
Proof.
  intros Hx Hn Hlt. unfold shl32. rewrite Z.mod_small by lia.
  assert (x < 2 ^ 31).
  { assert (1 <= 2 ^ n) by (apply (Z.pow_le_mono_r 2 0 n); lia). nia. }
  rewrite (wrap32_small x) by lia. rewrite Z.shiftl_mul_pow2 by lia.
  apply wrap32_small. nia.
Qed.

Lemma land_1 (x : Z) : Z.land x 1 = Z.b2z (Z.testbit x 0).
Proof.
  change 1 with (Z.ones 1). rewrite Z.land_ones by lia.
  rewrite Z.bit0_mod. reflexivity.
Qed.

Lemma lor_double_bit (x : Z) (b : bool) : Z.lor (2 * x) (Z.b2z b) = 2 * x + Z.b2z b.
Proof.
  pose proof (Z.add_lor_land (2 * x) (Z.b2z b)) as H.
  assert (Hland : Z.land (2 * x) (Z.b2z b) = 0).
  { destruct b; simpl.
    - rewrite land_1, Z.testbit_even_0. reflexivity.
    - apply Z.land_0_r. }
  lia.
Qed.

(** [(x << 1) | bit] on a value of fewer than 30 bits. *)
Lemma or32_shl32_bit (x : Z) (b : bool) :
  0 <= x < 2 ^ 29 -> or32 (shl32 x 1) (Z.b2z b) = 2 * x + Z.b2z b.
Proof.
  intros Hx. rewrite shl32_small by lia. unfold or32.
  assert (0 <= Z.b2z b <= 1) by (destruct b; simpl; lia).
  rewrite !wrap32_small by lia.
  replace (x * 2 ^ 1) with (2 * x) by lia. apply lor_double_bit.
Qed.

(** [(c >> b) & 1] and [(acc >>> b) & 1] read bit [b]. *)
Lemma and32_sar32_bit (c b : Z) :
  0 <= b < 32 -> and32 (sar32 c b) 1 = Z.b2z (Z.testbit c b).
Proof.
  intros Hb. unfold and32, sar32. rewrite Z.mod_small by lia.
  rewrite (wrap32_small 1) by lia. rewrite land_1.
  rewrite testbit_wrap32 by lia. rewrite Z.shiftr_spec by lia.
  rewrite Z.add_0_l. rewrite testbit_wrap32 by lia. reflexivity.
Qed.

Lemma and32_shr32_bit (acc b : Z) :
  0 <= b < 32 -> and32 (shr32 acc b) 1 = Z.b2z (Z.testbit acc b).
Proof.
  intros Hb. unfold and32, shr32, toUint32. rewrite (Z.mod_small b) by lia.
  rewrite (wrap32_small 1) by lia. rewrite land_1.
  rewrite testbit_wrap32 by lia. rewrite Z.shiftr_spec by lia.
  rewrite Z.add_0_l. rewrite Z.mod_pow2_bits_low by lia. reflexivity.
Qed.

(** Dropping the lowest bit of a quotient by a power of two. *)
Lemma div_pow2_step (c k : Z) :
  0 <= c -> 0 <= k ->
  c / 2 ^ k = 2 * (c / 2 ^ (k + 1)) + Z.b2z (Z.testbit c k).
Proof.
  intros Hc Hk.
  rewrite Z.testbit_spec' by lia.
  rewrite Z.pow_add_r by lia. rewrite <- Z.div_div by lia.
  change (2 ^ 1) with 2.
  pose proof (Z.div_mod (c / 2 ^ k) 2 ltac:(lia)). lia.
Qed.

(** ** Canonical codes as scaled Kraft sums *)

Lemma weight_pos (l : Z) : l <= 30 -> 0 < weight l.
Proof. intros. unfold weight. apply Z.pow_pos_nonneg; lia. Qed.

Lemma weight_split (l l' : Z) : l <= l' <= 30 -> weight l = 2 ^ (l' - l) * weight l'.
Proof.
  intros H. unfold weight. rewrite <- Z.pow_add_r by lia. f_equal. lia.
Qed.

Lemma kraftSum_app (a b : list Huffman.CodeLen) : kraftSum (a ++ b) = kraftSum a + kraftSum b.
Proof. induction a as [|e a IH]; simpl; [reflexivity|]. rewrite IH. lia. Qed.

Lemma kraftSum_nonneg (a : list Huffman.CodeLen) : 0 <= kraftSum a.
Proof.
  induction a as [|e a IH]; simpl; [lia|].
  assert (0 <= weight (Huffman.len e)) by (apply Z.pow_nonneg; lia). lia.
Qed.

Lemma kraftSum_same (l : Z) (grp : list Huffman.CodeLen) :
  Forall (fun e => Huffman.len e = l) grp ->
  kraftSum grp = Z.of_nat (length grp) * weight l.
Proof.
  induction 1 as [|e grp He _ IH]; simpl length; simpl kraftSum; [lia|].
  rewrite IH, He. lia.
Qed.

Lemma kraftSum_divides (pre : list Huffman.CodeLen) (l : Z) :
  Forall (fun e => Huffman.len e <= l) pre -> l <= 30 ->
  kraftSum pre = codeOf pre l * weight l.
Proof.
  intros Hpre Hl. unfold codeOf.
  assert (Hdiv : exists q, kraftSum pre = q * weight l).
  { induction Hpre as [|e pre He _ IH]; simpl.
    - exists 0. lia.
    - destruct IH as (q & ->).
      exists (2 ^ (l - Huffman.len e) + q).
      rewrite (weight_split (Huffman.len e) l) by lia. lia. }
  destruct Hdiv as (q & ->). pose proof (weight_pos l Hl).
  rewrite Z.div_mul by lia. reflexivity.
Qed.

Lemma codeOf_nil (l : Z) : codeOf [] l = 0.
Proof. unfold codeOf. simpl. apply Zdiv_0_l. Qed.

Lemma codeOf_nonneg (pre : list Huffman.CodeLen) (l : Z) : l <= 30 -> 0 <= codeOf pre l.
Proof.
  intros Hl. unfold codeOf. apply Z.div_pos; [apply kraftSum_nonneg|apply weight_pos, Hl].
Qed.

Lemma codeOf_mono (a b : list Huffman.CodeLen) (l : Z) :
  l <= 30 -> kraftSum a <= kraftSum b -> codeOf a l <= codeOf b l.
Proof.
  intros Hl Hab. unfold codeOf. apply Z.div_le_mono; [apply weight_pos, Hl|exact Hab].
Qed.

(** The codes of one length are consecutive. *)
Lemma codeOf_group (pre grp : list Huffman.CodeLen) (l : Z) :
  Forall (fun e => Huffman.len e <= l) pre ->
  Forall (fun e => Huffman.len e = l) grp -> l <= 30 ->
  codeOf (pre ++ grp) l = codeOf pre l + Z.of_nat (length grp).
Proof.
  intros Hpre Hgrp Hl. unfold codeOf at 1.
  rewrite kraftSum_app, (kraftSum_divides pre l Hpre Hl), (kraftSum_same l grp Hgrp).
  pose proof (weight_pos l Hl).
  rewrite <- Z.mul_add_distr_r, Z.div_mul by lia. reflexivity.
Qed.

(** The encoder's step [(code + 1) << (len - prevLen)]. *)
Lemma codeOf_next (pre : list Huffman.CodeLen) (e : Huffman.CodeLen) (l : Z) :
  Forall (fun x => Huffman.len x <= Huffman.len e) pre ->
  Huffman.len e <= l <= 30 ->
  codeOf (pre ++ [e]) l = (codeOf pre (Huffman.len e) + 1) * 2 ^ (l - Huffman.len e).
Proof.
  intros Hpre Hl. unfold codeOf at 1.
  rewrite kraftSum_app. simpl kraftSum.
  rewrite (kraftSum_divides pre (Huffman.len e) Hpre) by lia.
  rewrite (weight_split (Huffman.len e) l) by lia.
  pose proof (weight_pos l ltac:(lia)).
  replace (codeOf pre (Huffman.len e) * (2 ^ (l - Huffman.len e) * weight l)
           + (2 ^ (l - Huffman.len e) * weight l + 0))
    with ((codeOf pre (Huffman.len e) + 1) * 2 ^ (l - Huffman.len e) * weight l) by lia.
  apply Z.div_mul. lia.
Qed.

(** The first [j] bits of the code of length [l] are the code the same
    prefix would get at length [j]. *)
Lemma codeOf_truncate (pre : list Huffman.CodeLen) (j l : Z) :
  Forall (fun x => Huffman.len x <= l) pre -> j <= l <= 30 ->
  codeOf pre l / 2 ^ (l - j) = codeOf pre j.
Proof.
  intros Hpre Hl. unfold codeOf at 2.
  rewrite (kraftSum_divides pre l Hpre) by lia.
  rewrite (weight_split j l) by lia.
  pose proof (weight_pos l ltac:(lia)).
  assert (0 < 2 ^ (l - j)) by (apply Z.pow_pos_nonneg; lia).
  rewrite Z.div_mul_cancel_r by lia. reflexivity.
Qed.

(** A code fits in its length when the Kraft sum allows it. *)
Lemma codeOf_bound (pre : list Huffman.CodeLen) (l : Z) :
  0 <= l <= 30 -> kraftSum pre + weight l <= 2 ^ 30 -> codeOf pre l < 2 ^ l.
Proof.
  intros Hl Hk. unfold codeOf. pose proof (weight_pos l ltac:(lia)).
  apply Z.div_lt_upper_bound; [lia|].
  unfold weight in *. rewrite <- Z.pow_add_r by lia.
  replace (30 - l + l) with 30 by lia. lia.
Qed.

(** ** The encoder's code assignment *)

Lemma sorted_app_le (pre es : list Huffman.CodeLen) :
  StronglySorted lenLe (pre ++ es) ->
  forall x y, x ∈ pre -> y ∈ es -> Huffman.len x <= Huffman.len y.
Proof.
  induction pre as [|p pre IH]; intros Hs x y Hx Hy.
  - inversion Hx.
  - simpl in Hs. apply StronglySorted_inv in Hs as (Hs & Hall).
    apply elem_of_cons in Hx as [->|Hx].
    + rewrite Forall_forall in Hall. apply Hall.
      apply elem_of_app. right. exact Hy.
    + apply IH; assumption.
Qed.

Lemma sorted_app_r (pre es : list Huffman.CodeLen) :
  StronglySorted lenLe (pre ++ es) -> StronglySorted lenLe es.
Proof.
  induction pre as [|p pre IH]; intros Hs; [exact Hs|].
  simpl in Hs. apply StronglySorted_inv in Hs as (Hs & _). apply IH, Hs.
Qed.

Lemma sorted_prefix_le (pre : list Huffman.CodeLen) (e : Huffman.CodeLen)
      (rest : list Huffman.CodeLen) :
  StronglySorted lenLe (pre ++ e :: rest) ->
  Forall (fun x => Huffman.len x <= Huffman.len e) pre.
Proof.
  intros Hs. apply Forall_forall. intros x Hx.
  apply (sorted_app_le pre (e :: rest) Hs); [exact Hx|left].
Qed.

Lemma goodTable_code_range (pre : list Huffman.CodeLen) (e : Huffman.CodeLen)
      (rest : list Huffman.CodeLen) :
  goodTable (pre ++ e :: rest) ->
  1 <= Huffman.len e <= 30
  /\ 0 <= codeOf pre (Huffman.len e) < 2 ^ Huffman.len e.
Proof.
  intros (Hs & Hlens & _ & _ & Hk).
  assert (Hl : 1 <= Huffman.len e <= 30).
  { rewrite Forall_forall in Hlens. apply Hlens.
    apply elem_of_app. right. left. }
  split; [exact Hl|]. split; [apply codeOf_nonneg; lia|].
  apply codeOf_bound; [lia|].
  rewrite kraftSum_app in Hk. simpl in Hk.
  pose proof (kraftSum_nonneg rest). lia.
Qed.

Lemma assignCodes_spec (es : list Huffman.CodeLen) :
  forall (pre : list Huffman.CodeLen) (first : bool) (code prevLen : Z)
         (codes lens : list Z),
    goodTable (pre ++ es) ->
    length codes = 256%nat -> length lens = 256%nat ->
    (if first then pre = [] /\ code = 0
     else exists pre0 pe, pre = pre0 ++ [pe]
                          /\ code = codeOf pre0 (Huffman.len pe)
                          /\ prevLen = Huffman.len pe) ->
    let r := Huffman.assignCodes first code prevLen es codes lens in
    length (fst r) = 256%nat /\ length (snd r) = 256%nat
    /\ (forall a e b, es = a ++ e :: b ->
                      aget (fst r) (Z.to_nat (Huffman.symbol e))
                      = codeOf (pre ++ a) (Huffman.len e)
                      /\ aget (snd r) (Z.to_nat (Huffman.symbol e)) = Huffman.len e)
    /\ (forall k, (forall e, e ∈ es -> Z.to_nat (Huffman.symbol e) <> k) ->
                  aget (fst r) k = aget codes k /\ aget (snd r) k = aget lens k).
Proof.
  induction es as [|e0 es IH]; intros pre first code prevLen codes lens Hgood Hc Hl Hstate.
  - simpl. split; [exact Hc|]. split; [exact Hl|]. split; [|auto].
    intros a e b Hab. destruct a; discriminate.
  - cbn [Huffman.assignCodes].
    set (code0 := if first then code else shl32 (code + 1) (Huffman.len e0 - prevLen)).
    destruct (goodTable_code_range pre e0 es Hgood) as (Hl0 & Hc0).
    pose proof Hgood as (Hs & Hlens & Hsyms & Hnd & Hk).
    assert (Hcode0 : code0 = codeOf pre (Huffman.len e0)).
    { unfold code0. destruct first.
      - destruct Hstate as (-> & ->). rewrite codeOf_nil. reflexivity.
      - destruct Hstate as (pre0 & pe & -> & -> & ->).
        assert (Hpe : Forall (fun x => Huffman.len x <= Huffman.len pe) pre0).
        { rewrite <- app_assoc in Hs. apply sorted_prefix_le in Hs. exact Hs. }
        assert (Hple : Huffman.len pe <= Huffman.len e0).
        { apply (sorted_app_le (pre0 ++ [pe]) (e0 :: es) Hs); [|left].
          apply elem_of_app. right. left. }
        assert (1 <= Huffman.len pe).
        { rewrite Forall_forall in Hlens. apply Hlens.
          apply elem_of_app. left. apply elem_of_app. right. left. }
        rewrite (codeOf_next pre0 pe (Huffman.len e0) Hpe ltac:(lia)) in Hc0 |- *.
        assert (2 ^ Huffman.len e0 <= 2 ^ 30) by (apply Z.pow_le_mono_r; lia).
        apply shl32_small; [|lia|lia].
        pose proof (codeOf_nonneg pre0 (Huffman.len pe) ltac:(lia)). lia. }
    assert (Hsym0 : isByte (Huffman.symbol e0)).
    { rewrite Forall_forall in Hsyms. apply Hsyms.
      apply elem_of_app. right. left. }
    assert (Hnotin : forall e, e ∈ es ->
                Z.to_nat (Huffman.symbol e) <> Z.to_nat (Huffman.symbol e0)).
    { intros e He Heq.
      rewrite map_app in Hnd. apply NoDup_app in Hnd as (_ & _ & Hnd).
      simpl in Hnd. apply NoDup_cons in Hnd as (Hnin & _).
      apply Hnin. apply list_elem_of_fmap. exists e. split; [|exact He].
      assert (isByte (Huffman.symbol e)).
      { rewrite Forall_forall in Hsyms. apply Hsyms.
        apply elem_of_app. right. right. exact He. }
      unfold isByte in *. lia. }
    edestruct (IH (pre ++ [e0]) false code0 (Huffman.len e0)
                  (aset codes (Z.to_nat (Huffman.symbol e0)) (wrap32 code0))
                  (aset lens (Z.to_nat (Huffman.symbol e0)) (toInt8 (Huffman.len e0))))
      as (Hc' & Hl' & Hin & Hout).
    { rewrite <- app_assoc. exact Hgood. }
    { rewrite length_aset. exact Hc. }
    { rewrite length_aset. exact Hl. }
    { exists pre, e0. auto. }
    split; [exact Hc'|]. split; [exact Hl'|]. split.
    + intros a e b Hab. destruct a as [|a0 a].
      * injection Hab as <- <-.
        destruct (Hout _ Hnotin) as (-> & ->).
        unfold isByte in Hsym0.
        rewrite !aget_aset_eq by lia.
        rewrite app_nil_r, Hcode0.
        assert (2 ^ Huffman.len e0 <= 2 ^ 30) by (apply Z.pow_le_mono_r; lia).
        split; [apply wrap32_small; lia|].
        unfold toInt8. rewrite Z.mod_small; lia.
      * injection Hab as <- ->.
        destruct (Hin a e b eq_refl) as (H1 & H2).
        rewrite <- app_assoc in H1. auto.
    + intros k Hk'.
      destruct (Hout k) as (-> & ->).
      { intros e He. apply Hk'. right. exact He. }
      rewrite !aget_aset_ne by (apply Hk'; left). auto.
Qed.

(** ** Bit lists and the encoder's bit packer *)

Lemma length_bitsN (c : Z) (n : nat) : length (bitsN c n) = n.
Proof. induction n; simpl; auto. Qed.

Lemma bitsN_ext (a b : Z) (n : nat) :
  (forall i, 0 <= i < Z.of_nat n -> Z.testbit a i = Z.testbit b i) ->
  bitsN a n = bitsN b n.
Proof.
  induction n as [|n IH]; intros H; simpl; [reflexivity|].
  rewrite H by lia. f_equal. apply IH. intros i Hi. apply H. lia.
Qed.

Lemma bitsN_double (a : Z) (b : bool) (n : nat) :
  bitsN (2 * a + Z.b2z b) (S n) = bitsN a n ++ [b].
Proof.
  induction n as [|n IH].
  - cbn [bitsN app]. change (Z.of_nat 0) with 0. rewrite Z.testbit_0_r. reflexivity.
  - change (bitsN (2 * a + Z.b2z b) (S (S n)))
      with (Z.testbit (2 * a + Z.b2z b) (Z.of_nat (S n)) :: bitsN (2 * a + Z.b2z b) (S n)).
    rewrite IH. rewrite Nat2Z.inj_succ, Z.testbit_succ_r by lia. reflexivity.
Qed.

(** The top [n] bits of an [n + m]-bit window are the bits of the quotient. *)
Lemma bitsN_split (c : Z) (n m : nat) :
  bitsN c (n + m) = bitsN (c / 2 ^ Z.of_nat m) n ++ bitsN c m.
Proof.
  induction n as [|n IH]; simpl; [reflexivity|].
  rewrite IH. f_equal.
  rewrite Z.div_pow2_bits by lia. f_equal. lia.
Qed.

Lemma bitsN_shifted (a : Z) (n m : nat) :
  bitsN (a * 2 ^ Z.of_nat m) (n + m) = bitsN a n ++ replicate m false.
Proof.
  rewrite bitsN_split. rewrite Z.div_mul by (apply Z.pow_nonzero; lia). f_equal.
  clear n. assert (H : forall k, (k <= m)%nat ->
                       bitsN (a * 2 ^ Z.of_nat m) k = replicate k false).
  { induction k as [|k IH]; intros Hk; simpl; [reflexivity|].
    rewrite Z.mul_pow2_bits_low by lia. f_equal. apply IH. lia. }
  apply H. lia.
Qed.

Lemma bitsN_zero (n : nat) : bitsN 0 n = replicate n false.
Proof. induction n; simpl; [reflexivity|]. rewrite Z.bits_0. f_equal. assumption. Qed.

Lemma lookup_bitsN (c : Z) (n m : nat) :
  (m < n)%nat -> bitsN c n !! m = Some (Z.testbit c (Z.of_nat (n - 1 - m))).
Proof.
  revert m. induction n as [|n IH]; intros m Hm; [lia|].
  destruct m as [|m].
  - replace (S n - 1 - 0)%nat with n by lia. reflexivity.
  - replace (S n - 1 - S m)%nat with (n - 1 - m)%nat by lia.
    cbn [bitsN]. rewrite lookup_cons. apply IH. lia.
Qed.

(** The bit loop of [pushSymbol] visits the bits of the code from the top. *)
Lemma pushSymbol_bits (c l : Z) :
  0 <= l <= 32 ->
  map (fun b => and32 (sar32 c b) 1) (reverse (seqZ 0 l)) = map Z.b2z (bitsOf c l).
Proof.
  intros Hl. unfold bitsOf.
  rewrite <- (Z2Nat.id l) at 1 by lia.
  assert (Hn : (Z.to_nat l <= 32)%nat) by lia.
  generalize dependent (Z.to_nat l). clear. intros n Hn.
  induction n as [|n IH]; [reflexivity|].
  rewrite Nat2Z.inj_succ. unfold Z.succ.
  rewrite seqZ_app by lia. rewrite reverse_app. simpl.
  rewrite and32_sar32_bit by lia. rewrite Z.add_0_l. f_equal. apply IH. lia.
Qed.

Lemma flat_map_snoc {A B : Type} (f : A -> list B) (l : list A) (x : A) :
  flat_map f (l ++ [x]) = flat_map f l ++ f x.
Proof. rewrite flat_map_app. simpl. rewrite app_nil_r. reflexivity. Qed.

Lemma length_flat_map_byteBits (body : list Z) :
  length (flat_map byteBits body) = (8 * length body)%nat.
Proof.
  induction body as [|b body IH]; [reflexivity|].
  change (flat_map byteBits (b :: body)) with (byteBits b ++ flat_map byteBits body).
  rewrite length_app, IH. unfold byteBits. rewrite length_bitsN. simpl. lia.
Qed.

Lemma pushBit_packed (hdr : list Z) (cap0 : nat) (bs : list bool)
      (st : Huffman.PackState) (b : bool) :
  packed hdr cap0 bs st -> packed hdr cap0 (bs ++ [b]) (Huffman.pushBit st (Z.b2z b)).
Proof.
  intros (body & Hout & Hbody & Hbs & Hpend & Hacc & Hcap).
  unfold Huffman.pushBit.
  assert (Hpow : 2 ^ Huffman.p_pending st <= 2 ^ 7) by (apply Z.pow_le_mono_r; lia).
  rewrite or32_shl32_bit by lia.
  assert (Hb : 0 <= Z.b2z b <= 1) by (destruct b; simpl; lia).
  assert (Hnext : bitsOf (2 * Huffman.p_acc st + Z.b2z b) (Huffman.p_pending st + 1)
                  = bitsOf (Huffman.p_acc st) (Huffman.p_pending st) ++ [b]).
  { unfold bitsOf. rewrite Z2Nat.inj_add by lia. rewrite Nat.add_1_r.
    apply bitsN_double. }
  destruct (Z.eqb_spec (Huffman.p_pending st + 1) 8) as [H8|H8].
  - exists (body ++ [toUint8 (2 * Huffman.p_acc st + Z.b2z b)]). simpl.
    assert (Hp7 : Huffman.p_pending st = 7) by lia. rewrite Hp7 in *.
    assert (Hbyte : isByte (2 * Huffman.p_acc st + Z.b2z b)) by (unfold isByte; lia).
    rewrite toUint8_byte by exact Hbyte.
    split; [rewrite Hout, app_assoc; reflexivity|].
    split; [apply Forall_app; split; [exact Hbody|constructor; [exact Hbyte|constructor]]|].
    split.
    + rewrite flat_map_snoc.
      change (bitsOf 0 0) with (@nil bool). rewrite app_nil_r.
      rewrite Hbs, <- app_assoc. f_equal. symmetry. exact Hnext.
    + split; [lia|]. split; [simpl; lia|].
      destruct (Nat.leb_spec (Huffman.p_cap st) (length (Huffman.p_out st))); lia.
  - exists body. simpl.
    split; [exact Hout|]. split; [exact Hbody|]. split.
    + rewrite Hnext, Hbs, app_assoc. reflexivity.
    + split; [lia|]. split; [|exact Hcap].
      rewrite Z.pow_add_r by lia. change (2 ^ 1) with 2. lia.
Qed.

Lemma pushBits_packed (hdr : list Z) (cap0 : nat) (bits : list bool) :
  forall (bs : list bool) (st : Huffman.PackState),
    packed hdr cap0 bs st ->
    packed hdr cap0 (bs ++ bits) (foldl Huffman.pushBit st (map Z.b2z bits)).
Proof.
  induction bits as [|b bits IH]; intros bs st Hp; simpl.
  - rewrite app_nil_r. exact Hp.
  - replace (bs ++ b :: bits) with ((bs ++ [b]) ++ bits) by (rewrite <- app_assoc; reflexivity).
    apply IH, pushBit_packed, Hp.
Qed.

Lemma pushSymbol_packed (hdr : list Z) (cap0 : nat) (codes lens : list Z)
      (bs : list bool) (st : Huffman.PackState) (sym : Z) :
  0 <= aget lens (Z.to_nat sym) <= 32 ->
  packed hdr cap0 bs st ->
  packed hdr cap0 (bs ++ symBits codes lens sym) (Huffman.pushSymbol codes lens st sym).
Proof.
  intros Hl Hp. unfold Huffman.pushSymbol, symBits.
  rewrite <- (foldl_fmap Huffman.pushBit st (reverse (seqZ 0 _))
                (fun b => and32 (sar32 (aget codes (Z.to_nat sym)) b) 1)).
  rewrite pushSymbol_bits by exact Hl.
  apply pushBits_packed, Hp.
Qed.

Lemma pushSymbols_packed (hdr : list Z) (cap0 : nat) (codes lens : list Z) (rle : list Z) :
  Forall (fun sym => 0 <= aget lens (Z.to_nat sym) <= 32) rle ->
  forall (bs : list bool) (st : Huffman.PackState),
    packed hdr cap0 bs st ->
    packed hdr cap0 (bs ++ flat_map (symBits codes lens) rle)
           (foldl (Huffman.pushSymbol codes lens) st rle).
Proof.
  induction 1 as [|sym rle Hsym _ IH]; intros bs st Hp; simpl.
  - rewrite app_nil_r. exact Hp.
  - rewrite app_assoc. apply IH, pushSymbol_packed; assumption.
Qed.

(** The flushed output: header, then whole bytes holding the bits written
    and at most seven zero bits of padding. *)
Lemma flush_packed (hdr : list Z) (cap0 : nat) (bs : list bool) (st : Huffman.PackState) :
  packed hdr cap0 bs st ->
  (length hdr + length bs / 8 < cap0)%nat ->
  exists body pad,
    Huffman.flush st = hdr ++ body
    /\ Forall isByte body
    /\ flat_map byteBits body = bs ++ replicate pad false
    /\ (pad < 8)%nat.
Proof.
  intros (body & Hout & Hbody & Hbs & Hpend & Hacc & Hcap) Hroom.
  assert (Hlenbs : length bs = (8 * length body + Z.to_nat (Huffman.p_pending st))%nat).
  { rewrite Hbs, length_app, length_flat_map_byteBits. unfold bitsOf.
    rewrite length_bitsN. reflexivity. }
  assert (Hbodylen : (length body = length bs / 8)%nat).
  { rewrite Hlenbs. apply Nat.div_unique with (Z.to_nat (Huffman.p_pending st)); lia. }
  unfold Huffman.flush.
  destruct (Z.ltb_spec 0 (Huffman.p_pending st)) as [Hpos|Hzero].
  - destruct (Nat.ltb_spec (length (Huffman.p_out st)) (Huffman.p_cap st)) as [_|Hfull].
    2:{ rewrite Hout, length_app in Hfull. lia. }
    set (k := Huffman.p_pending st) in *.
    assert (Hpk : 2 ^ k * 2 ^ (8 - k) = 2 ^ 8).
    { rewrite <- Z.pow_add_r by lia. f_equal. lia. }
    assert (0 < 2 ^ (8 - k)) by (apply Z.pow_pos_nonneg; lia).
    rewrite shl32_small by (try lia; nia).
    assert (Hbyte : isByte (Huffman.p_acc st * 2 ^ (8 - k))) by (unfold isByte; nia).
    rewrite toUint8_byte by exact Hbyte.
    exists (body ++ [Huffman.p_acc st * 2 ^ (8 - k)]), (Z.to_nat (8 - k)).
    split; [rewrite Hout, app_assoc; reflexivity|].
    split; [apply Forall_app; split; [exact Hbody|constructor; [exact Hbyte|constructor]]|].
    split; [|lia].
    rewrite flat_map_snoc.
    rewrite Hbs, <- app_assoc. f_equal.
    unfold byteBits, bitsOf.
    replace 8%nat with (Z.to_nat k + Z.to_nat (8 - k))%nat by lia.
    rewrite <- (Z2Nat.id (8 - k)) at 1 by lia.
    apply bitsN_shifted.
  - exists body, 0%nat.
    split; [exact Hout|]. split; [exact Hbody|]. split; [|lia].
    simpl. rewrite app_nil_r. rewrite Hbs.
    replace (Huffman.p_pending st) with 0 by lia.
    change (bitsOf (Huffman.p_acc st) 0) with (@nil bool). rewrite app_nil_r. reflexivity.
Qed.

(** ** The decoder's canonical tables *)

Lemma lenCount_app (l : Z) (a b : list Huffman.CodeLen) :
  lenCount l (a ++ b) = lenCount l a + lenCount l b.
Proof. induction a as [|e a IH]; simpl; [reflexivity|]. rewrite IH. lia. Qed.

Lemma lenCount_none (l : Z) (es : list Huffman.CodeLen) :
  Forall (fun e => Huffman.len e <> l) es -> lenCount l es = 0.
Proof.
  induction 1 as [|e es He _ IH]; simpl; [reflexivity|].
  destruct (Z.eqb_spec (Huffman.len e) l); [contradiction|]. lia.
Qed.

Lemma lenCount_all (l : Z) (es : list Huffman.CodeLen) :
  Forall (fun e => Huffman.len e = l) es -> lenCount l es = Z.of_nat (length es).
Proof.
  induction 1 as [|e es He _ IH]; simpl length; simpl lenCount; [reflexivity|].
  destruct (Z.eqb_spec (Huffman.len e) l); [|contradiction]. lia.
Qed.

(** [lenCounts] after the header loop. *)
Lemma lenCounts_spec (es : list Huffman.CodeLen) :
  Forall (fun e => 0 <= Huffman.len e <= 32) es ->
  forall (a : list Z) (k : nat),
    length a = 33%nat ->
    length (foldl Huffman.countLen a (map toEntry es)) = 33%nat
    /\ aget (foldl Huffman.countLen a (map toEntry es)) k
       = aget a k + lenCount (Z.of_nat k) es.
Proof.
  induction 1 as [|e es He _ IH]; intros a k Ha; simpl.
  - split; [exact Ha|lia].
  - unfold Huffman.countLen at 2 4. simpl.
    destruct (IH (aset a (Z.to_nat (Huffman.len e))
                       (aget a (Z.to_nat (Huffman.len e)) + 1)) k) as (Hlen & Hget).
    { rewrite length_aset. exact Ha. }
    split; [exact Hlen|]. rewrite Hget.
    destruct (Z.eqb_spec (Huffman.len e) (Z.of_nat k)) as [Heq|Hne].
    + replace (Z.to_nat (Huffman.len e)) with k by lia.
      rewrite aget_aset_eq by lia. lia.
    + rewrite aget_aset_ne by lia. lia.
Qed.

(** A sorted table starts with the block of the entries of its first length. *)
Lemma sorted_first_group (e : Huffman.CodeLen) (todo : list Huffman.CodeLen) :
  StronglySorted lenLe (e :: todo) ->
  exists grp rest,
    e :: todo = grp ++ rest /\ grp <> []
    /\ Forall (fun x => Huffman.len x = Huffman.len e) grp
    /\ Forall (fun x => Huffman.len e < Huffman.len x) rest.
Proof.
  revert e. induction todo as [|e' todo IH]; intros e Hs.
  - exists [e], []. repeat split; auto; try discriminate.
  - apply StronglySorted_inv in Hs as (Hs & Hall).
    destruct (Z.eq_dec (Huffman.len e') (Huffman.len e)) as [Heq|Hne].
    + destruct (IH e' Hs) as (grp & rest & Hsplit & Hne & Hgrp & Hrest).
      exists (e :: grp), rest. rewrite Hsplit.
      split; [reflexivity|]. split; [discriminate|]. split.
      * constructor; [reflexivity|]. rewrite <- Heq. exact Hgrp.
      * rewrite <- Heq. exact Hrest.
    + exists [e], (e' :: todo).
      split; [reflexivity|]. split; [discriminate|]. split; [repeat constructor|].
      apply StronglySorted_inv in Hs as (_ & Hall').
      rewrite Forall_forall in Hall. rewrite Forall_forall in Hall'.
      assert (Hlt : Huffman.len e < Huffman.len e').
      { pose proof (Hall e' ltac:(left)) as H. unfold lenLe in H. lia. }
      constructor; [exact Hlt|]. apply Forall_forall. intros x Hx.
      pose proof (Hall' x Hx) as H. unfold lenLe in H. lia.
Qed.

Lemma iter_shl32 (n : nat) (x : Z) :
  0 <= x -> x * 2 ^ Z.of_nat n < 2 ^ 31 ->
  Nat.iter n (fun c => shl32 c 1) x = x * 2 ^ Z.of_nat n.
Proof.
  intros Hx. induction n as [|n IH]; intros Hlt; simpl Nat.iter.
  - simpl. lia.
  - rewrite Nat2Z.inj_succ, Z.pow_succ_r in * by lia.
    assert (0 < 2 ^ Z.of_nat n) by (apply Z.pow_pos_nonneg; lia).
    rewrite IH by nia. rewrite shl32_small by nia. lia.
Qed.

Lemma groupAt_other (es : list Huffman.CodeLen) (l : Z) (t t' : Huffman.Tables) :
  aget (Huffman.minCode t') (Z.to_nat l) = aget (Huffman.minCode t) (Z.to_nat l) ->
  aget (Huffman.maxCode t') (Z.to_nat l) = aget (Huffman.maxCode t) (Z.to_nat l) ->
  aget (Huffman.valPtr t') (Z.to_nat l) = aget (Huffman.valPtr t) (Z.to_nat l) ->
  groupAt es l t -> groupAt es l t'.
Proof.
  intros H1 H2 H3 (pre & grp & rest & Hes & Hpre & Hgrp & Hne & Hrest & Hmin & Hmax & Hval).
  exists pre, grp, rest. rewrite H1, H2, H3. repeat split; assumption.
Qed.

Lemma goodTable_length (es : list Huffman.CodeLen) :
  goodTable es -> Z.of_nat (length es) <= 2 ^ 30.
Proof.
  intros (_ & Hlens & _ & _ & Hk).
  assert (H : Z.of_nat (length es) <= kraftSum es); [|lia].
  clear Hk. induction Hlens as [|e es He _ IH]; simpl length; simpl kraftSum; [lia|].
  assert (1 <= weight (Huffman.len e)).
  { unfold weight. apply (Z.pow_le_mono_r 2 0 (30 - Huffman.len e)); lia. }
  lia.
Qed.

Lemma tableLoop_spec (es : list Huffman.CodeLen) (fuel : nat) :
  goodTable es ->
  forall (done todo : list Huffman.CodeLen) (t : Huffman.Tables)
         (currentCode : Z) (currentLen : option Z),
    es = done ++ todo ->
    (length todo <= fuel)%nat ->
    (forall x y, x ∈ done -> y ∈ todo -> Huffman.len x < Huffman.len y) ->
    (match done with
     | [] => currentCode = 0
             /\ match todo with e :: _ => currentLen = Some (Huffman.len e) | [] => True end
     | _ => exists d0 pe, done = d0 ++ [pe]
                          /\ currentCode = codeOf d0 (Huffman.len pe) + 1
                          /\ currentLen = Some (Huffman.len pe)
     end) ->
    tablesUpTo es done t ->
    tablesUpTo es es
      (Huffman.tableLoop fuel (map toEntry es)
         (foldl Huffman.countLen (zeros (Huffman.MAX_CODE_LEN + 1)) (map toEntry es))
         (length done) currentCode currentLen (Z.of_nat (length done)) t).
Proof.
  intros Hgood.
  pose proof Hgood as (Hs & Hlens & Hsyms & Hnd & Hk).
  change (Huffman.MAX_CODE_LEN + 1)%nat with 33%nat.
  induction fuel as [|fuel IH];
    intros done todo t currentCode currentLen Hes Hfuel Hbound Hstate Ht.
  - destruct todo; [|simpl in Hfuel; lia]. rewrite app_nil_r in Hes. subst done.
    simpl. exact Ht.
  - destruct todo as [|e todo'].
    { rewrite app_nil_r in Hes. subst done. simpl.
      rewrite lookup_ge_None_2 by (rewrite length_map; lia). exact Ht. }
    cbn [Huffman.tableLoop].
    assert (Hlook : map toEntry es !! length done = Some (toEntry e)).
    { rewrite Hes, map_app, lookup_app_r by (rewrite length_map; lia).
      rewrite length_map, Nat.sub_diag. reflexivity. }
    rewrite Hlook. cbn [Huffman.e_len toEntry].
    set (l := Huffman.len e).
    assert (Hl : 1 <= l <= 30).
    { rewrite Forall_forall in Hlens. apply Hlens. rewrite Hes.
      apply elem_of_app. right. left. }
    assert (Hdone_lt : Forall (fun x => Huffman.len x < l) done).
    { apply Forall_forall. intros x Hx. apply Hbound; [exact Hx|left]. }
    assert (Hdone_le : Forall (fun x => Huffman.len x <= l) done).
    { eapply Forall_impl; [exact Hdone_lt|]. simpl. intros. lia. }
    (* the block of entries of length l *)
    assert (Hs' : StronglySorted lenLe (e :: todo')).
    { rewrite Hes in Hs. apply sorted_app_r in Hs. exact Hs. }
    destruct (sorted_first_group e todo' Hs') as (grp & rest & Hsplit & Hgne & Hgrp & Hrest).
    fold l in Hgrp, Hrest.
    assert (Hes' : es = done ++ grp ++ rest) by (rewrite Hes, Hsplit; reflexivity).
    (* the code reached after the shift loop *)
    assert (Hcode : exists cl',
               match currentLen with
               | Some cl =>
                   if cl <? l
                   then (Nat.iter (Z.to_nat (l - cl)) (fun c => shl32 c 1) currentCode, Some l)
                   else (currentCode, Some cl)
               | None => (currentCode, None)
               end = (codeOf done l, cl')
               /\ cl' = Some l).
    { destruct done as [|d done0] eqn:Hd.
      - destruct Hstate as (-> & ->). fold l.
        rewrite Z.ltb_irrefl. exists (Some l). rewrite codeOf_nil. auto.
      - rewrite <- Hd in *.
        destruct Hstate as (d0 & pe & Hdone & -> & ->).
        assert (Hpe : Huffman.len pe < l).
        { apply Hbound; [|left]. rewrite Hdone. apply elem_of_app. right. left. }
        assert (Hpe1 : 1 <= Huffman.len pe).
        { rewrite Forall_forall in Hlens. apply Hlens. rewrite Hes, Hdone.
          apply elem_of_app. left. apply elem_of_app. right. left. }
        destruct (Z.ltb_spec (Huffman.len pe) l) as [_|]; [|lia].
        exists (Some l). split; [|reflexivity]. f_equal.
        assert (Hd0 : Forall (fun x => Huffman.len x <= Huffman.len pe) d0).
        { rewrite Hes, Hdone, <- !app_assoc in Hs.
          apply sorted_prefix_le in Hs. exact Hs. }
        rewrite Hdone, (codeOf_next d0 pe l Hd0) by lia.
        assert (Hrange : 0 <= codeOf (d0 ++ [pe]) l < 2 ^ l).
        { rewrite <- Hdone.
          apply (goodTable_code_range done e todo'). rewrite <- Hes. exact Hgood. }
        rewrite (codeOf_next d0 pe l Hd0) in Hrange by lia.
        assert (2 ^ l <= 2 ^ 30) by (apply Z.pow_le_mono_r; lia).
        pose proof (codeOf_nonneg d0 (Huffman.len pe) ltac:(lia)).
        rewrite iter_shl32; rewrite ?Z2Nat.id by lia; try lia. }
    destruct Hcode as (cl' & Hcode & ->). rewrite Hcode. clear Hcode.
    destruct (Z.ltb_spec 32 l) as [|_]; [lia|].
    (* the count of the block *)
    assert (Hcount : aget (foldl Huffman.countLen (zeros 33)
                                 (map toEntry es)) (Z.to_nat l)
                     = Z.of_nat (length grp)).
    { destruct (lenCounts_spec es) with (a := zeros 33) (k := Z.to_nat l) as (_ & ->).
      - eapply Forall_impl; [exact Hlens|]. simpl. intros. lia.
      - reflexivity.
      - rewrite Z2Nat.id by lia. rewrite Hes', !lenCount_app.
        rewrite (lenCount_none l done), (lenCount_all l grp Hgrp), (lenCount_none l rest).
        + unfold aget, zeros. rewrite lookup_replicate_2 by lia. simpl. lia.
        + eapply Forall_impl; [exact Hrest|]. simpl. intros. lia.
        + eapply Forall_impl; [exact Hdone_lt|]. simpl. intros. lia. }
    rewrite Hcount.
    assert (Hglen : (0 < length grp)%nat) by (destruct grp; [contradiction|simpl; lia]).
    assert (Hrange : 0 <= codeOf done l /\ codeOf (done ++ grp) l <= 2 ^ l).
    { split; [apply codeOf_nonneg; lia|].
      (* the last entry of the block has a code below 2^l *)
      destruct (exists_last Hgne) as (g0 & ge & Hlast).
      assert (Hge : Huffman.len ge = l).
      { rewrite Forall_forall in Hgrp. apply Hgrp. rewrite Hlast.
        apply elem_of_app. right. left. }
      assert (Hr : 0 <= codeOf (done ++ g0) (Huffman.len ge) < 2 ^ Huffman.len ge).
      { apply (goodTable_code_range (done ++ g0) ge rest).
        rewrite <- app_assoc. simpl.
        replace (g0 ++ ge :: rest) with ((g0 ++ [ge]) ++ rest)
          by (rewrite <- app_assoc; reflexivity).
        rewrite <- Hlast, <- Hes'. exact Hgood. }
      rewrite Hge in Hr.
      assert (Hg0 : Forall (fun x => Huffman.len x = l) g0).
      { rewrite Hlast in Hgrp. apply Forall_app in Hgrp as (H & _). exact H. }
      rewrite codeOf_group in Hr |- * by (auto; lia).
      rewrite Hlast, length_app. simpl. lia. }
    rewrite codeOf_group in Hrange by (auto; lia).
    assert (2 ^ l <= 2 ^ 30) by (apply Z.pow_le_mono_r; lia).
    destruct Ht as (Hm1 & Hm2 & Hm3 & Hall & Hdone).
    assert (Hdlen : Z.of_nat (length done) <= 2 ^ 30).
    { pose proof (goodTable_length es Hgood) as Hle.
      rewrite Hes, length_app in Hle. lia. }
    set (t' := {| Huffman.minCode := Huffman.store32 (Huffman.minCode t) l (codeOf done l);
                  Huffman.maxCode := Huffman.store32 (Huffman.maxCode t) l
                                       (codeOf done l + Z.of_nat (length grp) - 1);
                  Huffman.valPtr := Huffman.store32 (Huffman.valPtr t) l
                                       (Z.of_nat (length done)) |}).
    assert (Hgroup : groupAt es l t').
    { exists done, grp, rest. unfold t', Huffman.store32. simpl.
      rewrite !aget_aset_eq by lia. rewrite !wrap32_small by lia.
      repeat split; auto. }
    assert (Hother : forall l', 0 <= l' < 32 -> l' <> l -> groupAt es l' t -> groupAt es l' t').
    { intros l' Hl' Hne. apply groupAt_other; unfold t', Huffman.store32; simpl;
        apply aget_aset_ne; lia. }
    replace (length done + Z.to_nat (Z.of_nat (length grp)))%nat
      with (length (done ++ grp)) by (rewrite length_app; lia).
    replace (Z.of_nat (length done) + Z.of_nat (length grp))
      with (Z.of_nat (length (done ++ grp))) by (rewrite length_app; lia).
    apply (IH (done ++ grp) rest).
    + rewrite <- app_assoc. exact Hes'.
    + assert (length (e :: todo') = (length grp + length rest)%nat)
        by (rewrite Hsplit, length_app; reflexivity).
      simpl in *. lia.
    + intros x y Hx Hy.
      rewrite Forall_forall in Hrest. specialize (Hrest y Hy).
      apply elem_of_app in Hx as [Hx|Hx].
      * rewrite Forall_forall in Hdone_lt. specialize (Hdone_lt x Hx). lia.
      * rewrite Forall_forall in Hgrp. specialize (Hgrp x Hx). lia.
    + destruct (exists_last Hgne) as (g0 & ge & Hlast).
      assert (Hge : Huffman.len ge = l).
      { rewrite Forall_forall in Hgrp. apply Hgrp. rewrite Hlast.
        apply elem_of_app. right. left. }
      assert (Hg0 : Forall (fun x => Huffman.len x = l) g0).
      { rewrite Hlast in Hgrp. apply Forall_app in Hgrp as (H' & _). exact H'. }
      destruct (done ++ grp) as [|x xs] eqn:Hdg.
      { destruct done; destruct grp; try discriminate. contradiction. }
      rewrite <- Hdg. exists (done ++ g0), ge.
      rewrite Hlast, app_assoc. split; [reflexivity|].
      rewrite Hge. split; [|reflexivity].
      rewrite codeOf_group by (auto; lia).
      rewrite length_app. simpl. lia.
    + unfold tablesUpTo. unfold t' at 1 2 3. unfold Huffman.store32. simpl.
      rewrite !length_aset.
      split; [exact Hm1|]. split; [exact Hm2|]. split; [exact Hm3|]. split.
      * intros l' Hl'. destruct (Z.eq_dec l' l) as [->|Hne]; [right; exact Hgroup|].
        destruct (Hall l' Hl') as [Hm|Hg].
        -- left. unfold t', Huffman.store32. simpl. rewrite aget_aset_ne by lia. exact Hm.
        -- right. apply Hother; auto.
      * intros x Hx. apply elem_of_app in Hx as [Hx|Hx].
        -- rewrite Forall_forall in Hdone_lt. pose proof (Hdone_lt x Hx).
           apply Hother; [|lia|apply Hdone, Hx].
           rewrite Forall_forall in Hlens.
           assert (1 <= Huffman.len x <= 30); [|lia].
           apply Hlens. rewrite Hes. apply elem_of_app. left. exact Hx.
        -- rewrite Forall_forall in Hgrp. rewrite (Hgrp x Hx). exact Hgroup.
Qed.

(** ** The decoder's bit reader *)

Lemma split_before {T : Type} (P : T -> Prop) (A B pre rest : list T) (e : T) :
  A ++ B = pre ++ e :: rest -> Forall P A -> ~ P e ->
  exists k, pre = A ++ k /\ B = k ++ e :: rest.
Proof.
  revert pre. induction A as [|a A IH]; intros pre Heq HA He.
  - exists pre. auto.
  - destruct pre as [|p pre].
    + simpl in Heq. injection Heq as -> _. inversion HA; subst. contradiction.
    + simpl in Heq. injection Heq as -> Heq.
      destruct (IH pre Heq) as (k & -> & ->); [inversion HA; assumption|exact He|].
      exists k. auto.
Qed.

Lemma split_inside {T : Type} (R : T -> Prop) (grp restg k rest : list T) (e : T) :
  grp ++ restg = k ++ e :: rest -> Forall (fun x => ~ R x) restg -> R e ->
  exists g2, grp = k ++ e :: g2.
Proof.
  revert grp. induction k as [|x k IH]; intros grp Heq Hrest He.
  - destruct grp as [|g grp].
    + simpl in Heq. subst restg. inversion Hrest; subst. contradiction.
    + simpl in Heq. injection Heq as -> _. exists grp. reflexivity.
  - destruct grp as [|g grp].
    + simpl in Heq. subst restg. exfalso.
      rewrite Forall_forall in Hrest. apply (Hrest e); [|exact He].
      right. apply elem_of_app. right. left.
    + simpl in Heq. injection Heq as -> Heq.
      destruct (IH grp Heq Hrest He) as (g2 & ->). exists g2. reflexivity.
Qed.

Lemma testbit_byte_high (b i : Z) : isByte b -> 8 <= i -> Z.testbit b i = false.
Proof.
  unfold isByte. intros Hb Hi.
  destruct (Z.eq_dec b 0) as [->|Hne]; [apply Z.bits_0|].
  apply Z.bits_above_log2; [lia|].
  assert (Z.log2 b < 8); [|lia]. apply Z.log2_lt_pow2; lia.
Qed.

(** One refill step keeps the pending bits. *)
Lemma refill_bits (acc byte bits : Z) :
  isByte byte -> 0 <= bits < 24 ->
  bitsOf (or32 (shl32 acc 8) byte) (bits + 8) = bitsOf acc bits ++ byteBits byte.
Proof.
  intros Hb Hbits. unfold bitsOf, byteBits.
  rewrite Z2Nat.inj_add by lia. change (Z.to_nat 8) with 8%nat.
  rewrite bitsN_split. f_equal.
  - apply bitsN_ext. intros i Hi. change (Z.of_nat 8) with 8.
    rewrite Z.div_pow2_bits by lia.
    rewrite testbit_or32, testbit_shl32 by lia.
    destruct (Z.ltb_spec (i + 8) 8); [lia|].
    rewrite (testbit_byte_high byte) by (auto; lia).
    rewrite orb_false_r. f_equal. lia.
  - apply bitsN_ext. intros i Hi. change (Z.of_nat 8) with 8 in Hi.
    rewrite testbit_or32, testbit_shl32 by lia.
    destruct (Z.ltb_spec i 8); [|lia]. reflexivity.
Qed.

Lemma fill_spec (data : list Z) (fuel : nat) :
  Forall isByte data ->
  forall (p : nat) (acc bits : Z),
    0 <= bits <= 31 ->
    24 <= bits + 8 * (Z.of_nat fuel - 1) ->
    exists p' acc' bits',
      Huffman.fill fuel data p acc bits = (p', acc', bits')
      /\ bitsOf acc' bits' ++ flat_map byteBits (drop p' data)
         = bitsOf acc bits ++ flat_map byteBits (drop p data)
      /\ 0 <= bits' <= 31
      /\ (24 <= bits' \/ (length data <= p')%nat).
Proof.
  intros Hdata. induction fuel as [|fuel IH]; intros p acc bits Hbits Hfuel.
  - exists p, acc, bits. simpl. repeat split; auto; lia.
  - cbn [Huffman.fill].
    destruct (Z.ltb_spec bits 24) as [Hlt|Hge]; simpl.
    + destruct (Nat.ltb_spec p (length data)) as [Hp|Hp].
      * destruct (lookup_lt_is_Some_2 data p Hp) as (byte & Hbyte).
        assert (Hb : isByte byte) by (eapply Forall_lookup_1; eauto).
        assert (Hget : aget data p = byte) by (unfold aget; rewrite Hbyte; reflexivity).
        rewrite Hget.
        destruct (IH (p + 1)%nat (or32 (shl32 acc 8) byte) (bits + 8))
          as (p' & acc' & bits' & Hfill & Hstream & Hb' & Hdone); [lia|lia|].
        exists p', acc', bits'. split; [exact Hfill|]. split; [|auto].
        rewrite Hstream, refill_bits by (auto; lia).
        rewrite (drop_S data byte p Hbyte). rewrite Nat.add_1_r.
        rewrite <- app_assoc. reflexivity.
      * exists p, acc, bits. repeat split; auto; lia.
    + exists p, acc, bits. repeat split; auto; lia.
Qed.

(** Reading the bits of the canonical code of the entry [e] yields its
    symbol and consumes exactly its length. *)
Lemma readSymbol_spec (es pre rest : list Huffman.CodeLen) (e : Huffman.CodeLen)
      (t : Huffman.Tables) (acc bits : Z) :
  goodTable es -> tablesUpTo es es t -> es = pre ++ e :: rest ->
  Huffman.len e <= bits <= 31 ->
  (forall m, 0 <= m < Huffman.len e ->
             Z.testbit acc (bits - 1 - m)
             = Z.testbit (codeOf pre (Huffman.len e)) (Huffman.len e - 1 - m)) ->
  Huffman.readSymbol 30 t (map Huffman.symbol es) acc bits 0 0
  = (Some (Huffman.symbol e), bits - Huffman.len e).
Proof.
  intros Hgood (_ & _ & _ & Hall & Hgroups) Hes Hbits Hacc.
  set (L := Huffman.len e) in *. set (c := codeOf pre L) in *.
  destruct (goodTable_code_range pre e rest) as (HL & Hc); [rewrite <- Hes; exact Hgood|].
  fold L in HL, Hc. fold c in Hc.
  pose proof Hgood as (Hs & Hlens & _ & _ & _).
  assert (Hpre : Forall (fun x => Huffman.len x <= L) pre).
  { rewrite Hes in Hs. apply sorted_prefix_le in Hs. exact Hs. }
  assert (Hstep : forall (k : nat) (j : Z) (fuel : nat),
             0 <= j -> j + Z.of_nat (S k) = L -> (S k <= fuel)%nat ->
             Huffman.readSymbol fuel t (map Huffman.symbol es) acc (bits - j) j
                                (c / 2 ^ (L - j))
             = (Some (Huffman.symbol e), bits - L)).
  { induction k as [|k IH]; intros j fuel Hj HjL Hfuel;
      (destruct fuel as [|fuel]; [lia|]); cbn [Huffman.readSymbol].
    all: destruct (Z.eqb_spec (bits - j) 0) as [|_]; [lia|].
    all: rewrite and32_shr32_bit by lia.
    all: replace (bits - j - 1) with (bits - 1 - j) by lia.
    all: rewrite Hacc by lia.
    all: assert (Hq : 0 <= c / 2 ^ (L - j) < 2 ^ 29)
      by (split; [apply Z.div_pos; [lia|apply Z.pow_pos_nonneg; lia]|];
          apply Z.lt_le_trans with (2 ^ j);
          [apply Z.div_lt_upper_bound; [apply Z.pow_pos_nonneg; lia|];
           rewrite <- Z.pow_add_r by lia; replace (L - j + j) with L by lia; lia
          |apply Z.pow_le_mono_r; lia]).
    all: rewrite or32_shl32_bit by exact Hq.
    all: replace (L - j) with (L - 1 - j + 1) by lia.
    all: rewrite <- div_pow2_step by lia.
    - (* the last bit: the code is complete *)
      replace (L - 1 - j) with 0 by lia. rewrite Z.pow_0_r, Z.div_1_r.
      replace (j + 1) with L by lia.
      destruct (Hgroups e) as (pg & grp & rg & Hsplit & Hpg & Hgrp & Hgne & Hrg
                               & Hmin & Hmax & Hval).
      { rewrite Hes. apply elem_of_app. right. left. }
      fold L in Hsplit, Hpg, Hgrp, Hrg, Hmin, Hmax, Hval.
      destruct (split_before (fun x => Huffman.len x < L) pg (grp ++ rg) pre rest e)
        as (g1 & Hpre_eq & Hrest_eq).
      { rewrite <- Hsplit. exact Hes. }
      { exact Hpg. }
      { fold L. lia. }
      destruct (split_inside (fun x => Huffman.len x = L) grp rg g1 rest e)
        as (g2 & Hgrp_eq).
      { exact Hrest_eq. }
      { eapply Forall_impl; [exact Hrg|]. simpl. intros. lia. }
      { reflexivity. }
      assert (Hg1 : Forall (fun x => Huffman.len x = L) g1).
      { rewrite Hgrp_eq in Hgrp. apply Forall_app in Hgrp as (H & _). exact H. }
      assert (Hpg_le : Forall (fun x => Huffman.len x <= L) pg).
      { eapply Forall_impl; [exact Hpg|]. simpl. intros. lia. }
      assert (Hcval : c = codeOf pg L + Z.of_nat (length g1)).
      { unfold c. rewrite Hpre_eq. apply codeOf_group; auto. lia. }
      assert (Hglen : length grp = (length g1 + 1 + length g2)%nat).
      { rewrite Hgrp_eq, length_app. simpl. lia. }
      pose proof (codeOf_nonneg pg L ltac:(lia)).
      rewrite Hmax, Hmin, Hval.
      destruct (Z.eqb_spec (codeOf pg L + Z.of_nat (length grp) - 1) (-1)) as [|_]; [lia|].
      destruct (Z.leb_spec c (codeOf pg L + Z.of_nat (length grp) - 1)) as [_|]; [|lia].
      simpl.
      replace (Z.of_nat (length pg) + (c - codeOf pg L)) with (Z.of_nat (length pre))
        by (rewrite Hpre_eq, length_app; lia).
      destruct (Z.ltb_spec (Z.of_nat (length pre)) 0) as [|_]; [lia|].
      rewrite Nat2Z.id. unfold aget.
      rewrite Hes, map_app, lookup_app_r by (rewrite length_map; lia).
      rewrite length_map, Nat.sub_diag.
      replace (bits - 1 - j) with (bits - L) by lia. reflexivity.
    - (* a proper prefix: no code of this length matches *)
      set (l := j + 1).
      assert (Hcur : c / 2 ^ (L - 1 - j) = codeOf pre l).
      { replace (L - 1 - j) with (L - l) by (unfold l; lia).
        unfold c. apply codeOf_truncate; [exact Hpre|unfold l; lia]. }
      rewrite Hcur.
      assert (Hno : negb (aget (Huffman.maxCode t) (Z.to_nat l) =? -1)
                    && (codeOf pre l <=? aget (Huffman.maxCode t) (Z.to_nat l)) = false).
      { destruct (Hall l ltac:(unfold l; lia)) as [Hm|Hg].
        - rewrite Hm. reflexivity.
        - destruct Hg as (pg & grp & rg & Hsplit & Hpg & Hgrp & Hgne & Hrg
                          & Hmin & Hmax & Hval).
          destruct (split_before (fun x => Huffman.len x <= l) (pg ++ grp) rg pre rest e)
            as (k' & Hpre_eq & _).
          { rewrite <- app_assoc, <- Hsplit. exact Hes. }
          { apply Forall_app. split.
            - eapply Forall_impl; [exact Hpg|]. simpl. intros. lia.
            - eapply Forall_impl; [exact Hgrp|]. simpl. intros. lia. }
          { fold L. unfold l. lia. }
          assert (Hle : codeOf (pg ++ grp) l <= codeOf pre l).
          { apply codeOf_mono; [unfold l; lia|].
            rewrite Hpre_eq, (kraftSum_app (pg ++ grp) k').
            pose proof (kraftSum_nonneg k'). lia. }
          rewrite codeOf_group in Hle.
          + rewrite Hmax. apply andb_false_iff. right. apply Z.leb_gt. lia.
          + eapply Forall_impl; [exact Hpg|]. simpl. intros. lia.
          + exact Hgrp.
          + unfold l. lia. }
      rewrite Hno.
      destruct (Z.leb_spec 30 l) as [|_]; [unfold l in *; lia|].
      rewrite <- Hcur.
      replace (L - 1 - j) with (L - l) by (unfold l; lia).
      replace (bits - 1 - j) with (bits - l) by (unfold l; lia).
      apply IH; unfold l; lia. }
  specialize (Hstep (Z.to_nat (L - 1)) 0 30%nat).
  rewrite !Z.sub_0_r in Hstep.
  rewrite (Z.div_small c (2 ^ L)) in Hstep by lia.
  apply Hstep; lia.
Qed.

(** ** The main decode loop *)

Lemma decodeLoop_appends (fuel : nat) (data : list Z) (startLen : option Z)
      (t : Huffman.Tables) (symbols : list Z) (limit : nat) :
  forall st, exists junk,
    Huffman.r_rle (Huffman.decodeLoop fuel data startLen t symbols limit st)
    = Huffman.r_rle st ++ junk.
Proof.
  induction fuel as [|fuel IH]; intros st; cbn [Huffman.decodeLoop].
  - exists []. rewrite app_nil_r. reflexivity.
  - destruct (_ || _); [|exists []; rewrite app_nil_r; reflexivity].
    destruct (Huffman.fill 4 data _ _ _) as [[p acc] bits].
    destruct (match startLen with Some sl => _ | None => false end);
      [exists []; simpl; rewrite app_nil_r; reflexivity|].
    destruct (Huffman.readSymbol 30 t symbols acc bits 0 0) as [[sym|] bits'];
      [|exists []; simpl; rewrite app_nil_r; reflexivity].
    destruct (_ <=? _)%nat.
    + exists [toUint8 sym]. reflexivity.
    + destruct (IH {| Huffman.r_p := p; Huffman.r_acc := acc; Huffman.r_bits := bits';
                      Huffman.r_rle := Huffman.r_rle st ++ [toUint8 sym] |}) as (junk & ->).
      exists (toUint8 sym :: junk). simpl. rewrite <- app_assoc. reflexivity.
Qed.

Lemma length_bitsOf (c l : Z) : length (bitsOf c l) = Z.to_nat l.
Proof. apply length_bitsN. Qed.

(** The loop decodes the symbols whose codes make up the stream, in order. *)
Lemma decodeLoop_spec (es : list Huffman.CodeLen) (t : Huffman.Tables) (data : list Z)
      (bitsFor : Z -> list bool) (limit : nat) (sl : Z) :
  goodTable es -> tablesUpTo es es t -> Forall isByte data ->
  Forall (fun e => sl <= Huffman.len e <= 24) es ->
  forall (syms : list Z) (st : Huffman.ReadState) (fuel : nat) (pad : list bool),
    Forall (hasCode es bitsFor) syms ->
    stream data st = flat_map bitsFor syms ++ pad ->
    0 <= Huffman.r_bits st <= 31 ->
    (length (Huffman.r_rle st) + length syms <= limit)%nat ->
    (limit <= length (Huffman.r_rle st) + fuel)%nat ->
    exists junk,
      Huffman.r_rle (Huffman.decodeLoop fuel data (Some sl) t (map Huffman.symbol es)
                                        limit st)
      = Huffman.r_rle st ++ syms ++ junk.
Proof.
  intros Hgood Ht Hdata Hsl.
  induction syms as [|s syms IH]; intros st fuel pad Hcodes Hstream Hbits Hlim Hfuel.
  - simpl. apply decodeLoop_appends.
  - apply Forall_cons in Hcodes as (Hs & Hcodes).
    destruct Hs as (pre & e & rest & Hes & Hsym & Hbs).
    set (L := Huffman.len e) in *. set (c := codeOf pre L) in *.
    destruct (goodTable_code_range pre e rest) as (HL & Hc); [rewrite <- Hes; exact Hgood|].
    fold L in HL, Hc. fold c in Hc.
    assert (Hbyte : isByte s).
    { destruct Hgood as (_ & _ & Hsyms & _). rewrite Forall_forall in Hsyms.
      rewrite <- Hsym. apply Hsyms. rewrite Hes. apply elem_of_app. right. left. }
    assert (Hsle : sl <= L <= 24).
    { rewrite Forall_forall in Hsl. apply Hsl. rewrite Hes. apply elem_of_app. right. left. }
    cbn [flat_map] in Hstream. rewrite Hbs, <- app_assoc in Hstream.
    destruct fuel as [|fuel]; [simpl in *; lia|].
    cbn [Huffman.decodeLoop].
    (* the loop condition *)
    assert (Hcond : (Huffman.r_p st <? length data)%nat || (0 <? Huffman.r_bits st) = true).
    { destruct (Nat.ltb_spec (Huffman.r_p st) (length data)) as [|Hp]; [reflexivity|].
      simpl. apply Z.ltb_lt.
      unfold stream in Hstream. rewrite drop_ge, app_nil_r in Hstream by lia.
      apply (f_equal length) in Hstream.
      rewrite length_app, !length_bitsOf in Hstream. lia. }
    rewrite Hcond.
    destruct (fill_spec data 4 Hdata (Huffman.r_p st) (Huffman.r_acc st) (Huffman.r_bits st))
      as (p & acc & bits & Hfill & Hkeep & Hbits' & Hfull); [lia|lia|].
    rewrite Hfill.
    unfold stream in Hstream. rewrite <- Hkeep in Hstream.
    (* enough bits are buffered *)
    assert (Henough : L <= bits).
    { destruct Hfull as [|Hp]; [lia|].
      rewrite drop_ge, app_nil_r in Hstream by lia.
      apply (f_equal length) in Hstream.
      rewrite length_app, !length_bitsOf in Hstream. lia. }
    assert (Hstop : (bits <? sl) && (length data <=? p)%nat = false).
    { apply andb_false_iff. left. apply Z.ltb_ge. lia. }
    rewrite Hstop.
    (* the buffered bits start with the code *)
    assert (Hsplit : bitsOf acc bits
                     = bitsN (acc / 2 ^ Z.of_nat (Z.to_nat (bits - L))) (Z.to_nat L)
                       ++ bitsOf acc (bits - L)).
    { unfold bitsOf. rewrite <- bitsN_split. f_equal. lia. }
    assert (Hhead : bitsN (acc / 2 ^ Z.of_nat (Z.to_nat (bits - L))) (Z.to_nat L) = bitsOf c L
                    /\ bitsOf acc (bits - L) ++ flat_map byteBits (drop p data)
                       = flat_map bitsFor syms ++ pad).
    { rewrite Hsplit, <- app_assoc in Hstream.
      apply app_inj_1 in Hstream; [exact Hstream|].
      rewrite length_bitsN, length_bitsOf. reflexivity. }
    destruct Hhead as (Hhead & Htail).
    assert (Hacc : forall m, 0 <= m < L ->
               Z.testbit acc (bits - 1 - m) = Z.testbit c (L - 1 - m)).
    { intros m Hm.
      assert (Hl1 : bitsOf acc bits !! Z.to_nat m
                    = Some (Z.testbit acc (Z.of_nat (Z.to_nat bits - 1 - Z.to_nat m))))
        by (apply lookup_bitsN; lia).
      assert (Hl2 : bitsOf c L !! Z.to_nat m
                    = Some (Z.testbit c (Z.of_nat (Z.to_nat L - 1 - Z.to_nat m))))
        by (apply lookup_bitsN; lia).
      rewrite Hsplit, Hhead, lookup_app_l in Hl1 by (rewrite length_bitsOf; lia).
      rewrite Hl2 in Hl1. injection Hl1 as Hl1.
      replace (bits - 1 - m) with (Z.of_nat (Z.to_nat bits - 1 - Z.to_nat m)) by lia.
      replace (L - 1 - m) with (Z.of_nat (Z.to_nat L - 1 - Z.to_nat m)) by lia.
      symmetry. exact Hl1. }
    rewrite (readSymbol_spec es pre rest e t acc bits Hgood Ht Hes ltac:(fold L; lia) Hacc).
    rewrite Hsym, (toUint8_byte s Hbyte). fold L.
    cbn [Huffman.r_rle].
    destruct (Nat.leb_spec limit (length (Huffman.r_rle st ++ [s]))) as [Hfullrle|Hmore].
    + rewrite length_app in Hfullrle. simpl in Hfullrle, Hlim.
      destruct syms; [|simpl in Hlim; lia].
      exists []. simpl. reflexivity.
    + rewrite length_app in Hmore. simpl in Hmore.
      destruct (IH {| Huffman.r_p := p; Huffman.r_acc := acc; Huffman.r_bits := bits - L;
                      Huffman.r_rle := Huffman.r_rle st ++ [s] |} fuel pad)
        as (junk & Hjunk); auto.
      * cbn [Huffman.r_bits]. lia.
      * cbn [Huffman.r_rle]. rewrite length_app. simpl in *. lia.
      * cbn [Huffman.r_rle]. rewrite length_app. simpl in *. lia.
      * exists junk. rewrite Hjunk. cbn [Huffman.r_rle].
        rewrite <- app_assoc. reflexivity.
Qed.

(** ** Sorting *)

Lemma insertBy_perm {A : Type} (le : A -> A -> bool) (a : A) (l : list A) :
  Permutation (Huffman.insertBy le a l) (a :: l).
Proof.
  induction l as [|b l IH]; simpl; [reflexivity|].
  destruct (le a b); [reflexivity|].
  rewrite IH. apply perm_swap.
Qed.

Lemma sortBy_perm {A : Type} (le : A -> A -> bool) (l : list A) :
  Permutation (Huffman.sortBy le l) l.
Proof.
  induction l as [|a l IH]; simpl; [reflexivity|].
  unfold Huffman.sortBy in *. simpl. rewrite insertBy_perm, IH. reflexivity.
Qed.

Lemma insertBy_sorted {A : Type} (le : A -> A -> bool) (a : A) (l : list A) :
  (forall x y, le x y = false -> le y x = true) ->
  Sorted (fun x y => le x y = true) l ->
  Sorted (fun x y => le x y = true) (Huffman.insertBy le a l).
Proof.
  intros Htotal. induction 1 as [|b l Hs IH Hhd]; simpl.
  - repeat constructor.
  - destruct (le a b) eqn:Hab.
    + constructor; [constructor; assumption|]. constructor. exact Hab.
    + constructor; [exact IH|].
      destruct l as [|c l]; simpl.
      * constructor. apply Htotal, Hab.
      * destruct (le a c); constructor; [apply Htotal, Hab|].
        inversion Hhd; assumption.
Qed.

Lemma sortBy_sorted {A : Type} (le : A -> A -> bool) (l : list A) :
  (forall x y, le x y = false -> le y x = true) ->
  Sorted (fun x y => le x y = true) (Huffman.sortBy le l).
Proof.
  intros Htotal. induction l as [|a l IH]; [constructor|].
  unfold Huffman.sortBy in *. simpl. apply insertBy_sorted; assumption.
Qed.

(** Sorting a sorted list changes nothing. *)
Lemma sortBy_id {A : Type} (le : A -> A -> bool) (l : list A) :
  Sorted (fun x y => le x y = true) l -> Huffman.sortBy le l = l.
Proof.
  induction 1 as [|a l Hs IH Hhd]; [reflexivity|].
  unfold Huffman.sortBy in *. simpl. rewrite IH.
  destruct Hhd as [|b l Hab]; simpl; [reflexivity|]. rewrite Hab. reflexivity.
Qed.

Lemma insertBy_map {A B : Type} (f : A -> B) (le1 : A -> A -> bool)
      (le2 : B -> B -> bool) (a : A) (l : list A) :
  (forall x y, le2 (f x) (f y) = le1 x y) ->
  Huffman.insertBy le2 (f a) (map f l) = map f (Huffman.insertBy le1 a l).
Proof.
  intros Hle. induction l as [|b l IH]; simpl; [reflexivity|].
  rewrite Hle. destruct (le1 a b); simpl; [reflexivity|]. rewrite IH. reflexivity.
Qed.

Lemma sortBy_map {A B : Type} (f : A -> B) (le1 : A -> A -> bool)
      (le2 : B -> B -> bool) (l : list A) :
  (forall x y, le2 (f x) (f y) = le1 x y) ->
  Huffman.sortBy le2 (map f l) = map f (Huffman.sortBy le1 l).
Proof.
  intros Hle. induction l as [|a l IH]; [reflexivity|].
  unfold Huffman.sortBy in *. simpl. rewrite IH. apply insertBy_map, Hle.
Qed.

Lemma canonicalLe_total (x y : Huffman.CodeLen) :
  Huffman.canonicalLe x y = false -> Huffman.canonicalLe y x = true.
Proof.
  unfold Huffman.canonicalLe. intros H. apply Z.leb_gt in H. apply Z.leb_le.
  destruct (Z.eqb_spec (Huffman.len x) (Huffman.len y)) as [Heq|Hne].
  - rewrite Heq, Z.eqb_refl. lia.
  - destruct (Z.eqb_spec (Huffman.len y) (Huffman.len x)); lia.
Qed.

Lemma canonicalLe_len (x y : Huffman.CodeLen) :
  Huffman.canonicalLe x y = true -> lenLe x y.
Proof.
  unfold Huffman.canonicalLe, lenLe. intros H. apply Z.leb_le in H.
  destruct (Z.eqb_spec (Huffman.len x) (Huffman.len y)); lia.
Qed.

Lemma entryLe_toEntry (x y : Huffman.CodeLen) :
  Huffman.entryLe (toEntry x) (toEntry y) = Huffman.canonicalLe x y.
Proof.
  unfold Huffman.entryLe, Huffman.canonicalLe, toEntry. simpl.
  destruct (Z.eqb_spec (Huffman.len x) (Huffman.len y)) as [Heq|Hne].
  - rewrite bool_decide_eq_true_2 by (f_equal; exact Heq). reflexivity.
  - rewrite bool_decide_eq_false_2 by (intros [= H]; contradiction). reflexivity.
Qed.

Lemma sorted_lenLe (es : list Huffman.CodeLen) :
  Sorted (fun x y => Huffman.canonicalLe x y = true) es -> StronglySorted lenLe es.
Proof.
  intros Hs. apply Sorted_StronglySorted.
  - intros x y z. unfold lenLe. lia.
  - induction Hs as [|a l Hs IH Hhd]; constructor; [exact IH|].
    destruct Hhd; constructor. apply canonicalLe_len. assumption.
Qed.

Lemma kraftSum_perm (a b : list Huffman.CodeLen) :
  Permutation a b -> kraftSum a = kraftSum b.
Proof. induction 1; simpl; lia. Qed.

(** ** Frequencies and the code-length tree *)

Lemma bump_keys (v : Z) (m : list (Z * Z)) :
  map fst (Huffman.bump v m)
  = if bool_decide (v ∈ map fst m) then map fst m else map fst m ++ [v].
Proof.
  induction m as [|[k c] m IH]; simpl; [reflexivity|].
  destruct (Z.eqb_spec k v) as [->|Hne]; simpl.
  - rewrite bool_decide_eq_true_2 by left. reflexivity.
  - rewrite IH. destruct (bool_decide_reflect (v ∈ map fst m)) as [Hin|Hnin].
    + rewrite bool_decide_eq_true_2 by (right; exact Hin). reflexivity.
    + rewrite bool_decide_eq_false_2; [reflexivity|].
      intros Hin. apply elem_of_cons in Hin as [->|Hin]; contradiction.
Qed.

Lemma countFreqs_keys (rle : list Z) :
  NoDup (map fst (Huffman.countFreqs rle))
  /\ forall s, s ∈ map fst (Huffman.countFreqs rle) <-> s ∈ rle.
Proof.
  unfold Huffman.countFreqs.
  assert (H : forall (m : list (Z * Z)),
             NoDup (map fst m) ->
             NoDup (map fst (foldl (fun m v => Huffman.bump v m) m rle))
             /\ forall s, s ∈ map fst (foldl (fun m v => Huffman.bump v m) m rle)
                          <-> s ∈ map fst m \/ s ∈ rle).
  { induction rle as [|v rle IH]; intros m Hm; simpl.
    - split; [exact Hm|]. intros s. split; [auto|]. intros [H|H]; [exact H|inversion H].
    - destruct (IH (Huffman.bump v m)) as (Hnd & Hin).
      + rewrite bump_keys. destruct (bool_decide_reflect (v ∈ map fst m)); [exact Hm|].
        apply NoDup_app. repeat split; [exact Hm| |apply NoDup_singleton].
        intros x Hx Hx'. apply list_elem_of_singleton in Hx'. subst. contradiction.
      + split; [exact Hnd|]. intros s. rewrite Hin, bump_keys.
        destruct (bool_decide_reflect (v ∈ map fst m)) as [Hv|Hv].
        * rewrite elem_of_cons. split; [tauto|]. intros [H|[->|H]]; auto.
        * rewrite elem_of_app, list_elem_of_singleton, elem_of_cons. tauto. }
  destruct (H [] (NoDup_nil_2)) as (Hnd & Hin).
  split; [exact Hnd|]. intros s. rewrite Hin. split; [|auto].
  intros [H'|H']; [inversion H'|exact H'].
Qed.

Lemma walk_symbols (n : Huffman.Node) (d : Z) :
  map Huffman.symbol (Huffman.walk n d) = leafSyms n.
Proof.
  revert d. induction n as [f s|f l IHl r IHr]; intros d; simpl; [reflexivity|].
  rewrite map_app, IHl, IHr. reflexivity.
Qed.

Lemma walk_lens (n : Huffman.Node) (d : Z) :
  0 <= d -> Forall (fun e => 1 <= Huffman.len e /\ d <= Huffman.len e) (Huffman.walk n d).
Proof.
  revert d. induction n as [f s|f l IHl r IHr]; intros d Hd; simpl.
  - constructor; [|constructor]. simpl. destruct (Z.eqb_spec d 0); lia.
  - apply Forall_app. split.
    + eapply Forall_impl; [apply IHl; lia|]. simpl. intros. lia.
    + eapply Forall_impl; [apply IHr; lia|]. simpl. intros. lia.
Qed.

Lemma walk_nonempty (n : Huffman.Node) (d : Z) : Huffman.walk n d <> [].
Proof.
  revert d. induction n as [f s|f l IHl r IHr]; intros d; simpl; [discriminate|].
  intros H. apply app_eq_nil in H as (H & _). exact (IHl _ H).
Qed.

(** The lengths read off a subtree at depth [d] add up to the weight of [d]. *)
Lemma walk_kraft (n : Huffman.Node) (d : Z) :
  0 <= d -> (1 <= d \/ ~ isLeaf n) ->
  Forall (fun e => Huffman.len e <= 30) (Huffman.walk n d) ->
  kraftSum (Huffman.walk n d) = weight d.
Proof.
  revert d. induction n as [f s|f l IHl r IHr]; intros d Hd Hroot Hlens; simpl in *.
  - destruct Hroot as [Hd1|Hnl]; [|exfalso; apply Hnl; exact I].
    destruct (Z.eqb_spec d 0); [lia|]. lia.
  - apply Forall_app in Hlens as (Hl & Hr).
    assert (Hd30 : d + 1 <= 30).
    { pose proof (walk_lens l (d + 1) ltac:(lia)) as Hge.
      destruct (Huffman.walk l (d + 1)) as [|e w] eqn:Hw; [exfalso; exact (walk_nonempty _ _ Hw)|].
      inversion Hge; subst. inversion Hl; subst. lia. }
    rewrite kraftSum_app, IHl, IHr by (auto; lia).
    unfold weight. replace (30 - d) with (30 - (d + 1) + 1) by lia.
    rewrite Z.pow_add_r by lia. lia.
Qed.

Lemma buildTree_spec (fuel : nat) :
  forall (queue : list Huffman.Node),
    queue <> [] -> (length queue <= S fuel)%nat ->
    exists root,
      Huffman.buildTree fuel queue = [root]
      /\ Permutation (leafSyms root) (flat_map leafSyms queue)
      /\ ((forall f s, queue <> [Huffman.Leaf f s]) -> ~ isLeaf root).
Proof.
  assert (Hsingle : forall fuel a, Huffman.buildTree fuel [a] = [a])
    by (intros [|?] ?; reflexivity).
  assert (Hone : forall a : Huffman.Node,
             (forall f s, [a] <> [Huffman.Leaf f s]) -> ~ isLeaf a).
  { intros [f s|f l r] H Hleaf; [exact (H f s eq_refl)|exact Hleaf]. }
  induction fuel as [|fuel IH]; intros queue Hne Hlen.
  - destruct queue as [|a [|b q]]; [contradiction| |simpl in Hlen; lia].
    exists a. rewrite Hsingle. simpl. rewrite app_nil_r. auto.
  - destruct queue as [|a [|b q]]; [contradiction| |].
    + exists a. rewrite Hsingle. simpl. rewrite app_nil_r. auto.
    + cbn [Huffman.buildTree].
      set (parent := Huffman.Inner (Huffman.freq a + Huffman.freq b) a b).
      pose proof (insertBy_perm Huffman.leFreq parent q) as Hperm.
      destruct (IH (Huffman.insertBy Huffman.leFreq parent q)) as (root & Hroot & Hsyms & Hinner).
      * intros Hnil. rewrite Hnil in Hperm. apply Permutation_nil in Hperm. discriminate.
      * apply Permutation_length in Hperm. rewrite Hperm. simpl in *. lia.
      * exists root. split; [exact Hroot|]. split.
        -- rewrite Hsyms, Hperm. simpl. rewrite <- app_assoc. reflexivity.
        -- intros _. apply Hinner. intros f s Heq.
           rewrite Heq in Hperm. apply Permutation_length in Hperm as Hl.
           destruct q; [|simpl in Hl; lia].
           apply Permutation_length_1 in Hperm. discriminate.
Qed.

Lemma leaves_symbols (freqs : list (Z * Z)) :
  flat_map leafSyms (map (fun '(s, f) => Huffman.Leaf f s) freqs) = map fst freqs.
Proof.
  induction freqs as [|[s f] freqs IH]; simpl; [reflexivity|]. rewrite IH. reflexivity.
Qed.

Lemma buildCodeLengths_spec (freqs : list (Z * Z)) :
  freqs <> [] ->
  Forall (fun e => Huffman.len e <= 30) (Huffman.buildCodeLengths freqs) ->
  Permutation (map Huffman.symbol (Huffman.buildCodeLengths freqs)) (map fst freqs)
  /\ Forall (fun e => 1 <= Huffman.len e) (Huffman.buildCodeLengths freqs)
  /\ kraftSum (Huffman.buildCodeLengths freqs) <= 2 ^ 30.
Proof.
  intros Hne. unfold Huffman.buildCodeLengths.
  set (leaves := map (fun '(s, f) => Huffman.Leaf f s) freqs).
  set (queue := Huffman.sortBy (fun a b => Huffman.freq a - Huffman.freq b <=? 0) leaves).
  assert (Hperm : Permutation queue leaves) by apply sortBy_perm.
  assert (Hkeys : Permutation (flat_map leafSyms queue) (map fst freqs)).
  { rewrite <- leaves_symbols. fold leaves. apply Permutation_flat_map, Hperm. }
  assert (Hqne : queue <> []).
  { intros Hq. rewrite Hq in Hperm. apply Permutation_nil in Hperm.
    unfold leaves in Hperm. destruct freqs; [contradiction|discriminate]. }
  assert (Hbuild : (forall f s, queue <> [Huffman.Leaf f s]) ->
             forall cl, cl = match Huffman.buildTree (length queue) queue with
                             | root :: _ => Huffman.walk root 0
                             | [] => []
                             end ->
             Forall (fun e => Huffman.len e <= 30) cl ->
             Permutation (map Huffman.symbol cl) (map fst freqs)
             /\ Forall (fun e => 1 <= Huffman.len e) cl
             /\ kraftSum cl <= 2 ^ 30).
  { intros Hnotleaf cl Hcl.
    destruct (buildTree_spec (length queue) queue Hqne ltac:(lia))
      as (root & Hroot & Hsyms & Hinner).
    rewrite Hroot in Hcl. subst cl. intros Hlens.
    split; [rewrite walk_symbols, Hsyms; exact Hkeys|]. split.
    - eapply Forall_impl; [apply walk_lens; lia|]. simpl. intros. lia.
    - rewrite walk_kraft; auto; [unfold weight; simpl; lia|lia]. }
  clearbody queue. clear Hperm leaves.
  destruct queue as [|a q]; [contradiction|].
  destruct a as [f s|f l r].
  - destruct q as [|b q].
    + intros _. simpl in Hkeys. simpl.
      split; [exact Hkeys|]. split; [repeat constructor; simpl; lia|].
      unfold weight. simpl. lia.
    + apply Hbuild; [|reflexivity]. intros f' s'. discriminate.
  - apply Hbuild; [|reflexivity]. intros f' s'. discriminate.
Qed.

(** The code table the encoder works with. *)
Lemma sortedCodeLens_spec (rle : list Z) :
  rle <> [] -> Forall isByte rle ->
  Forall (fun e => Huffman.len e <= 30) (Huffman.sortedCodeLens rle) ->
  goodTable (Huffman.sortedCodeLens rle)
  /\ Sorted (fun x y => Huffman.canonicalLe x y = true) (Huffman.sortedCodeLens rle)
  /\ (forall s, s ∈ rle <-> s ∈ map Huffman.symbol (Huffman.sortedCodeLens rle)).
Proof.
  intros Hne Hbytes Hlens. unfold Huffman.sortedCodeLens in *.
  set (cl := Huffman.buildCodeLengths (Huffman.countFreqs rle)) in *.
  pose proof (sortBy_perm Huffman.canonicalLe cl) as Hperm.
  destruct (countFreqs_keys rle) as (Hnd & Hkeys).
  assert (Hfne : Huffman.countFreqs rle <> []).
  { destruct rle as [|v rle]; [contradiction|].
    intros Hnil. specialize (Hkeys v). rewrite Hnil in Hkeys.
    destruct Hkeys as (_ & Hk). specialize (Hk ltac:(left)). inversion Hk. }
  destruct (buildCodeLengths_spec (Huffman.countFreqs rle) Hfne) as (Hsyms & Hge1 & Hkraft).
  { fold cl. eapply Permutation_Forall; [exact Hperm|exact Hlens]. }
  fold cl in Hsyms, Hge1, Hkraft.
  assert (Hsyms' : Permutation (map Huffman.symbol (Huffman.sortBy Huffman.canonicalLe cl))
                               (map fst (Huffman.countFreqs rle))).
  { rewrite <- Hsyms. apply Permutation_map, Hperm. }
  assert (Hsorted : Sorted (fun x y => Huffman.canonicalLe x y = true)
                           (Huffman.sortBy Huffman.canonicalLe cl))
    by (apply sortBy_sorted, canonicalLe_total).
  assert (Hmem : forall s, s ∈ rle
                           <-> s ∈ map Huffman.symbol (Huffman.sortBy Huffman.canonicalLe cl)).
  { intros s. rewrite <- Hkeys. rewrite Hsyms'. reflexivity. }
  split; [|split; [exact Hsorted|exact Hmem]].
  unfold goodTable. split; [apply sorted_lenLe, Hsorted|]. split.
  - apply Forall_forall. intros e He. split.
    + rewrite Forall_forall in Hge1. apply Hge1. rewrite <- Hperm. exact He.
    + rewrite Forall_forall in Hlens. apply Hlens, He.
  - split.
    + apply Forall_forall. intros e He.
      rewrite Forall_forall in Hbytes. apply Hbytes, Hmem.
      apply list_elem_of_fmap. exists e. auto.
    + split.
      * rewrite Hsyms'. exact Hnd.
      * rewrite (kraftSum_perm _ cl Hperm). exact Hkraft.
Qed.

(** ** The Huffman round trip *)

Lemma rleLoop_bytes (fuel : nat) (ds : list Z) :
  Forall isByte ds -> Forall isByte (Huffman.rleLoop fuel ds).
Proof.
  revert ds. induction fuel as [|fuel IH]; intros ds Hds; [constructor|].
  destruct ds as [|value rest]; [constructor|]. cbn [Huffman.rleLoop].
  destruct (runLength_spec value rest 1 ltac:(lia)) as (Hr1 & Hr2 & _).
  set (r := Huffman.runLength value rest 1) in *.
  pose proof (Forall_inv Hds) as Hv.
  apply Forall_app. split.
  - destruct (_ || _).
    + constructor; [unfold isByte, Huffman.RLE_MARKER; lia|].
      constructor; [unfold isByte; lia|]. constructor; [exact Hv|constructor].
    + apply Forall_replicate. exact Hv.
  - apply IH, Forall_drop, Hds.
Qed.

Lemma rleLoop_nonempty (fuel : nat) (ds : list Z) :
  ds <> [] -> (0 < fuel)%nat -> Huffman.rleLoop fuel ds <> [].
Proof.
  intros Hds Hfuel. destruct fuel as [|fuel]; [lia|].
  destruct ds as [|value rest]; [contradiction|]. cbn [Huffman.rleLoop].
  destruct (runLength_spec value rest 1 ltac:(lia)) as (Hr1 & _).
  set (r := Huffman.runLength value rest 1) in *.
  destruct (_ || _); [discriminate|].
  replace (Z.to_nat r) with (S (Z.to_nat (r - 1))) by lia. discriminate.
Qed.

Lemma length_headerBytes (es : list Huffman.CodeLen) :
  length (Huffman.headerBytes es) = (1 + 2 * length es)%nat.
Proof.
  unfold Huffman.headerBytes. simpl. f_equal.
  induction es as [|e es IH]; simpl; [reflexivity|]. rewrite IH. lia.
Qed.

Lemma readEntries_header (es : list Huffman.CodeLen) :
  Forall (fun e => isByte (Huffman.symbol e) /\ isByte (Huffman.len e)) es ->
  forall (front body : list Z),
    Huffman.readEntries (length es)
      (front ++ flat_map (fun e => [toUint8 (Huffman.symbol e); toUint8 (Huffman.len e)]) es
             ++ body)
      (length front)
    = map toEntry es.
Proof.
  induction 1 as [|e es (Hs & Hl) _ IH]; intros front body; [reflexivity|].
  cbn [length Huffman.readEntries map flat_map].
  rewrite !toUint8_byte by assumption.
  f_equal.
  - unfold toEntry. f_equal.
    + rewrite lookup_app_r by lia. rewrite Nat.sub_diag. reflexivity.
    + rewrite lookup_app_r by lia.
      replace (length front + 1 - length front)%nat with 1%nat by lia. reflexivity.
  - specialize (IH (front ++ [Huffman.symbol e; Huffman.len e]) body).
    rewrite length_app in IH. simpl in IH.
    rewrite <- app_assoc in IH. simpl in IH.
    rewrite <- app_assoc. simpl.
    rewrite <- IH. reflexivity.
Qed.

Lemma headerBytes_bytes (es : list Huffman.CodeLen) : Forall isByte (Huffman.headerBytes es).
Proof.
  assert (Hb : forall v, isByte (toUint8 v)).
  { intros v. unfold isByte, toUint8. pose proof (Z.mod_pos_bound v 256). lia. }
  unfold Huffman.headerBytes. constructor; [apply Hb|].
  induction es as [|e es IH]; simpl; [constructor|].
  constructor; [apply Hb|]. constructor; [apply Hb|]. exact IH.
Qed.

Lemma length_symBits (codes lens : list Z) (rle : list Z) :
  Forall (fun s => 0 <= aget lens (Z.to_nat s) <= 30) rle ->
  (length (flat_map (symBits codes lens) rle) <= 30 * length rle)%nat.
Proof.
  induction 1 as [|s rle Hs _ IH]; simpl; [lia|].
  rewrite length_app. unfold symBits at 1. rewrite length_bitsOf. lia.
Qed.

(** ** The size of the Huffman body *)

Lemma sumBy_app {A : Type} (g : A -> Z) (a b : list A) :
  sumBy g (a ++ b) = sumBy g a + sumBy g b.
Proof.
  induction a as [|x a IH]; simpl; [reflexivity|]. rewrite IH. lia.
Qed.

Lemma sumBy_perm {A : Type} (g : A -> Z) (a b : list A) :
  Permutation a b -> sumBy g a = sumBy g b.
Proof.
  induction 1; simpl; lia.
Qed.

Lemma sumBy_ext {A : Type} (g h : A -> Z) (l : list A) :
  Forall (fun x => g x = h x) l -> sumBy g l = sumBy h l.
Proof.
  induction 1 as [|x l Hx _ IH]; simpl; [reflexivity|]. rewrite Hx, IH. reflexivity.
Qed.

Lemma sumBy_ge {A : Type} (g : A -> Z) (c : Z) (l : list A) :
  Forall (fun x => c <= g x) l -> Z.of_nat (length l) * c <= sumBy g l.
Proof.
  induction 1 as [|x l Hx _ IH]; simpl length; simpl sumBy; lia.
Qed.

Lemma lenOf_app_in (a b : list Huffman.CodeLen) (s : Z) :
  s ∈ map Huffman.symbol a -> lenOf (a ++ b) s = lenOf a s.
Proof.
  induction a as [|e a IH]; simpl; intros Hin; [inversion Hin|].
  destruct (Z.eqb_spec (Huffman.symbol e) s) as [_|Hne]; [reflexivity|].
  apply IH. apply elem_of_cons in Hin as [Heq|Hin]; [congruence|exact Hin].
Qed.

Lemma lenOf_app_out (a b : list Huffman.CodeLen) (s : Z) :
  s ∉ map Huffman.symbol a -> lenOf (a ++ b) s = lenOf b s.
Proof.
  induction a as [|e a IH]; simpl; intros Hout; [reflexivity|].
  destruct (Z.eqb_spec (Huffman.symbol e) s) as [Heq|Hne].
  - exfalso. apply Hout. apply elem_of_cons. left. congruence.
  - apply IH. intros Hin. apply Hout. apply elem_of_cons. right. exact Hin.
Qed.

Lemma lenOf_perm (a b : list Huffman.CodeLen) (s : Z) :
  Permutation a b -> NoDup (map Huffman.symbol a) -> lenOf a s = lenOf b s.
Proof.
  induction 1 as [|e a b Hperm IH|e1 e2 a|a b c Hab IHab Hbc IHbc]; intros Hnd.
  - reflexivity.
  - simpl in *. apply NoDup_cons in Hnd as (_ & Hnd). rewrite IH by exact Hnd. reflexivity.
  - simpl in *. apply NoDup_cons in Hnd as (Hnotin & _).
    destruct (Z.eqb_spec (Huffman.symbol e1) s) as [H1|H1];
      destruct (Z.eqb_spec (Huffman.symbol e2) s) as [H2|H2]; try reflexivity.
    exfalso. apply Hnotin. apply elem_of_cons. left. congruence.
  - rewrite IHab by exact Hnd. apply IHbc.
    assert (Hp : Permutation (map Huffman.symbol a) (map Huffman.symbol b))
      by apply Permutation_map, Hab.
    rewrite <- Hp. exact Hnd.
Qed.

Lemma lenOf_split (a b : list Huffman.CodeLen) (e : Huffman.CodeLen) :
  NoDup (map Huffman.symbol (a ++ e :: b)) ->
  lenOf (a ++ e :: b) (Huffman.symbol e) = Huffman.len e.
Proof.
  intros Hnd. rewrite lenOf_app_out.
  - simpl. rewrite Z.eqb_refl. reflexivity.
  - rewrite map_app in Hnd. apply NoDup_app in Hnd as (_ & Hdisj & _).
    intros Hin. apply (Hdisj _ Hin). simpl. apply elem_of_cons. left. reflexivity.
Qed.

Lemma leafFreqs_syms (n : Huffman.Node) : map fst (leafFreqs n) = leafSyms n.
Proof.
  induction n as [f s|f l IHl r IHr]; simpl; [reflexivity|].
  rewrite map_app, IHl, IHr. reflexivity.
Qed.

(** The bits spent below a node at depth [d]: [d] for every occurrence of
    a symbol of the subtree, and one more at every inner node above it. *)
Lemma cost_walk (n : Huffman.Node) (d : Z) :
  0 <= d -> summed n -> (1 <= d \/ ~ isLeaf n) -> NoDup (leafSyms n) ->
  cost (Huffman.walk n d) (leafFreqs n) = d * Huffman.freq n + innerSum n.
Proof.
  unfold cost. revert d.
  induction n as [f s|f l IHl r IHr]; intros d Hd Hsum Hroot Hnd; simpl in *.
  - destruct Hroot as [Hd1|Hnl]; [|exfalso; apply Hnl; exact I].
    rewrite Z.eqb_refl. destruct (Z.eqb_spec d 0); lia.
  - destruct Hsum as (-> & Hsl & Hsr).
    apply NoDup_app in Hnd as (Hndl & Hdisj & Hndr).
    rewrite sumBy_app.
    rewrite (sumBy_ext _ (fun p => p.2 * lenOf (Huffman.walk l (d + 1)) p.1) (leafFreqs l)).
    2:{ apply Forall_forall. intros p Hp. f_equal. apply lenOf_app_in.
        rewrite walk_symbols, <- leafFreqs_syms. apply list_elem_of_fmap. exists p. auto. }
    rewrite (sumBy_ext _ (fun p => p.2 * lenOf (Huffman.walk r (d + 1)) p.1) (leafFreqs r)).
    2:{ apply Forall_forall. intros p Hp. f_equal. apply lenOf_app_out.
        rewrite walk_symbols. intros Hin. apply (Hdisj _ Hin).
        rewrite <- leafFreqs_syms. apply list_elem_of_fmap. exists p. auto. }
    rewrite IHl, IHr by (auto; lia). ring.
Qed.

Lemma leFreq_total (x y : Huffman.Node) :
  Huffman.leFreq x y = false -> Huffman.leFreq y x = true.
Proof.
  unfold Huffman.leFreq. intros H. apply Z.leb_gt in H. apply Z.leb_le. lia.
Qed.

Lemma sorted_leFreq (a : Huffman.Node) (q : list Huffman.Node) :
  Sorted (fun x y => Huffman.leFreq x y = true) (a :: q) ->
  Forall (fun x => Huffman.freq a <= Huffman.freq x) q.
Proof.
  intros Hs. apply Sorted_StronglySorted in Hs.
  - apply StronglySorted_inv in Hs as (_ & Hall).
    eapply Forall_impl; [exact Hall|]. unfold Huffman.leFreq. simpl. intros x Hx.
    apply Z.leb_le, Hx.
  - intros x y z. unfold Huffman.leFreq. rewrite !Z.leb_le. lia.
Qed.

Lemma mergeBound_step (T : Z) (k : nat) :
  mergeBound T (S (S k)) = 2 * T / Z.of_nat (S (S k)) + mergeBound T (S k).
Proof. reflexivity. Qed.

Lemma mergeBound_mono (T : Z) (m n : nat) :
  0 <= T -> (m <= n)%nat -> mergeBound T m <= mergeBound T n.
Proof.
  intros HT. induction 1 as [|n Hle IH]; [lia|].
  etransitivity; [exact IH|]. cbn [mergeBound].
  destruct (n =? 0)%nat; [lia|].
  assert (0 <= 2 * T / Z.of_nat (S n)) by (apply Z.div_pos; lia). lia.
Qed.

Lemma mergeBound_range (T : Z) (m a : nat) :
  0 <= T -> (1 <= m)%nat ->
  mergeBound T (m + a) <= mergeBound T m + Z.of_nat a * (2 * T / Z.of_nat (m + 1)).
Proof.
  intros HT Hm. induction a as [|a IH].
  - rewrite Nat.add_0_r. lia.
  - replace (m + S a)%nat with (S (S (m + a - 1))) by lia.
    rewrite mergeBound_step. replace (S (m + a - 1)) with (m + a)%nat by lia.
    assert (2 * T / Z.of_nat (S (m + a)) <= 2 * T / Z.of_nat (m + 1))
      by (apply Z.div_le_compat_l; lia).
    lia.
Qed.

Lemma mergeBound_double (T : Z) (m : nat) :
  0 <= T -> (1 <= m)%nat -> mergeBound T (m + m) <= mergeBound T m + 2 * T.
Proof.
  intros HT Hm. pose proof (mergeBound_range T m m HT Hm) as Hr.
  assert (0 <= 2 * T / Z.of_nat (m + 1)) by (apply Z.div_pos; lia).
  pose proof (Z.mul_div_le (2 * T) (Z.of_nat (m + 1)) ltac:(lia)).
  nia.
Qed.

(** Merging at most 256 nodes costs at most 16 times their total. *)
Lemma mergeBound_256 (T : Z) (m : nat) :
  0 <= T -> (m <= 256)%nat -> mergeBound T m <= 16 * T.
Proof.
  intros HT Hm. etransitivity; [apply (mergeBound_mono T m 256 HT Hm)|].
  pose proof (mergeBound_double T 1 HT ltac:(lia)) as H2.
  pose proof (mergeBound_double T 2 HT ltac:(lia)) as H4.
  pose proof (mergeBound_double T 4 HT ltac:(lia)) as H8.
  pose proof (mergeBound_double T 8 HT ltac:(lia)) as H16.
  pose proof (mergeBound_double T 16 HT ltac:(lia)) as H32.
  pose proof (mergeBound_double T 32 HT ltac:(lia)) as H64.
  pose proof (mergeBound_double T 64 HT ltac:(lia)) as H128.
  pose proof (mergeBound_double T 128 HT ltac:(lia)) as H256.
  change (1 + 1)%nat with 2%nat in *. change (2 + 2)%nat with 4%nat in *.
  change (4 + 4)%nat with 8%nat in *. change (8 + 8)%nat with 16%nat in *.
  change (16 + 16)%nat with 32%nat in *. change (32 + 32)%nat with 64%nat in *.
  change (64 + 64)%nat with 128%nat in *. change (128 + 128)%nat with 256%nat in *.
  change (mergeBound T 1) with (0 + 0) in H2. lia.
Qed.

(** The tree that [buildTree] leaves: its inner nodes weigh no more than
    the merge bound of the queue. *)
Lemma buildTree_cost (fuel : nat) :
  forall (queue : list Huffman.Node),
    queue <> [] -> (length queue <= S fuel)%nat ->
    Sorted (fun x y => Huffman.leFreq x y = true) queue ->
    Forall summed queue ->
    exists root,
      Huffman.buildTree fuel queue = [root]
      /\ summed root
      /\ Permutation (leafFreqs root) (flat_map leafFreqs queue)
      /\ innerSum root
         <= sumBy innerSum queue + mergeBound (sumBy Huffman.freq queue) (length queue).
Proof.
  assert (Hsingle : forall fuel a, Huffman.buildTree fuel [a] = [a])
    by (intros [|?] ?; reflexivity).
  assert (Hone : forall a, summed a ->
             exists root, [a] = [root] /\ summed root
               /\ Permutation (leafFreqs root) (flat_map leafFreqs [a])
               /\ innerSum root
                  <= sumBy innerSum [a] + mergeBound (sumBy Huffman.freq [a]) (length [a])).
  { intros a Ha. exists a. simpl. rewrite app_nil_r. repeat split; auto. lia. }
  induction fuel as [|fuel IH]; intros queue Hne Hlen Hsorted Hsummed.
  - destruct queue as [|a [|b q]]; [contradiction| |simpl in Hlen; lia].
    rewrite Hsingle. apply Hone. inversion Hsummed; assumption.
  - destruct queue as [|a [|b q]]; [contradiction| |].
    + rewrite Hsingle. apply Hone. inversion Hsummed; assumption.
    + cbn [Huffman.buildTree].
      set (parent := Huffman.Inner (Huffman.freq a + Huffman.freq b) a b).
      pose proof (insertBy_perm Huffman.leFreq parent q) as Hperm.
      apply Forall_cons in Hsummed as (Ha & Hsummed).
      apply Forall_cons in Hsummed as (Hb & Hq).
      pose proof (sorted_leFreq a (b :: q) Hsorted) as Hage.
      apply Sorted_inv in Hsorted as (Hsorted & _).
      pose proof (sorted_leFreq b q Hsorted) as Hbge.
      apply Sorted_inv in Hsorted as (Hsorted & _).
      destruct (IH (Huffman.insertBy Huffman.leFreq parent q)) as (root & Hroot & Hsr & Hleaves & Hcost).
      * intros Hnil. rewrite Hnil in Hperm. apply Permutation_nil in Hperm. discriminate.
      * apply Permutation_length in Hperm. rewrite Hperm. simpl in *. lia.
      * apply insertBy_sorted; [exact leFreq_total|exact Hsorted].
      * eapply Permutation_Forall; [symmetry; exact Hperm|].
        constructor; [|exact Hq]. simpl. auto.
      * exists root. split; [exact Hroot|]. split; [exact Hsr|]. split.
        -- rewrite Hleaves, Hperm. simpl. rewrite <- app_assoc. reflexivity.
        -- rewrite (sumBy_perm _ _ _ Hperm), (sumBy_perm Huffman.freq _ _ Hperm) in Hcost.
           rewrite (Permutation_length Hperm) in Hcost.
           cbn [length]. rewrite mergeBound_step.
           simpl sumBy in *. cbn [length] in Hcost.
           set (fa := Huffman.freq a) in *. set (fb := Huffman.freq b) in *.
           replace (fa + fb + sumBy Huffman.freq q) with (fa + (fb + sumBy Huffman.freq q))
             in Hcost by lia.
           set (T := fa + (fb + sumBy Huffman.freq q)) in *.
           assert (Hparent : fa + fb <= 2 * T / Z.of_nat (S (S (length q)))).
           { apply Z.div_le_lower_bound; [lia|].
             pose proof (sumBy_ge Huffman.freq fb q Hbge) as Hsum.
             apply Forall_cons in Hage as (Hab & _). fold fa fb in Hab.
             unfold T. nia. }
           lia.
Qed.

Lemma bump_sum (g : Z -> Z) (v : Z) (m : list (Z * Z)) :
  sumBy (fun p => p.2 * g p.1) (Huffman.bump v m)
  = g v + sumBy (fun p => p.2 * g p.1) m.
Proof.
  induction m as [|[k c] m IH]; simpl; [lia|].
  destruct (Z.eqb_spec k v) as [->|Hne]; simpl; [lia|]. rewrite IH. lia.
Qed.

(** Summing over the stream is summing over its distinct symbols, each
    weighted by its count. *)
Lemma countFreqs_sum (g : Z -> Z) (rle : list Z) :
  sumBy (fun p => p.2 * g p.1) (Huffman.countFreqs rle) = sumBy g rle.
Proof.
  unfold Huffman.countFreqs.
  assert (H : forall m, sumBy (fun p => p.2 * g p.1) (foldl (fun m v => Huffman.bump v m) m rle)
                        = sumBy (fun p => p.2 * g p.1) m + sumBy g rle).
  { induction rle as [|v rle IH]; intros m; simpl; [lia|].
    rewrite IH, bump_sum. lia. }
  rewrite H. simpl. lia.
Qed.

Lemma countFreqs_total (rle : list Z) :
  sumBy snd (Huffman.countFreqs rle) = Z.of_nat (length rle).
Proof.
  transitivity (sumBy (fun _ : Z => 1) rle).
  - rewrite <- (countFreqs_sum (fun _ => 1) rle). apply sumBy_ext.
    apply Forall_forall. intros p _. lia.
  - induction rle as [|v rle IH]; simpl sumBy; simpl length; lia.
Qed.

Lemma sorted_weaken {A : Type} (R S : A -> A -> Prop) (l : list A) :
  (forall x y, R x y -> S x y) -> Sorted R l -> Sorted S l.
Proof.
  intros HRS. induction 1 as [|a l Hs IH Hhd]; constructor; [exact IH|].
  destruct Hhd; constructor. auto.
Qed.

Lemma leaves_facts (freqs : list (Z * Z)) :
  let leaves := map (fun '(s, f) => Huffman.Leaf f s) freqs in
  flat_map leafFreqs leaves = freqs
  /\ sumBy Huffman.freq leaves = sumBy snd freqs
  /\ sumBy innerSum leaves = 0
  /\ Forall summed leaves.
Proof.
  induction freqs as [|[s f] freqs (H1 & H2 & H3 & H4)]; simpl.
  - repeat split; constructor.
  - simpl in *. rewrite H1, H2, H3. repeat split. constructor; [exact I|exact H4].
Qed.

(** The code lengths spend at most 16 bits per counted symbol, whatever
    the counts, as long as there are at most 256 symbols. *)
Lemma buildCodeLengths_cost (freqs : list (Z * Z)) :
  freqs <> [] -> NoDup (map fst freqs) -> (length freqs <= 256)%nat ->
  0 <= sumBy snd freqs ->
  cost (Huffman.buildCodeLengths freqs) freqs <= 16 * sumBy snd freqs.
Proof.
  intros Hne Hnd Hlen HT. unfold Huffman.buildCodeLengths.
  destruct (leaves_facts freqs) as (Hleaves & Hfreq & Hinner & Hsummed).
  set (leaves := map (fun '(s, f) => Huffman.Leaf f s) freqs) in *.
  set (queue := Huffman.sortBy (fun a b => Huffman.freq a - Huffman.freq b <=? 0) leaves).
  assert (Hperm : Permutation queue leaves) by apply sortBy_perm.
  assert (Hsorted : Sorted (fun x y => Huffman.leFreq x y = true) queue).
  { eapply sorted_weaken; [|apply sortBy_sorted].
    - unfold Huffman.leFreq. simpl. intros x y H. apply Z.leb_le in H. apply Z.leb_le. lia.
    - simpl. intros x y H. apply Z.leb_gt in H. apply Z.leb_le. lia. }
  assert (Hpairs : Permutation (flat_map leafFreqs queue) freqs).
  { rewrite <- Hleaves. apply Permutation_flat_map, Hperm. }
  assert (Hkeys : Permutation (flat_map leafSyms queue) (map fst freqs)).
  { rewrite <- leaves_symbols. fold leaves. apply Permutation_flat_map, Hperm. }
  assert (Hqne : queue <> []).
  { intros Hq. rewrite Hq in Hperm. apply Permutation_nil in Hperm.
    unfold leaves in Hperm. destruct freqs; [contradiction|discriminate]. }
  assert (Hqsum : Forall summed queue).
  { eapply Permutation_Forall; [symmetry; exact Hperm|exact Hsummed]. }
  rewrite <- (sumBy_perm Huffman.freq _ _ Hperm) in Hfreq.
  rewrite <- (sumBy_perm innerSum _ _ Hperm) in Hinner.
  assert (Hqlen : length queue = length freqs).
  { rewrite (Permutation_length Hperm). unfold leaves. apply length_map. }
  assert (Hbuild : (forall f s, queue <> [Huffman.Leaf f s]) ->
             forall cl, cl = match Huffman.buildTree (length queue) queue with
                             | root :: _ => Huffman.walk root 0
                             | [] => []
                             end ->
             cost cl freqs <= 16 * sumBy snd freqs).
  { intros Hnotleaf cl Hcl.
    destruct (buildTree_spec (length queue) queue Hqne ltac:(lia))
      as (root & Hroot & Hsyms & Hnl).
    destruct (buildTree_cost (length queue) queue Hqne ltac:(lia) Hsorted Hqsum)
      as (root' & Hroot' & Hsr & Hlf & Hcost).
    assert (root' = root) by congruence. subst root'.
    rewrite Hroot in Hcl. subst cl.
    unfold cost. rewrite <- (sumBy_perm _ _ _ Hpairs), <- (sumBy_perm _ _ _ Hlf).
    fold (cost (Huffman.walk root 0) (leafFreqs root)).
    rewrite cost_walk; [|lia|exact Hsr|right; apply Hnl, Hnotleaf|].
    2:{ rewrite Hsyms, Hkeys. exact Hnd. }
    rewrite Hinner, Hfreq, Hqlen in Hcost.
    pose proof (mergeBound_256 (sumBy snd freqs) (length freqs) HT Hlen). lia. }
  clearbody queue. clear Hperm Hleaves Hsummed. clear leaves.
  destruct queue as [|a q]; [contradiction|].
  destruct a as [f s|f l r].
  - destruct q as [|b q].
    + simpl in Hpairs. apply Permutation_length_1_inv in Hpairs.
      subst freqs. unfold cost. simpl in *. rewrite Z.eqb_refl. lia.
    + apply Hbuild; [|reflexivity]. intros f' s'. discriminate.
  - apply Hbuild; [|reflexivity]. intros f' s'. discriminate.
Qed.

(** The encoder writes at most 16 bits per symbol of the stream on
    average: the code lengths of the stream add up to at most
    [16 * length rle]. *)
Lemma sortedCodeLens_cost (rle : list Z) :
  rle <> [] ->
  Forall (fun e => Huffman.len e <= 30) (Huffman.sortedCodeLens rle) ->
  (length (Huffman.sortedCodeLens rle) <= 256)%nat ->
  sumBy (lenOf (Huffman.sortedCodeLens rle)) rle <= 16 * Z.of_nat (length rle).
Proof.
  intros Hne Hlens Hlen. unfold Huffman.sortedCodeLens in *.
  set (cl := Huffman.buildCodeLengths (Huffman.countFreqs rle)) in *.
  pose proof (sortBy_perm Huffman.canonicalLe cl) as Hperm.
  destruct (countFreqs_keys rle) as (Hndf & Hkeys).
  assert (Hfne : Huffman.countFreqs rle <> []).
  { destruct rle as [|v rle]; [contradiction|].
    intros Hnil. specialize (Hkeys v). rewrite Hnil in Hkeys.
    destruct Hkeys as (_ & Hk). specialize (Hk ltac:(left)). inversion Hk. }
  destruct (buildCodeLengths_spec (Huffman.countFreqs rle) Hfne) as (Hsyms & _ & _).
  { fold cl. eapply Permutation_Forall; [exact Hperm|exact Hlens]. }
  fold cl in Hsyms.
  rewrite <- countFreqs_total.
  rewrite <- (countFreqs_sum (lenOf (Huffman.sortBy Huffman.canonicalLe cl)) rle).
  rewrite (sumBy_ext _ (fun p => p.2 * lenOf cl p.1)).
  2:{ apply Forall_forall. intros p _. f_equal. symmetry. apply lenOf_perm.
      - symmetry. exact Hperm.
      - rewrite Hsyms. exact Hndf. }
  apply buildCodeLengths_cost; auto.
  - rewrite <- (length_map fst), <- (Permutation_length Hsyms), length_map.
    rewrite <- (Permutation_length Hperm). exact Hlen.
  - rewrite countFreqs_total. lia.
Qed.

Lemma length_symBits_sum (codes lens : list Z) (es : list Huffman.CodeLen) (rle : list Z) :
  Forall (fun s => aget lens (Z.to_nat s) = lenOf es s /\ 0 <= lenOf es s) rle ->
  Z.of_nat (length (flat_map (symBits codes lens) rle)) = sumBy (lenOf es) rle.
Proof.
  induction 1 as [|s rle (Hs & Hpos) _ IH]; simpl; [reflexivity|].
  rewrite length_app. unfold symBits at 1. rewrite length_bitsOf, Hs. lia.
Qed.

(** ** The encoder's output in closed form *)

Lemma bitsValue_from (acc : Z) (bs : list bool) :
  foldl (fun acc (b : bool) => 2 * acc + (if b then 1 else 0)) acc bs
  = acc * 2 ^ Z.of_nat (length bs) + bitsValue bs.
Proof.
  unfold bitsValue. revert acc.
  induction bs as [|b bs IH]; intros acc; [simpl; lia|].
  cbn [foldl length]. rewrite IH, (IH (2 * 0 + _)).
  rewrite Nat2Z.inj_succ, Z.pow_succ_r by lia. ring.
Qed.

Lemma bitsValue_app (a b : list bool) :
  bitsValue (a ++ b) = bitsValue a * 2 ^ Z.of_nat (length b) + bitsValue b.
Proof.
  unfold bitsValue at 1. rewrite foldl_app. fold (bitsValue a). apply bitsValue_from.
Qed.

Lemma bitsValue_zeros (k : nat) : bitsValue (replicate k false) = 0.
Proof.
  induction k as [|k IH]; [reflexivity|].
  change (replicate (S k) false) with ([false] ++ replicate k false).
  rewrite bitsValue_app, IH. reflexivity.
Qed.

Lemma bitsValue_bitsN (c : Z) (n : nat) :
  bitsValue (bitsN c n) = c mod 2 ^ Z.of_nat n.
Proof.
  induction n as [|n IH]; [simpl; rewrite Z.mod_1_r; reflexivity|].
  change (bitsN c (S n)) with ([Z.testbit c (Z.of_nat n)] ++ bitsN c n).
  rewrite bitsValue_app, IH, length_bitsN.
  rewrite Nat2Z.inj_succ, Z.pow_succ_r by lia.
  rewrite (Z.mul_comm 2), Z.rem_mul_r by lia.
  rewrite <- Z.testbit_spec' by lia.
  unfold bitsValue. simpl. destruct (Z.testbit c (Z.of_nat n)); simpl; lia.
Qed.

Lemma bitsValue_byteBits (b : Z) : isByte b -> bitsValue (byteBits b) = b.
Proof.
  intros Hb. unfold byteBits. rewrite bitsValue_bitsN.
  apply Z.mod_small. unfold isByte in Hb. simpl. lia.
Qed.

(** Bytes whose bits are [bs] and fewer than eight zero bits are the
    bytes [packBits] makes of [bs]. *)
Lemma packBits_spec (body : list Z) :
  Forall isByte body ->
  forall (bs : list bool) (pad fuel : nat),
    flat_map byteBits body = bs ++ replicate pad false ->
    (pad < 8)%nat -> (length bs <= fuel)%nat ->
    packBits fuel bs = body.
Proof.
  induction 1 as [|b body Hb Hbody IH]; intros bs pad fuel Hbits Hpad Hfuel.
  - simpl in Hbits. symmetry in Hbits. apply app_eq_nil in Hbits as (-> & _).
    destruct fuel; reflexivity.
  - cbn [flat_map] in Hbits.
    assert (Hlen : (8 + length (flat_map byteBits body) = length bs + pad)%nat).
    { apply (f_equal length) in Hbits. rewrite !length_app, length_replicate in Hbits.
      unfold byteBits in Hbits at 1. rewrite length_bitsN in Hbits. exact Hbits. }
    destruct bs as [|b0 bs0] eqn:Hbs; [simpl in Hlen; lia|]. rewrite <- Hbs in *.
    destruct fuel as [|fuel]; [rewrite Hbs in Hfuel; simpl in Hfuel; lia|].
    assert (Hunfold : packBits (S fuel) bs
                      = bitsValue (take 8 bs) * 2 ^ Z.of_nat (8 - length (take 8 bs))
                          :: packBits fuel (drop 8 bs)).
    { rewrite Hbs. reflexivity. }
    rewrite Hunfold. clear Hunfold.
    destruct (Nat.le_gt_cases 8 (length bs)) as [Hlong|Hshort].
    + assert (Htake : take 8 bs = byteBits b).
      { apply (f_equal (take 8)) in Hbits.
        rewrite take_app_length' in Hbits by (unfold byteBits; rewrite length_bitsN; reflexivity).
        rewrite take_app_le in Hbits by lia. auto. }
      assert (Hdrop : flat_map byteBits body = drop 8 bs ++ replicate pad false).
      { apply (f_equal (drop 8)) in Hbits.
        rewrite drop_app_length' in Hbits by (unfold byteBits; rewrite length_bitsN; reflexivity).
        rewrite drop_app_le in Hbits by lia. exact Hbits. }
      rewrite Htake, bitsValue_byteBits by exact Hb.
      unfold byteBits at 1. rewrite length_bitsN. simpl Z.of_nat. rewrite Z.mul_1_r.
      f_equal. apply (IH _ pad); [exact Hdrop|exact Hpad|].
      rewrite length_drop. lia.
    + rewrite take_ge, drop_ge by lia.
      assert (Hnil : body = []).
      { destruct body as [|b' body']; [reflexivity|].
        cbn [flat_map] in Hlen. rewrite length_app in Hlen.
        unfold byteBits in Hlen at 1. rewrite length_bitsN in Hlen. lia. }
      subst body. cbn [flat_map length] in Hbits, Hlen. rewrite app_nil_r in Hbits.
      replace (packBits fuel []) with (@nil Z) by (destruct fuel; reflexivity).
      f_equal. rewrite <- (bitsValue_byteBits b Hb), Hbits, bitsValue_app.
      rewrite bitsValue_zeros, length_replicate. replace (8 - length bs)%nat with pad by lia.
      lia.
Qed.

(** What the encoder returns: the header, then the code bits of the
    run-length stream in whole bytes. *)
Lemma encodeHuffman_packedForm (seq : list Z) :
  seq <> [] ->
  let rle := Huffman.rleEncode (Huffman.deltaEncode seq) in
  let es := Huffman.sortedCodeLens rle in
  Forall (fun s => 0 <= aget (arraysOf es).2 (Z.to_nat s) <= 32) rle ->
  (length (bitsFor rle) / 8 < 1 + 2 * length es + 2 * length rle)%nat ->
  Huffman.encodeHuffman seq = packedForm seq.
Proof.
  intros Hne rle es Hlens Hroom.
  unfold Huffman.encodeHuffman, packedForm.
  replace (length seq =? 0)%nat with false
    by (symmetry; apply Nat.eqb_neq; destruct seq; [contradiction|simpl; lia]).
  fold rle. fold es. unfold bitsFor in *. fold es in Hroom |- *.
  unfold arraysOf in *.
  destruct (Huffman.assignCodes true 0 (match es with e :: _ => Huffman.len e | [] => 0 end)
                                es (replicate 256 (-1)) (zeros 256))
    as [codes lens] eqn:Hassign.
  cbn [fst snd] in *.
  set (hdr := Huffman.headerBytes es).
  set (cap0 := ((1 + length es * 2 + length rle) * 2)%nat).
  set (st0 := {| Huffman.p_acc := 0; Huffman.p_pending := 0;
                 Huffman.p_out := hdr; Huffman.p_cap := cap0 |}).
  assert (Hst0 : packed hdr cap0 [] st0).
  { exists []. simpl. rewrite app_nil_r. repeat split; auto; lia. }
  pose proof (pushSymbols_packed hdr cap0 codes lens rle Hlens [] st0 Hst0) as Hpush.
  simpl app in Hpush.
  destruct (flush_packed hdr cap0 _ _ Hpush) as (body & pad & Hflush & Hbody & Hbits & Hpad).
  { unfold hdr. rewrite length_headerBytes. unfold cap0. lia. }
  rewrite Hflush. f_equal. symmetry.
  apply (packBits_spec body Hbody _ pad); [exact Hbits|exact Hpad|lia].
Qed.

(** Distinct bytes are at most 256. *)
Lemma distinct_bytes (l : list Z) :
  NoDup l -> Forall isByte l -> (length l <= 256)%nat.
Proof.
  intros Hnd Hb.
  assert (Hsub : l ⊆+ seqZ 0 256).
  { apply NoDup_submseteq; [exact Hnd|]. intros x Hx. apply elem_of_seqZ.
    rewrite Forall_forall in Hb. pose proof (Hb x Hx) as H. unfold isByte in H. lia. }
  apply submseteq_length in Hsub. rewrite length_seqZ in Hsub. lia.
Qed.

(** The closed form holds for every byte sequence (not empty) whose table
    has codes of at most 30 bits: the packer's buffer never runs out. *)
Lemma encodeHuffman_closed_form (seq : list Z) :
  seq <> [] -> Forall isByte seq ->
  Forall (fun e => Huffman.len e <= 30)
         (Huffman.sortedCodeLens (Huffman.rleEncode (Huffman.deltaEncode seq))) ->
  Huffman.encodeHuffman seq = packedForm seq.
Proof.
  intros Hne Hbytes Hlens.
  destruct seq as [|v0 seq0]; [contradiction|].
  set (seq := v0 :: seq0) in *.
  assert (Hn : (0 < length seq)%nat) by (simpl; lia).
  assert (Hrle_bytes : Forall isByte (Huffman.rleEncode (Huffman.deltaEncode seq))).
  { apply rleLoop_bytes, deltaFrom_byte. }
  assert (Hrle_ne : Huffman.rleEncode (Huffman.deltaEncode seq) <> []).
  { apply rleLoop_nonempty.
    - unfold Huffman.deltaEncode. simpl. discriminate.
    - unfold Huffman.deltaEncode. rewrite length_deltaFrom. exact Hn. }
  destruct (sortedCodeLens_spec _ Hrle_ne Hrle_bytes Hlens) as (Hgood & Hsorted & Hmem).
  pose proof Hgood as (Hss & Hlens' & Hsyms & Hnd & Hk).
  assert (Hcount : (length (Huffman.sortedCodeLens
                              (Huffman.rleEncode (Huffman.deltaEncode seq))) <= 256)%nat).
  { rewrite <- (length_map Huffman.symbol). apply distinct_bytes; [exact Hnd|].
    apply Forall_map. exact Hsyms. }
  pose proof (sortedCodeLens_cost _ Hrle_ne Hlens Hcount) as Hcost.
  assert (Harrays : Forall (fun s =>
             aget (arraysOf (Huffman.sortedCodeLens
                               (Huffman.rleEncode (Huffman.deltaEncode seq)))).2 (Z.to_nat s)
             = lenOf (Huffman.sortedCodeLens (Huffman.rleEncode (Huffman.deltaEncode seq))) s
             /\ 0 <= lenOf (Huffman.sortedCodeLens
                              (Huffman.rleEncode (Huffman.deltaEncode seq))) s <= 30)
            (Huffman.rleEncode (Huffman.deltaEncode seq))).
  { set (rle := Huffman.rleEncode (Huffman.deltaEncode seq)) in *.
    set (es := Huffman.sortedCodeLens rle) in *.
    unfold arraysOf.
    pose proof (assignCodes_spec es [] true 0
                  (match es with e :: _ => Huffman.len e | [] => 0 end)
                  (replicate 256 (-1)) (zeros 256) Hgood
                  (length_replicate _ _) (length_replicate _ _) (conj eq_refl eq_refl))
      as Hspec.
    destruct (Huffman.assignCodes true 0 (match es with e :: _ => Huffman.len e | [] => 0 end)
                                  es (replicate 256 (-1)) (zeros 256))
      as [codes lens] eqn:Hassign.
    cbn [fst snd] in *. destruct Hspec as (_ & _ & Harr & _).
    apply Forall_forall. intros s Hs. apply Hmem in Hs.
    apply list_elem_of_fmap in Hs as (e & -> & He).
    rewrite Forall_forall in Hlens'. pose proof (Hlens' e He).
    apply list_elem_of_split in He as (a & b & Hab).
    destruct (Harr a e b Hab) as (_ & ->).
    assert (Hl : lenOf es (Huffman.symbol e) = Huffman.len e)
      by (rewrite Hab; apply lenOf_split; rewrite <- Hab; exact Hnd).
    rewrite Hl. lia. }
  set (rle := Huffman.rleEncode (Huffman.deltaEncode seq)) in *.
  set (es := Huffman.sortedCodeLens rle) in *.
  apply encodeHuffman_packedForm; [discriminate| |]; fold rle; fold es.
  - eapply Forall_impl; [exact Harrays|]. simpl. intros s (-> & Hs). lia.
  - unfold bitsFor. fold es.
    assert (Hlen : Z.of_nat (length (flat_map (symBits (arraysOf es).1 (arraysOf es).2) rle))
                   = sumBy (lenOf es) rle).
    { apply length_symBits_sum. eapply Forall_impl; [exact Harrays|].
      simpl. intros s (Hs1 & Hs2). split; [exact Hs1|lia]. }
    assert (length (flat_map (symBits (arraysOf es).1 (arraysOf es).2) rle) / 8
            <= 2 * length rle)%nat
      by (apply Nat.Div0.div_le_upper_bound; lia).
    lia.
Qed.

(** ** A sequence with a code of 25 bits *)

Lemma repeatPair_bytes (n : nat) (a b : Z) (tail : list Z) :
  isByte a -> isByte b -> Forall isByte tail -> Forall isByte (repeatPair n a b tail).
Proof.
  intros Ha Hb Ht. induction n as [|n IH]; simpl; [exact Ht|].
  constructor; [exact Ha|]. constructor; [exact Hb|exact IH].
Qed.

Lemma repeatPair_steps (n : nat) (a b : Z) (tail : list Z) :
  -127 <= a - b <= 127 -> stepsInRange b tail -> stepsInRange b (repeatPair n a b tail).
Proof.
  intros Hab Ht. induction n as [|n IH]; simpl; [exact Ht|].
  split; [lia|]. split; [lia|exact IH].
Qed.

Lemma length_repeatPair (n : nat) (a b : Z) (tail : list Z) :
  length (repeatPair n a b tail) = (2 * n + length tail)%nat.
Proof.
  induction n as [|n IH]; simpl; [reflexivity|]. rewrite IH. lia.
Qed.

(** The delta bytes of a block of pairs above 100. *)
Lemma deltaFrom_pairs (n : nat) (a da db : Z) (tail : list Z) :
  100 < a <= 227 -> da = a + 28 -> db = 228 - a ->
  Huffman.deltaFrom 100 (repeatPair n a 100 tail)
  = repeatPair n da db (Huffman.deltaFrom 100 tail).
Proof.
  intros Ha -> ->. induction n as [|n IH]; [reflexivity|].
  cbn [repeatPair Huffman.deltaFrom]. rewrite IH.
  assert (H1 : Z.land (Z.max (-128) (Z.min 127 (a - 100)) + 128) 255 = a + 28).
  { rewrite land_255. replace (Z.max (-128) (Z.min 127 (a - 100)) + 128) with (a + 28) by lia.
    apply Z.mod_small. lia. }
  assert (H2 : Z.land (Z.max (-128) (Z.min 127 (100 - a)) + 128) 255 = 228 - a).
  { rewrite land_255. replace (Z.max (-128) (Z.min 127 (100 - a)) + 128) with (228 - a) by lia.
    apply Z.mod_small. lia. }
  rewrite H1, H2. reflexivity.
Qed.

Lemma longCodeSeq_deltas : Huffman.deltaEncode longCodeSeq = longCodeDeltas.
Proof.
  unfold Huffman.deltaEncode, longCodeSeq, longCodeDeltas.
  cbn [Huffman.deltaFrom].
  repeat match goal with
         | |- context [Huffman.deltaFrom 100 (repeatPair ?n ?a 100 ?t)] =>
             let da := eval cbv in (a + 28) in
             let db := eval cbv in (228 - a) in
             rewrite (deltaFrom_pairs n a da db t) by lia
         end.
  reflexivity.
Qed.

(** The run-length stage leaves a plain stream as it is. *)
Lemma rleLoop_plain (data : list Z) :
  plain data -> forall fuel, (length data <= fuel)%nat -> Huffman.rleLoop fuel data = data.
Proof.
  induction data as [|v rest IH]; intros Hp fuel Hfuel.
  - destruct fuel; reflexivity.
  - destruct fuel as [|fuel]; [simpl in Hfuel; lia|].
    destruct Hp as (Hv & Hnext & Hrest).
    cbn [Huffman.rleLoop].
    assert (Hrun : Huffman.runLength v rest 1 = 1).
    { destruct rest as [|d rest']; [reflexivity|]. simpl.
      destruct (Z.eqb_spec d v); [contradiction|reflexivity]. }
    rewrite Hrun.
    destruct (Z.eqb_spec v Huffman.RLE_MARKER); [contradiction|].
    simpl. rewrite IH; [reflexivity|exact Hrest|simpl in Hfuel; lia].
Qed.

Lemma repeatPair_plain (n : nat) (x y : Z) (tail : list Z) :
  x <> y -> x <> Huffman.RLE_MARKER -> y <> Huffman.RLE_MARKER ->
  match tail with d :: _ => d <> y | [] => True end ->
  plain tail ->
  plain (repeatPair n x y tail).
Proof.
  intros Hxy Hx Hy Hhead Ht. induction n as [|n IH]; [exact Ht|].
  cbn [repeatPair plain]. split; [exact Hx|]. split; [congruence|].
  split; [exact Hy|]. split; [|exact IH].
  destruct n; [exact Hhead|]. simpl. exact Hxy.
Qed.

(** The first element of a block that is not empty. *)
Lemma repeatPair_head (n : Z) (x y v : Z) (tail : list Z) :
  0 < n -> x <> v ->
  match repeatPair (Z.to_nat n) x y tail with d :: _ => d <> v | [] => True end.
Proof.
  intros Hn Hx. destruct (Z.to_nat n) eqn:Hk; [lia|]. simpl. exact Hx.
Qed.

Lemma longCodeDeltas_plain : plain longCodeDeltas.
Proof.
  unfold longCodeDeltas. cbn [plain]. unfold Huffman.RLE_MARKER.
  split; [lia|]. split; [apply repeatPair_head; lia|].
  repeat (apply repeatPair_plain;
          [unfold Huffman.RLE_MARKER; lia|unfold Huffman.RLE_MARKER; lia
           |unfold Huffman.RLE_MARKER; lia
           |first [apply repeatPair_head; lia|simpl; lia]|]).
  simpl. unfold Huffman.RLE_MARKER. lia.
Qed.

Lemma longCodeSeq_rle : Huffman.rleEncode (Huffman.deltaEncode longCodeSeq) = longCodeDeltas.
Proof.
  rewrite longCodeSeq_deltas. unfold Huffman.rleEncode.
  apply rleLoop_plain; [exact longCodeDeltas_plain|lia].
Qed.

Lemma longCodeSeq_bytes : Forall isByte longCodeSeq.
Proof.
  unfold longCodeSeq. constructor; [unfold isByte; lia|].
  repeat (apply repeatPair_bytes; [unfold isByte; lia|unfold isByte; lia|]).
  constructor; [unfold isByte; lia|constructor].
Qed.

Lemma longCodeSeq_steps : stepsInRange 0 longCodeSeq.
Proof.
  unfold longCodeSeq. split; [lia|].
  repeat (apply repeatPair_steps; [lia|]).
  simpl. lia.
Qed.

Lemma longCodeSeq_length : length longCodeDeltas = length longCodeSeq.
Proof.
  unfold longCodeDeltas, longCodeSeq. cbn [length].
  rewrite !length_repeatPair. reflexivity.
Qed.

Lemma bump_new (v : Z) (m : list (Z * Z)) :
  v ∉ map fst m -> Huffman.bump v m = m ++ [(v, 1)].
Proof.
  induction m as [|[k c] m IH]; intros Hv; [reflexivity|].
  simpl in *. destruct (Z.eqb_spec k v) as [->|Hne].
  - exfalso. apply Hv. apply elem_of_cons. left. reflexivity.
  - rewrite IH; [reflexivity|]. intros Hin. apply Hv. apply elem_of_cons. right. exact Hin.
Qed.

Lemma bump_old (v c : Z) (m r : list (Z * Z)) :
  v ∉ map fst m -> Huffman.bump v (m ++ (v, c) :: r) = m ++ (v, c + 1) :: r.
Proof.
  induction m as [|[k c'] m IH]; intros Hv; simpl in *.
  - rewrite Z.eqb_refl. reflexivity.
  - destruct (Z.eqb_spec k v) as [->|Hne].
    + exfalso. apply Hv. apply elem_of_cons. left. reflexivity.
    + rewrite IH; [reflexivity|]. intros Hin. apply Hv. apply elem_of_cons. right. exact Hin.
Qed.

Lemma countFreqs_more (n : nat) (x y a b : Z) (m : list (Z * Z)) (tail : list Z) :
  x <> y -> x ∉ map fst m -> y ∉ map fst m ->
  foldl (fun m v => Huffman.bump v m) (m ++ [(x, a); (y, b)]) (repeatPair n x y tail)
  = foldl (fun m v => Huffman.bump v m)
          (m ++ [(x, a + Z.of_nat n); (y, b + Z.of_nat n)]) tail.
Proof.
  intros Hxy Hx Hy. revert a b.
  induction n as [|n IH]; intros a b.
  - simpl. rewrite !Z.add_0_r. reflexivity.
  - cbn [repeatPair foldl]. rewrite (bump_old x a m [(y, b)] Hx).
    change (m ++ (x, a + 1) :: [(y, b)]) with (m ++ [(x, a + 1)] ++ (y, b) :: []).
    rewrite app_assoc, bump_old.
    + rewrite <- app_assoc. cbn [app]. rewrite IH.
      replace (a + Z.of_nat (S n)) with (a + 1 + Z.of_nat n) by lia.
      replace (b + Z.of_nat (S n)) with (b + 1 + Z.of_nat n) by lia.
      reflexivity.
    + rewrite map_app. intros Hin. apply elem_of_app in Hin as [Hin|Hin]; [contradiction|].
      simpl in Hin. apply elem_of_cons in Hin as [Hin|Hin]; [congruence|inversion Hin].
Qed.

(** A block of [c] pairs of two new symbols adds both with count [c]. *)
Lemma countFreqs_pairs (c x y : Z) (m : list (Z * Z)) (tail : list Z) :
  0 < c -> x <> y -> x ∉ map fst m -> y ∉ map fst m ->
  foldl (fun m v => Huffman.bump v m) m (repeatPair (Z.to_nat c) x y tail)
  = foldl (fun m v => Huffman.bump v m) (m ++ [(x, c); (y, c)]) tail.
Proof.
  intros Hc Hxy Hx Hy. destruct (Z.to_nat c) as [|n] eqn:Hn; [lia|].
  cbn [repeatPair foldl]. rewrite (bump_new x m Hx).
  rewrite (bump_new y).
  - rewrite <- app_assoc. cbn [app]. rewrite countFreqs_more by assumption.
    replace (1 + Z.of_nat n) with c by lia. reflexivity.
  - rewrite map_app. intros Hin. apply elem_of_app in Hin as [Hin|Hin]; [contradiction|].
    simpl in Hin. apply elem_of_cons in Hin as [Hin|Hin]; [congruence|inversion Hin].
Qed.

Lemma foldl_bump_cons (m : list (Z * Z)) (v : Z) (l : list Z) :
  foldl (fun m v => Huffman.bump v m) m (v :: l)
  = foldl (fun m v => Huffman.bump v m) (Huffman.bump v m) l.
Proof. reflexivity. Qed.

Ltac not_a_key :=
  let H := fresh in
  simpl; intros H;
  repeat (apply elem_of_cons in H as [H|H]; [lia|]); inversion H.

Lemma longCodeDeltas_freqs :
  Huffman.countFreqs longCodeDeltas
  = [(228, 1); (129, 2); (127, 2); (130, 6); (126, 6); (131, 18); (125, 18);
     (132, 54); (124, 54); (133, 162); (123, 162); (134, 486); (122, 486);
     (135, 1458); (121, 1458); (136, 4374); (120, 4374); (137, 13122); (119, 13122);
     (138, 39366); (118, 39366); (139, 118098); (117, 118098);
     (140, 354294); (116, 354294); (178, 1)].
Proof.
  unfold Huffman.countFreqs, longCodeDeltas.
  rewrite (foldl_bump_cons [] 228). change (Huffman.bump 228 []) with [(228, 1)].
  repeat (rewrite countFreqs_pairs; [cbn [app]|lia|lia|not_a_key|not_a_key]).
  reflexivity.
Qed.

(** The code table of the sequence: lengths 1 to 24, and 25 for the two
    symbols that occur once. *)
Lemma longCodeDeltas_table :
  Huffman.sortedCodeLens longCodeDeltas
  = [{| Huffman.symbol := 116; Huffman.len := 1 |};
     {| Huffman.symbol := 140; Huffman.len := 2 |};
     {| Huffman.symbol := 117; Huffman.len := 3 |};
     {| Huffman.symbol := 139; Huffman.len := 4 |};
     {| Huffman.symbol := 118; Huffman.len := 5 |};
     {| Huffman.symbol := 138; Huffman.len := 6 |};
     {| Huffman.symbol := 119; Huffman.len := 7 |};
     {| Huffman.symbol := 137; Huffman.len := 8 |};
     {| Huffman.symbol := 120; Huffman.len := 9 |};
     {| Huffman.symbol := 136; Huffman.len := 10 |};
     {| Huffman.symbol := 121; Huffman.len := 11 |};
     {| Huffman.symbol := 135; Huffman.len := 12 |};
     {| Huffman.symbol := 122; Huffman.len := 13 |};
     {| Huffman.symbol := 134; Huffman.len := 14 |};
     {| Huffman.symbol := 123; Huffman.len := 15 |};
     {| Huffman.symbol := 133; Huffman.len := 16 |};
     {| Huffman.symbol := 124; Huffman.len := 17 |};
     {| Huffman.symbol := 132; Huffman.len := 18 |};
     {| Huffman.symbol := 125; Huffman.len := 19 |};
     {| Huffman.symbol := 131; Huffman.len := 20 |};
     {| Huffman.symbol := 126; Huffman.len := 21 |};
     {| Huffman.symbol := 130; Huffman.len := 22 |};
     {| Huffman.symbol := 127; Huffman.len := 23 |};
     {| Huffman.symbol := 129; Huffman.len := 24 |};
     {| Huffman.symbol := 178; Huffman.len := 25 |};
     {| Huffman.symbol := 228; Huffman.len := 25 |}].
Proof.
  unfold Huffman.sortedCodeLens. rewrite longCodeDeltas_freqs. vm_compute. reflexivity.
Qed.

Lemma flat_map_first {A B : Type} (f : A -> list B) (x : A) (l : list A) :
  flat_map f (x :: l) = f x ++ flat_map f l.
Proof. reflexivity. Qed.

Lemma packBits_byte (fuel : nat) (b7 b6 b5 b4 b3 b2 b1 b0 : bool) (rest : list bool) :
  packBits (S fuel) (b7 :: b6 :: b5 :: b4 :: b3 :: b2 :: b1 :: b0 :: rest)
  = bitsValue [b7; b6; b5; b4; b3; b2; b1; b0] :: packBits fuel rest.
Proof.
  cbn [packBits take drop length Nat.sub Z.of_nat]. rewrite Z.pow_0_r, Z.mul_1_r. reflexivity.
Qed.

(** The encoder's output for the sequence: after the header, 24 one bits
    open the 25-bit code of its first symbol. *)
Lemma longCodeSeq_encoded :
  exists tl,
    Huffman.encodeHuffman longCodeSeq
    = Huffman.headerBytes (Huffman.sortedCodeLens longCodeDeltas) ++ 255 :: 255 :: 255 :: tl.
Proof.
  rewrite encodeHuffman_closed_form.
  - unfold packedForm. rewrite longCodeSeq_rle. unfold bitsFor.
    rewrite longCodeDeltas_table.
    match goal with
    | |- context [arraysOf ?t] =>
        let v := eval vm_compute in (arraysOf t) in change (arraysOf t) with v
    end.
    cbn [fst snd]. unfold longCodeDeltas at 1 2. rewrite flat_map_first.
    match goal with
    | |- context [symBits ?c ?l 228] =>
        let v := eval vm_compute in (symBits c l 228) in change (symBits c l 228) with v
    end.
    rewrite length_app. cbn [length Nat.add app].
    rewrite !packBits_byte.
    eexists. reflexivity.
  - unfold longCodeSeq. discriminate.
  - exact longCodeSeq_bytes.
  - rewrite longCodeSeq_rle, longCodeDeltas_table. repeat constructor; simpl; lia.
Qed.

(** The decoder on that output: it buffers 24 bits, finds no code among
    them and returns zeros. *)
Lemma decodeHuffman_unreadable (tl : list Z) (n : nat) :
  Huffman.decodeHuffman
    (Huffman.headerBytes (Huffman.sortedCodeLens longCodeDeltas) ++ 255 :: 255 :: 255 :: tl)
    (S n)
  = Ok (zeros (S n)).
Proof.
  rewrite longCodeDeltas_table. vm_compute. reflexivity.
Qed.

(** The round trip of the sequence: zeros come back. *)
Lemma longCodeSeq_roundtrip :
  Huffman.decodeHuffman (Huffman.encodeHuffman longCodeSeq) (length longCodeSeq)
  = Ok (zeros (length longCodeSeq)).
Proof.
  destruct longCodeSeq_encoded as (tl & ->).
  unfold longCodeSeq at 1 2. cbn [length].
  apply decodeHuffman_unreadable.
Qed.
(** The Huffman and run-length stages are undone exactly; what comes back
    is the decoder's reading of the delta bytes. *)
Lemma decode_of_encode (seq : list Z) :
  Forall isByte seq ->
  (length (Huffman.rleEncode (Huffman.deltaEncode seq)) <= 2 * length seq)%nat ->
  (length (Huffman.sortedCodeLens (Huffman.rleEncode (Huffman.deltaEncode seq))) <= 255)%nat ->
  Forall (fun e => Huffman.len e <= 24)
         (Huffman.sortedCodeLens (Huffman.rleEncode (Huffman.deltaEncode seq))) ->
  Huffman.decodeHuffman (Huffman.encodeHuffman seq) (length seq)
  = Ok (decodeDeltas 0 (Huffman.deltaEncode seq)).
Proof.
  intros Hbytes Hrlelen Hcount Hlens24.
  assert (Hlens : Forall (fun e => Huffman.len e <= 30)
                         (Huffman.sortedCodeLens (Huffman.rleEncode (Huffman.deltaEncode seq))))
    by (eapply Forall_impl; [exact Hlens24|]; simpl; intros; lia).
  destruct seq as [|v0 seq0]; [reflexivity|].
  set (seq := v0 :: seq0) in *.
  set (rle := Huffman.rleEncode (Huffman.deltaEncode seq)) in *.
  set (es := Huffman.sortedCodeLens rle) in *.
  assert (Hn : (0 < length seq)%nat) by (simpl; lia).
  (* the run-length stream *)
  assert (Hrle_bytes : Forall isByte rle).
  { apply rleLoop_bytes, deltaFrom_byte. }
  assert (Hrle_ne : rle <> []).
  { apply rleLoop_nonempty.
    - unfold Huffman.deltaEncode. simpl. discriminate.
    - unfold Huffman.deltaEncode. rewrite length_deltaFrom. exact Hn. }
  (* the code table *)
  destruct (sortedCodeLens_spec rle Hrle_ne Hrle_bytes Hlens) as (Hgood & Hsorted & Hmem).
  fold es in Hgood, Hsorted, Hmem.
  pose proof Hgood as (Hss & Hlens' & Hsyms & Hnd & Hk).
  assert (Hes_ne : es <> []).
  { destruct rle as [|s rle'] eqn:Hr; [contradiction|].
    intros Hnil. specialize (Hmem s). rewrite Hnil in Hmem.
    destruct Hmem as (Hm & _). specialize (Hm ltac:(left)). inversion Hm. }
  destruct es as [|e0 es'] eqn:Hes; [contradiction|]. rewrite <- Hes in *.
  (* the encoder *)
  unfold Huffman.encodeHuffman.
  replace (length seq =? 0)%nat with false by (symmetry; apply Nat.eqb_neq; lia).
  fold rle. fold es.
  destruct (Huffman.assignCodes true 0 (match es with e :: _ => Huffman.len e | [] => 0 end)
                                es (replicate 256 (-1)) (zeros 256))
    as [codes lens] eqn:Hassign.
  pose proof (assignCodes_spec es [] true 0
                (match es with e :: _ => Huffman.len e | [] => 0 end)
                (replicate 256 (-1)) (zeros 256) Hgood
                (length_replicate _ _) (length_replicate _ _) (conj eq_refl eq_refl))
    as Hspec.
  rewrite Hassign in Hspec. cbn [fst snd] in Hspec.
  destruct Hspec as (_ & _ & Harr & _).
  assert (Hcodes : Forall (hasCode es (symBits codes lens)) rle).
  { apply Forall_forall. intros s Hs. apply Hmem in Hs.
    apply list_elem_of_fmap in Hs as (e & -> & He).
    apply list_elem_of_split in He as (a & b & Hab).
    exists a, e, b. split; [exact Hab|]. split; [reflexivity|].
    destruct (Harr a e b Hab) as (Hc & Hl). unfold symBits. rewrite Hc, Hl. reflexivity. }
  assert (Hlens_rle : Forall (fun s => aget lens (Z.to_nat s) = lenOf es s
                                        /\ 0 <= lenOf es s <= 30) rle).
  { apply Forall_forall. intros s Hs. apply Hmem in Hs.
    apply list_elem_of_fmap in Hs as (e & -> & He).
    rewrite Forall_forall in Hlens'. pose proof (Hlens' e He).
    apply list_elem_of_split in He as (a & b & Hab).
    destruct (Harr a e b Hab) as (_ & ->).
    assert (Hl : lenOf es (Huffman.symbol e) = Huffman.len e)
      by (rewrite Hab; apply lenOf_split; rewrite <- Hab; exact Hnd).
    rewrite Hl. lia. }
  set (hdr := Huffman.headerBytes es).
  set (cap0 := ((1 + length es * 2 + length rle) * 2)%nat).
  set (st0 := {| Huffman.p_acc := 0; Huffman.p_pending := 0;
                 Huffman.p_out := hdr; Huffman.p_cap := cap0 |}).
  assert (Hst0 : packed hdr cap0 [] st0).
  { exists []. simpl. rewrite app_nil_r. repeat split; auto; lia. }
  pose proof (pushSymbols_packed hdr cap0 codes lens rle) as Hpush.
  specialize (Hpush ltac:(eapply Forall_impl; [exact Hlens_rle|]; simpl; intros; lia) [] st0 Hst0).
  simpl app in Hpush.
  destruct (flush_packed hdr cap0 _ _ Hpush) as (body & pad & Hflush & Hbody & Hbits & _).
  { pose proof (length_symBits_sum codes lens es rle) as Hlen.
    specialize (Hlen ltac:(eapply Forall_impl; [exact Hlens_rle|]; simpl; intros; lia)).
    pose proof (sortedCodeLens_cost rle Hrle_ne Hlens ltac:(fold es; lia)) as Hcost.
    fold es in Hcost.
    unfold hdr. rewrite length_headerBytes. unfold cap0.
    assert (length (flat_map (symBits codes lens) rle) / 8 <= 2 * length rle)%nat.
    { apply Nat.Div0.div_le_upper_bound. lia. }
    lia. }
  rewrite Hflush.
  (* the decoder *)
  unfold Huffman.decodeHuffman.
  assert (Hhdr_len : length hdr = (1 + 2 * length es)%nat) by apply length_headerBytes.
  replace (length (hdr ++ body) =? 0)%nat with false
    by (symmetry; apply Nat.eqb_neq; rewrite length_app; lia).
  replace (length seq =? 0)%nat with false by (symmetry; apply Nat.eqb_neq; lia).
  cbn [orb].
  assert (Hcount0 : Z.to_nat (aget (hdr ++ body) 0) = length es).
  { unfold hdr, Huffman.headerBytes. simpl. unfold aget. simpl.
    rewrite toUint8_byte by (unfold isByte; lia). lia. }
  rewrite Hcount0.
  assert (Hentries : Huffman.readEntries (length es) (hdr ++ body) 1 = map toEntry es).
  { unfold hdr, Huffman.headerBytes.
    change (toUint8 (Z.of_nat (length es))
              :: flat_map (fun e => [toUint8 (Huffman.symbol e); toUint8 (Huffman.len e)]) es)
      with ([toUint8 (Z.of_nat (length es))]
              ++ flat_map (fun e => [toUint8 (Huffman.symbol e); toUint8 (Huffman.len e)]) es).
    rewrite <- app_assoc.
    apply (readEntries_header es) with (front := [toUint8 (Z.of_nat (length es))]).
    apply Forall_forall. intros e He.
    rewrite Forall_forall in Hsyms. rewrite Forall_forall in Hlens'.
    split; [apply Hsyms, He|]. pose proof (Hlens' e He). unfold isByte. lia. }
  rewrite Hentries.
  rewrite (sortBy_map toEntry Huffman.canonicalLe Huffman.entryLe es entryLe_toEntry).
  rewrite (sortBy_id Huffman.canonicalLe es Hsorted).
  assert (Hsymbols : map (fun e => wrap32 (default 0 (Huffman.e_symbol e))) (map toEntry es)
                     = map Huffman.symbol es).
  { rewrite map_map. apply map_ext_in. intros e He. simpl.
    apply wrap32_small. rewrite Forall_forall in Hsyms.
    pose proof (Hsyms e ltac:(apply list_elem_of_In; exact He)) as Hb.
    unfold isByte in Hb. lia. }
  rewrite Hsymbols.
  assert (Hm : map toEntry es = toEntry e0 :: map toEntry es')
    by (rewrite Hes; reflexivity).
  rewrite Hm. cbv iota beta. rewrite <- Hm.
  cbn [Huffman.e_len toEntry].
  set (t0 := {| Huffman.minCode := replicate Huffman.MAX_CODE_LEN (-1);
                Huffman.maxCode := replicate Huffman.MAX_CODE_LEN (-1);
                Huffman.valPtr := replicate Huffman.MAX_CODE_LEN (-1) |}).
  assert (Ht : tablesUpTo es es
                 (Huffman.tableLoop (length (map toEntry es)) (map toEntry es)
                    (foldl Huffman.countLen (zeros (Huffman.MAX_CODE_LEN + 1)) (map toEntry es))
                    0 0 (Some (Huffman.len e0)) 0 t0)).
  { apply (tableLoop_spec es (length (map toEntry es)) Hgood [] es t0 0 (Some (Huffman.len e0))).
    - reflexivity.
    - rewrite length_map. lia.
    - intros x y Hx. inversion Hx.
    - split; [reflexivity|]. rewrite Hes. reflexivity.
    - unfold tablesUpTo, t0. cbn [Huffman.minCode Huffman.maxCode Huffman.valPtr].
      split; [apply length_replicate|]. split; [apply length_replicate|].
      split; [apply length_replicate|]. split.
      + intros l Hl. left. unfold aget.
        rewrite lookup_replicate_2 by (unfold Huffman.MAX_CODE_LEN; lia). reflexivity.
      + intros e He. inversion He. }
  set (t := Huffman.tableLoop _ _ _ 0 0 (Some (Huffman.len e0)) 0 t0) in *.
  set (rst0 := {| Huffman.r_p := (1 + 2 * length es)%nat; Huffman.r_acc := 0;
                  Huffman.r_bits := 0; Huffman.r_rle := [] |}).
  destruct (decodeLoop_spec es t (hdr ++ body) (symBits codes lens)
              (length seq * 2) (Huffman.len e0) Hgood Ht) with
      (syms := rle) (st := rst0) (fuel := (length seq * 2)%nat) (pad := replicate pad false)
    as (junk & Hdecoded).
  - apply Forall_app. split; [apply headerBytes_bytes|exact Hbody].
  - rewrite Hes in Hss |- *. apply StronglySorted_inv in Hss as (_ & Hall).
    apply Forall_forall. intros e He.
    split; [|rewrite Forall_forall in Hlens24; apply Hlens24; rewrite Hes; exact He].
    apply elem_of_cons in He as [->|He]; [lia|].
    rewrite Forall_forall in Hall. apply (Hall e He).
  - exact Hcodes.
  - unfold stream, rst0. cbn [Huffman.r_acc Huffman.r_bits Huffman.r_p].
    rewrite <- Hhdr_len. rewrite drop_app_length. exact Hbits.
  - unfold rst0. cbn [Huffman.r_bits]. lia.
  - unfold rst0. cbn [Huffman.r_rle]. change (length (@nil Z)) with 0%nat. lia.
  - unfold rst0. cbn [Huffman.r_rle]. change (length (@nil Z)) with 0%nat. lia.
  - rewrite Hdecoded. unfold rst0. cbn [Huffman.r_rle app]. unfold rle.
    unfold Huffman.rleEncode.
    rewrite (expand_rleLoop _ (Huffman.deltaEncode seq) _ junk [] 0 (length seq)).
    + rewrite app_nil_r, reverse_involutive, length_decodeDeltas.
      unfold Huffman.deltaEncode. rewrite length_deltaFrom, Nat.sub_diag.
      apply f_equal, app_nil_r.
    + lia.
    + apply deltaFrom_byte.
    + unfold Huffman.deltaEncode. rewrite length_deltaFrom. reflexivity.
    + apply Nat.le_refl.
Qed.


(** C2 (amended): the Huffman codec returns a byte sequence unchanged when
    no step of the sequence (counted from 0) leaves [-128, 127], its
    run-length stream has at most twice its length, and the code table has
    at most 255 entries of at most 24 bits. *)
Theorem C2_huffman_roundtrip (seq : list Z) :
  Forall isByte seq ->
  stepsInRange 0 seq ->
  (length (Huffman.rleEncode (Huffman.deltaEncode seq)) <= 2 * length seq)%nat ->
  (length (Huffman.sortedCodeLens (Huffman.rleEncode (Huffman.deltaEncode seq))) <= 255)%nat ->
  Forall (fun e => Huffman.len e <= 24)
         (Huffman.sortedCodeLens (Huffman.rleEncode (Huffman.deltaEncode seq))) ->
  Huffman.decodeHuffman (Huffman.encodeHuffman seq) (length seq) = Ok seq.
Proof.
  intros Hbytes Hsteps Hrlelen Hcount Hlens.
  rewrite decode_of_encode by assumption.
  unfold Huffman.deltaEncode. rewrite decodeDeltas_deltaFrom by assumption.
  reflexivity.
Qed.

(** *** Where the round trip ends *)

Lemma Forall_of_forallb {A : Type} (P : A -> Prop) (f : A -> bool) (l : list A) :
  (forall x, f x = true -> P x) -> forallb f l = true -> Forall P l.
Proof.
  intros HfP. induction l as [|x l IH]; simpl; [constructor|].
  intros H. apply andb_prop in H as (Hx & Hl). constructor; auto.
Qed.

Lemma isByteb_spec (v : Z) : isByteb v = true -> isByte v.
Proof. unfold isByteb, isByte. lia. Qed.

Lemma stepsInRangeb_spec (data : list Z) :
  forall prev, stepsInRangeb prev data = true -> stepsInRange prev data.
Proof.
  induction data as [|v data IH]; intros prev; simpl; [auto|].
  intros H. apply andb_prop in H as (H & Hrest). split; [lia|apply IH, Hrest].
Qed.

(** A step of 200 is clamped to 127 by the delta stage. *)
Lemma clamped_step_is_lost :
  Forall isByte [0; 200]
  /\ Huffman.decodeHuffman (Huffman.encodeHuffman [0; 200]) (length [0; 200]) = Ok [0; 127]
  /\ Huffman.decodeHuffman (Huffman.encodeHuffman [0; 200]) (length [0; 200])
     <> Ok [0; 200].
Proof.
  split; [repeat constructor; unfold isByte; lia|].
  split; [vm_compute; reflexivity|]. vm_compute. discriminate.
Qed.

(** The byte 127 alone: its run-length stream 255, 1, 255 has three
    symbols, the decoder stops after two and returns 0. *)
Lemma short_stream_is_cut :
  Forall isByte [127] /\ stepsInRange 0 [127]
  /\ Huffman.rleEncode (Huffman.deltaEncode [127]) = [255; 1; 255]
  /\ Huffman.sortedCodeLens (Huffman.rleEncode (Huffman.deltaEncode [127]))
     = [{| Huffman.symbol := 1; Huffman.len := 1 |};
        {| Huffman.symbol := 255; Huffman.len := 1 |}]
  /\ Huffman.decodeHuffman (Huffman.encodeHuffman [127]) (length [127]) = Ok [0].
Proof.
  split; [repeat constructor; unfold isByte; lia|].
  split; [simpl; lia|].
  repeat split; vm_compute; reflexivity.
Qed.

(** A sequence with all 256 delta bytes: the table has 256 entries, the
    count byte of the header is 0 and the decoder throws. *)
Lemma full_table_is_rejected :
  Forall isByte allDeltasSeq /\ stepsInRange 0 allDeltasSeq
  /\ (length (Huffman.rleEncode (Huffman.deltaEncode allDeltasSeq))
      <= 2 * length allDeltasSeq)%nat
  /\ length (Huffman.sortedCodeLens (Huffman.rleEncode (Huffman.deltaEncode allDeltasSeq)))
     = 256%nat
  /\ Forall (fun e => Huffman.len e <= 24)
            (Huffman.sortedCodeLens (Huffman.rleEncode (Huffman.deltaEncode allDeltasSeq)))
  /\ Huffman.decodeHuffman (Huffman.encodeHuffman allDeltasSeq) (length allDeltasSeq)
     = Throw TypeError.
Proof.
  split; [apply (Forall_of_forallb _ isByteb _ isByteb_spec); vm_compute; reflexivity|].
  split; [apply stepsInRangeb_spec; vm_compute; reflexivity|].
  split; [apply Nat.leb_le; vm_compute; reflexivity|].
  split; [vm_compute; reflexivity|].
  split; [|vm_compute; reflexivity].
  apply (Forall_of_forallb _ (fun e => Huffman.len e <=? 24)); [intros e; lia|].
  vm_compute. reflexivity.
Qed.

(** A sequence whose first symbol gets a code of 25 bits: the decoder
    holds 24 bits when it starts, reads no symbol and returns zeros. *)
Lemma long_code_is_lost :
  Forall isByte longCodeSeq /\ stepsInRange 0 longCodeSeq
  /\ (length (Huffman.rleEncode (Huffman.deltaEncode longCodeSeq))
      <= 2 * length longCodeSeq)%nat
  /\ map Huffman.len
         (Huffman.sortedCodeLens (Huffman.rleEncode (Huffman.deltaEncode longCodeSeq)))
     = [1; 2; 3; 4; 5; 6; 7; 8; 9; 10; 11; 12; 13; 14; 15; 16; 17; 18; 19; 20;
        21; 22; 23; 24; 25; 25]
  /\ Huffman.decodeHuffman (Huffman.encodeHuffman longCodeSeq) (length longCodeSeq)
     = Ok (zeros (length longCodeSeq))
  /\ Huffman.decodeHuffman (Huffman.encodeHuffman longCodeSeq) (length longCodeSeq)
     <> Ok longCodeSeq.
Proof.
  split; [exact longCodeSeq_bytes|].
  split; [exact longCodeSeq_steps|].
  split; [rewrite longCodeSeq_rle, longCodeSeq_length; lia|].
  split; [rewrite longCodeSeq_rle, longCodeDeltas_table; reflexivity|].
  split; [exact longCodeSeq_roundtrip|].
  rewrite longCodeSeq_roundtrip. unfold longCodeSeq.
  cbn [length zeros replicate]. intros Heq.
  apply (f_equal (fun r => match r with Ok (x :: _) => x | _ => 0 end)) in Heq.
  cbv beta iota in Heq. discriminate Heq.
Qed.

(** C2 (as stated, refuted): the round trip changes four byte sequences.
    Each of them meets all conditions of the round trip but one.
    - 0, 200 has a step above 127; 0, 127 comes back.
    - 127 has a run-length stream of three symbols, more than twice its
      length; 0 comes back.
    - [allDeltasSeq] has 256 distinct stream symbols; the decoder throws.
    - [longCodeSeq] has a code of 25 bits at its start; zeros come back. *)
Lemma C2_roundtrip_is_lost :
  (Forall isByte [0; 200]
   /\ Huffman.decodeHuffman (Huffman.encodeHuffman [0; 200]) (length [0; 200]) = Ok [0; 127]
   /\ Huffman.decodeHuffman (Huffman.encodeHuffman [0; 200]) (length [0; 200])
      <> Ok [0; 200])
  /\ (Forall isByte [127] /\ stepsInRange 0 [127]
      /\ Huffman.rleEncode (Huffman.deltaEncode [127]) = [255; 1; 255]
      /\ map Huffman.len (Huffman.sortedCodeLens (Huffman.rleEncode (Huffman.deltaEncode [127])))
         = [1; 1]
      /\ Huffman.decodeHuffman (Huffman.encodeHuffman [127]) (length [127]) = Ok [0]
      /\ Huffman.decodeHuffman (Huffman.encodeHuffman [127]) (length [127]) <> Ok [127])
  /\ (Forall isByte allDeltasSeq /\ stepsInRange 0 allDeltasSeq
      /\ (length (Huffman.rleEncode (Huffman.deltaEncode allDeltasSeq))
          <= 2 * length allDeltasSeq)%nat
      /\ length (Huffman.sortedCodeLens (Huffman.rleEncode (Huffman.deltaEncode allDeltasSeq)))
         = 256%nat
      /\ Forall (fun e => Huffman.len e <= 24)
                (Huffman.sortedCodeLens (Huffman.rleEncode (Huffman.deltaEncode allDeltasSeq)))
      /\ Huffman.decodeHuffman (Huffman.encodeHuffman allDeltasSeq) (length allDeltasSeq)
         = Throw TypeError
      /\ Huffman.decodeHuffman (Huffman.encodeHuffman allDeltasSeq) (length allDeltasSeq)
         <> Ok allDeltasSeq)
  /\ (Forall isByte longCodeSeq /\ stepsInRange 0 longCodeSeq
      /\ (length (Huffman.rleEncode (Huffman.deltaEncode longCodeSeq))
          <= 2 * length longCodeSeq)%nat
      /\ map Huffman.len
             (Huffman.sortedCodeLens (Huffman.rleEncode (Huffman.deltaEncode longCodeSeq)))
         = [1; 2; 3; 4; 5; 6; 7; 8; 9; 10; 11; 12; 13; 14; 15; 16; 17; 18; 19; 20;
            21; 22; 23; 24; 25; 25]
      /\ Huffman.decodeHuffman (Huffman.encodeHuffman longCodeSeq) (length longCodeSeq)
         = Ok (zeros (length longCodeSeq))
      /\ Huffman.decodeHuffman (Huffman.encodeHuffman longCodeSeq) (length longCodeSeq)
         <> Ok longCodeSeq).
Proof.
  destruct short_stream_is_cut as (Hb2 & Hs2 & Hr2 & Ht2 & Hd2).
  destruct full_table_is_rejected as (Hb3 & Hs3 & Hr3 & Ht3 & Hl3 & Hd3).
  assert (Hne2 : Huffman.decodeHuffman (Huffman.encodeHuffman [127]) (length [127])
                 <> Ok [127]) by (rewrite Hd2; discriminate).
  assert (Hne3 : Huffman.decodeHuffman (Huffman.encodeHuffman allDeltasSeq)
                                       (length allDeltasSeq)
                 <> Ok allDeltasSeq) by (rewrite Hd3; discriminate).
  assert (Hlen2 : map Huffman.len
                      (Huffman.sortedCodeLens (Huffman.rleEncode (Huffman.deltaEncode [127])))
                  = [1; 1]) by (rewrite Ht2; reflexivity).
  exact (conj clamped_step_is_lost
           (conj (conj Hb2 (conj Hs2 (conj Hr2 (conj Hlen2 (conj Hd2 Hne2)))))
              (conj (conj Hb3 (conj Hs3 (conj Hr3 (conj Ht3 (conj Hl3 (conj Hd3 Hne3))))))
                    long_code_is_lost))).
Qed.

Lemma C2_huffman_roundtrip_witness :
  Huffman.decodeHuffman
    (Huffman.encodeHuffman [100; 200; 255; 255; 255; 255; 255; 255])
    (length [100; 200; 255; 255; 255; 255; 255; 255])
  = Ok [100; 200; 255; 255; 255; 255; 255; 255].
Proof.
  apply (C2_huffman_roundtrip [100; 200; 255; 255; 255; 255; 255; 255]).
  - repeat constructor; unfold isByte; lia.
  - simpl. lia.
  - vm_compute. lia.
  - vm_compute. lia.
  - replace (Huffman.sortedCodeLens
               (Huffman.rleEncode
                  (Huffman.deltaEncode [100; 200; 255; 255; 255; 255; 255; 255])))
      with [{| Huffman.symbol := 228; Huffman.len := 1 |};
            {| Huffman.symbol := 5; Huffman.len := 3 |};
            {| Huffman.symbol := 128; Huffman.len := 3 |};
            {| Huffman.symbol := 183; Huffman.len := 3 |};
            {| Huffman.symbol := 255; Huffman.len := 3 |}]
      by (vm_compute; reflexivity).
    repeat constructor; simpl; lia.
Defined.

(* ================================================================== *)
(** * Part III: further properties of the codec                        *)
(* ================================================================== *)

(** ** The container: layout and round trip *)

Lemma be32_sum (u : Z) :
  u / 2 ^ 24 * 2 ^ 24 + (u / 2 ^ 16) mod 256 * 2 ^ 16 + (u / 2 ^ 8) mod 256 * 2 ^ 8 + u mod 256 = u.
Proof.
  pose proof (Z.div_mod u 256 ltac:(lia)) as H0.
  pose proof (Z.div_mod (u / 2 ^ 8) 256 ltac:(lia)) as H1.
  pose proof (Z.div_mod (u / 2 ^ 16) 256 ltac:(lia)) as H2.
  replace (u / 2 ^ 8 / 256) with (u / 2 ^ 16) in H1
    by (rewrite Z.div_div by lia; reflexivity).
  replace (u / 2 ^ 16 / 256) with (u / 2 ^ 24) in H2
    by (rewrite Z.div_div by lia; reflexivity).
  change (u / 256) with (u / 2 ^ 8) in H0.
  lia.
Qed.

Lemma getUint8_app (front l : list Z) (k : nat) :
  Container.getUint8 (front ++ l) (length front + k) = Container.getUint8 l k.
Proof.
  unfold Container.getUint8. rewrite lookup_app_r by lia.
  replace (length front + k - length front)%nat with k by lia. reflexivity.
Qed.

Lemma getUint32_app (front l : list Z) (k : nat) :
  Container.getUint32 (front ++ l) (length front + k) = Container.getUint32 l k.
Proof.
  unfold Container.getUint32.
  rewrite <- !Nat.add_assoc, !getUint8_app. reflexivity.
Qed.

Lemma getUint32_setUint32 (v : Z) (rest : list Z) :
  Container.getUint32 (Container.setUint32 v ++ rest) 0 = Ok (toUint32 v).
Proof.
  unfold Container.getUint32, Container.getUint8, Container.setUint32.
  cbn. f_equal. apply be32_sum.
Qed.

Lemma getUint32_field (front rest : list Z) (v : Z) (k : nat) :
  k = length front ->
  Container.getUint32 (front ++ Container.setUint32 v ++ rest) k = Ok (toUint32 v).
Proof.
  intros ->. rewrite <- (Nat.add_0_r (length front)).
  rewrite getUint32_app. apply getUint32_setUint32.
Qed.

Lemma length_setUint32 (v : Z) : length (Container.setUint32 v) = 4%nat.
Proof. reflexivity. Qed.

Lemma slice_app (front a rest : list Z) (from n : nat) :
  from = length front -> n = length a ->
  slice (front ++ a ++ rest) from n = a.
Proof.
  intros -> ->. unfold slice. rewrite drop_app_length. apply take_app_length.
Qed.

Lemma toUint32_length (l : list Z) :
  Z.of_nat (length l) < 2 ^ 32 -> Z.to_nat (toUint32 (Z.of_nat (length l))) = length l.
Proof.
  intros H. unfold toUint32. rewrite Z.mod_small by lia. lia.
Qed.

(** Building a container and parsing it again returns the fields that were
    stored: version 1, the dimensions as 32-bit unsigned values, the block
    size clamped to [2, 255] and the discard count clamped to [0, 255], the
    smooth flag, the four payload sections unchanged, and the total size.
    Each payload must be short enough for its length to fit the 32-bit
    header field. *)
Theorem buildContainer_parse_roundtrip (c : Container.ContainerInput) :
  Z.of_nat (length (Container.in_qoi c)) < 2 ^ 32 ->
  Z.of_nat (length (Container.in_huffmanY c)) < 2 ^ 32 ->
  Z.of_nat (length (Container.in_huffmanCb c)) < 2 ^ 32 ->
  Z.of_nat (length (Container.in_huffmanCr c)) < 2 ^ 32 ->
  Container.parseContainer (Container.buildContainer c)
  = Ok {| Container.version := 1;
          Container.width := toUint32 (Container.in_width c);
          Container.height := toUint32 (Container.in_height c);
          Container.blockSize := Z.max 2 (Z.min 255 (Container.in_blockSize c));
          Container.discardBits := Z.max 0 (Z.min 255 (Container.in_discardBits c));
          Container.smooth := Container.in_smooth c;
          Container.qoi := Container.in_qoi c;
          Container.huffmanY := Container.in_huffmanY c;
          Container.huffmanCb := Container.in_huffmanCb c;
          Container.huffmanCr := Container.in_huffmanCr c;
          Container.totalSize :=
            (32 + length (Container.in_qoi c) + length (Container.in_huffmanY c)
             + length (Container.in_huffmanCb c) + length (Container.in_huffmanCr c))%nat |}.
Proof.
  destruct c as [w h bs db sm q y cb cr]. cbn [Container.in_width Container.in_height
    Container.in_blockSize Container.in_discardBits Container.in_smooth Container.in_qoi
    Container.in_huffmanY Container.in_huffmanCb Container.in_huffmanCr].
  intros Hq Hy Hcb Hcr.
  unfold Container.buildContainer. cbn [Container.in_width Container.in_height
    Container.in_blockSize Container.in_discardBits Container.in_smooth Container.in_qoi
    Container.in_huffmanY Container.in_huffmanCb Container.in_huffmanCr].
  set (block := Z.max 2 (Z.min 255 bs)). set (discard := Z.max 0 (Z.min 255 db)).
  set (ctl := [toUint8 1; toUint8 block; toUint8 discard; toUint8 (if sm then 1 else 0)]).
  set (B := Container.CONTAINER_MAGIC ++ ctl ++ _).
  assert (Hw : Container.getUint32 B 8 = Ok (toUint32 w)).
  { unfold B. rewrite (app_assoc _ ctl). apply getUint32_field. reflexivity. }
  assert (Hh : Container.getUint32 B 12 = Ok (toUint32 h)).
  { unfold B. rewrite !(app_assoc _ _ (Container.setUint32 h ++ _)).
    apply getUint32_field. reflexivity. }
  assert (Hql : Container.getUint32 B 16 = Ok (toUint32 (Z.of_nat (length q)))).
  { unfold B. rewrite !(app_assoc _ _ (Container.setUint32 (Z.of_nat (length q)) ++ _)).
    apply getUint32_field. reflexivity. }
  assert (Hyl : Container.getUint32 B 20 = Ok (toUint32 (Z.of_nat (length y)))).
  { unfold B. rewrite !(app_assoc _ _ (Container.setUint32 (Z.of_nat (length y)) ++ _)).
    apply getUint32_field. reflexivity. }
  assert (Hcbl : Container.getUint32 B 24 = Ok (toUint32 (Z.of_nat (length cb)))).
  { unfold B. rewrite !(app_assoc _ _ (Container.setUint32 (Z.of_nat (length cb)) ++ _)).
    apply getUint32_field. reflexivity. }
  assert (Hcrl : Container.getUint32 B 28 = Ok (toUint32 (Z.of_nat (length cr)))).
  { unfold B. rewrite !(app_assoc _ _ (Container.setUint32 (Z.of_nat (length cr)) ++ _)).
    apply getUint32_field. reflexivity. }
  unfold Container.parseContainer.
  rewrite Hw, Hh, Hql, Hyl, Hcbl, Hcrl.
  replace (Container.getUint8 B 0) with (Ok 75 : result Z) by reflexivity.
  replace (Container.getUint8 B 1) with (Ok 77 : result Z) by reflexivity.
  replace (Container.getUint8 B 2) with (Ok 82 : result Z) by reflexivity.
  replace (Container.getUint8 B 3) with (Ok 49 : result Z) by reflexivity.
  replace (Container.getUint8 B 4) with (Ok 1 : result Z) by reflexivity.
  replace (Container.getUint8 B 5) with (Ok (toUint8 block) : result Z) by reflexivity.
  replace (Container.getUint8 B 6) with (Ok (toUint8 discard) : result Z) by reflexivity.
  replace (Container.getUint8 B 7) with (Ok (toUint8 (if sm then 1 else 0)) : result Z)
    by reflexivity.
  cbn [mbind result_bind mret result_ret]. 
  replace (bool_decide ([75; 77; 82; 49] = Container.CONTAINER_MAGIC)) with true by reflexivity.
  cbn [negb Z.eqb Pos.eqb].
  rewrite !toUint32_length by assumption.
  assert (Hlen : length B = (32 + length q + length y + length cb + length cr)%nat).
  { unfold B. rewrite !length_app, !length_setUint32. simpl. lia. }
  rewrite Hlen.
  f_equal. f_equal.
  - unfold toUint8, block. rewrite Z.mod_small; lia.
  - unfold toUint8, discard. rewrite Z.mod_small; lia.
  - destruct sm; reflexivity.
  - unfold B. rewrite !(app_assoc _ _ (q ++ _)). apply slice_app; [|reflexivity].
    rewrite !length_app, !length_setUint32. reflexivity.
  - unfold B. rewrite !(app_assoc _ _ (y ++ _)). apply slice_app; [|reflexivity].
    rewrite !length_app, !length_setUint32. simpl. lia.
  - unfold B. rewrite !(app_assoc _ _ (cb ++ _)). apply slice_app; [|reflexivity].
    rewrite !length_app, !length_setUint32. simpl. lia.
  - unfold B. rewrite !(app_assoc _ _ cr). rewrite <- (app_nil_r cr) at 2.
    apply slice_app; [|reflexivity].
    rewrite !length_app, !length_setUint32. simpl. lia.
Qed.

Lemma buildContainer_parse_roundtrip_witness :
  Container.parseContainer
    (Container.buildContainer
       {| Container.in_width := 3; Container.in_height := 2;
          Container.in_blockSize := 300; Container.in_discardBits := -1;
          Container.in_smooth := true; Container.in_qoi := [1; 2; 3];
          Container.in_huffmanY := [4]; Container.in_huffmanCb := [];
          Container.in_huffmanCr := [5; 6] |})
  = Ok {| Container.version := 1; Container.width := 3; Container.height := 2;
          Container.blockSize := 255; Container.discardBits := 0;
          Container.smooth := true; Container.qoi := [1; 2; 3];
          Container.huffmanY := [4]; Container.huffmanCb := [];
          Container.huffmanCr := [5; 6]; Container.totalSize := 38 |}.
Proof.
  apply (buildContainer_parse_roundtrip
           {| Container.in_width := 3; Container.in_height := 2;
              Container.in_blockSize := 300; Container.in_discardBits := -1;
              Container.in_smooth := true; Container.in_qoi := [1; 2; 3];
              Container.in_huffmanY := [4]; Container.in_huffmanCb := [];
              Container.in_huffmanCr := [5; 6] |}); simpl; lia.
Defined.

Lemma getUint8_cases (buffer : list Z) (i : nat) :
  (exists b, Container.getUint8 buffer i = Ok b)
  \/ Container.getUint8 buffer i = Throw RangeError.
Proof. unfold Container.getUint8. destruct (buffer !! i); eauto. Qed.

Lemma getUint32_cases (buffer : list Z) (i : nat) :
  (exists b, Container.getUint32 buffer i = Ok b)
  \/ Container.getUint32 buffer i = Throw RangeError.
Proof.
  destruct (decide (i + 4 <= length buffer)%nat).
  - left. apply getUint32_ok. lia.
  - right. apply getUint32_throw. lia.
Qed.

(** What a rejected buffer raises.  The header is read front to back: a
    buffer that ends before the next field is read raises the
    [RangeError] of [DataView], a wrong magic raises 'Invalid container
    magic' even when the buffer is too short to hold a header, and the
    version is looked at only after the magic; the message for a wrong
    version ends with the version byte in decimal. *)
Theorem parseContainer_rejections (buffer : list Z) :
  ((length buffer < 4)%nat -> Container.parseContainer buffer = Throw RangeError)
  /\ ((4 <= length buffer)%nat -> take 4 buffer <> Container.CONTAINER_MAGIC ->
      Container.parseContainer buffer = Throw (Error "Invalid container magic"))
  /\ (take 4 buffer = Container.CONTAINER_MAGIC -> (length buffer < 32)%nat ->
      (buffer !! 4%nat = None \/ buffer !! 4%nat = Some 1) ->
      Container.parseContainer buffer = Throw RangeError)
  /\ (take 4 buffer = Container.CONTAINER_MAGIC ->
      forall v, buffer !! 4%nat = Some v -> v <> 1 ->
      Container.parseContainer buffer
      = Throw (Error ("Unsupported container version: " ++ decimal v))).
Proof.
  unfold Container.parseContainer.
  split; [|split; [|split]].
  - intros Hlen. unfold Container.getUint8.
    destruct buffer as [|a0 [|a1 [|a2 [|a3 rest]]]]; simpl in *; try reflexivity; lia.
  - intros Hlen Hm.
    destruct buffer as [|a0 [|a1 [|a2 [|a3 rest]]]]; simpl in Hlen; try lia.
    cbn in Hm |- *.
    destruct (bool_decide_reflect ([a0; a1; a2; a3] = Container.CONTAINER_MAGIC));
      [contradiction|reflexivity].
  - intros Hm Hlen H4.
    assert (Hbd : bool_decide ([75; 77; 82; 49] = Container.CONTAINER_MAGIC) = true)
      by reflexivity.
    destruct buffer as [|a0 [|a1 [|a2 [|a3 rest]]]]; try discriminate.
    cbn in Hm. injection Hm as -> -> -> ->.
    remember (75 :: 77 :: 82 :: 49 :: rest) as B eqn:HB in *.
    replace (Container.getUint8 B 0) with (Ok 75 : result Z) by (subst B; reflexivity).
    replace (Container.getUint8 B 1) with (Ok 77 : result Z) by (subst B; reflexivity).
    replace (Container.getUint8 B 2) with (Ok 82 : result Z) by (subst B; reflexivity).
    replace (Container.getUint8 B 3) with (Ok 49 : result Z) by (subst B; reflexivity).
    cbn [mbind result_bind]. rewrite Hbd. cbn [negb].
    destruct H4 as [H4|H4].
    { replace (Container.getUint8 B 4) with (Throw RangeError : result Z)
        by (unfold Container.getUint8; rewrite H4; reflexivity).
      reflexivity. }
    replace (Container.getUint8 B 4) with (Ok 1 : result Z)
      by (unfold Container.getUint8; rewrite H4; reflexivity).
    cbn [mbind result_bind Z.eqb Pos.eqb negb].
    destruct (getUint8_cases B 5) as [(b5 & ->)| ->]; cbn [mbind result_bind]; [|reflexivity].
    destruct (getUint8_cases B 6) as [(b6 & ->)| ->]; cbn [mbind result_bind]; [|reflexivity].
    destruct (getUint8_cases B 7) as [(b7 & ->)| ->]; cbn [mbind result_bind]; [|reflexivity].
    destruct (getUint32_cases B 8) as [(w & ->)| ->]; cbn [mbind result_bind]; [|reflexivity].
    destruct (getUint32_cases B 12) as [(h & ->)| ->]; cbn [mbind result_bind]; [|reflexivity].
    destruct (getUint32_cases B 16) as [(l1 & ->)| ->]; cbn [mbind result_bind]; [|reflexivity].
    destruct (getUint32_cases B 20) as [(l2 & ->)| ->]; cbn [mbind result_bind]; [|reflexivity].
    destruct (getUint32_cases B 24) as [(l3 & ->)| ->]; cbn [mbind result_bind]; [|reflexivity].
    rewrite getUint32_throw by lia. reflexivity.
  - intros Hm v H4 Hv.
    assert (Hbd : bool_decide ([75; 77; 82; 49] = Container.CONTAINER_MAGIC) = true)
      by reflexivity.
    destruct buffer as [|a0 [|a1 [|a2 [|a3 rest]]]]; try discriminate.
    cbn in Hm. injection Hm as -> -> -> ->.
    remember (75 :: 77 :: 82 :: 49 :: rest) as B eqn:HB in *.
    replace (Container.getUint8 B 0) with (Ok 75 : result Z) by (subst B; reflexivity).
    replace (Container.getUint8 B 1) with (Ok 77 : result Z) by (subst B; reflexivity).
    replace (Container.getUint8 B 2) with (Ok 82 : result Z) by (subst B; reflexivity).
    replace (Container.getUint8 B 3) with (Ok 49 : result Z) by (subst B; reflexivity).
    cbn [mbind result_bind]. rewrite Hbd. cbn [negb].
    replace (Container.getUint8 B 4) with (Ok v : result Z)
      by (unfold Container.getUint8; rewrite H4; reflexivity).
    cbn [mbind result_bind].
    destruct (Z.eqb_spec v 1); [contradiction|]. cbn [negb]. reflexivity.
Qed.

Lemma parseContainer_inv (buffer : list Z) (p : Container.ParsedContainer) :
  Container.parseContainer buffer = Ok p ->
  exists b5 b6 b7 w h l1 l2 l3 l4,
    Container.getUint8 buffer 5 = Ok b5
    /\ Container.getUint8 buffer 6 = Ok b6
    /\ Container.getUint8 buffer 7 = Ok b7
    /\ Container.getUint32 buffer 8 = Ok w
    /\ Container.getUint32 buffer 12 = Ok h
    /\ Container.getUint32 buffer 16 = Ok l1
    /\ Container.getUint32 buffer 20 = Ok l2
    /\ Container.getUint32 buffer 24 = Ok l3
    /\ Container.getUint32 buffer 28 = Ok l4
    /\ p = {| Container.version := 1; Container.width := w; Container.height := h;
              Container.blockSize := b5; Container.discardBits := b6;
              Container.smooth := b7 =? 1;
              Container.qoi := slice buffer 32 (Z.to_nat l1);
              Container.huffmanY := slice buffer (32 + Z.to_nat l1) (Z.to_nat l2);
              Container.huffmanCb :=
                slice buffer (32 + Z.to_nat l1 + Z.to_nat l2) (Z.to_nat l3);
              Container.huffmanCr :=
                slice buffer (32 + Z.to_nat l1 + Z.to_nat l2 + Z.to_nat l3) (Z.to_nat l4);
              Container.totalSize := length buffer |}.
Proof.
  unfold Container.parseContainer.
  destruct (Container.getUint8 buffer 0) as [m0|]; simpl; [|discriminate].
  destruct (Container.getUint8 buffer 1) as [m1|]; simpl; [|discriminate].
  destruct (Container.getUint8 buffer 2) as [m2|]; simpl; [|discriminate].
  destruct (Container.getUint8 buffer 3) as [m3|]; simpl; [|discriminate].
  destruct (negb _); [discriminate|].
  destruct (Container.getUint8 buffer 4) as [v|]; simpl; [|discriminate].
  destruct (Z.eqb_spec v 1) as [->|]; simpl; [|discriminate].
  destruct (Container.getUint8 buffer 5) as [b5|]; simpl; [|discriminate].
  destruct (Container.getUint8 buffer 6) as [b6|]; simpl; [|discriminate].
  destruct (Container.getUint8 buffer 7) as [b7|]; simpl; [|discriminate].
  destruct (Container.getUint32 buffer 8) as [w|]; simpl; [|discriminate].
  destruct (Container.getUint32 buffer 12) as [h|]; simpl; [|discriminate].
  destruct (Container.getUint32 buffer 16) as [l1|]; simpl; [|discriminate].
  destruct (Container.getUint32 buffer 20) as [l2|]; simpl; [|discriminate].
  destruct (Container.getUint32 buffer 24) as [l3|]; simpl; [|discriminate].
  destruct (Container.getUint32 buffer 28) as [l4|]; simpl; [|discriminate].
  intros [= <-]. exists b5, b6, b7, w, h, l1, l2, l3, l4. repeat split; reflexivity.
Qed.

Lemma slice_slice (l : list Z) (from a b : nat) :
  slice l from a ++ slice l (from + a) b = slice l from (a + b).
Proof.
  unfold slice. rewrite <- drop_drop. apply take_take_drop.
Qed.

(** The four sections a parsed container holds are consecutive pieces of
    the buffer: the buffer is its 32-byte header, then the QOI section, the
    three Huffman sections in the order Y, Cb, Cr, and whatever bytes are
    left over.  Sections never overlap and never reach outside the buffer. *)
Theorem parseContainer_sections_tile_buffer (buffer : list Z)
        (p : Container.ParsedContainer) :
  Container.parseContainer buffer = Ok p ->
  exists rest,
    buffer = take 32 buffer ++ Container.qoi p ++ Container.huffmanY p
             ++ Container.huffmanCb p ++ Container.huffmanCr p ++ rest
    /\ Container.totalSize p = length buffer.
Proof.
  intros Hp.
  destruct (parseContainer_inv buffer p Hp)
    as (b5 & b6 & b7 & w & h & l1 & l2 & l3 & l4 & _ & _ & _ & _ & _ & _ & _ & _ & _ & ->).
  cbn [Container.qoi Container.huffmanY Container.huffmanCb Container.huffmanCr
       Container.totalSize].
  set (a := Z.to_nat l1). set (b := Z.to_nat l2). set (c := Z.to_nat l3).
  set (d := Z.to_nat l4).
  exists (drop (32 + a + b + c + d) buffer). split; [|reflexivity].
  rewrite (app_assoc (slice buffer (32 + a + b) c)), slice_slice.
  rewrite (app_assoc (slice buffer (32 + a) b)), slice_slice.
  rewrite (app_assoc (slice buffer 32 a)), slice_slice.
  unfold slice.
  replace (drop (32 + a + b + c + d) buffer)
    with (drop (a + (b + (c + d))) (drop 32 buffer))
    by (rewrite drop_drop; f_equal; lia).
  rewrite take_drop. symmetry. apply take_drop.
Qed.

Lemma parseContainer_sections_tile_buffer_witness :
  exists p,
    Container.parseContainer (headerOnly 1 2 1 0 3 ++ [9; 8; 7; 6]) = Ok p
    /\ exists rest,
         headerOnly 1 2 1 0 3 ++ [9; 8; 7; 6]
         = take 32 (headerOnly 1 2 1 0 3 ++ [9; 8; 7; 6])
           ++ Container.qoi p ++ Container.huffmanY p
           ++ Container.huffmanCb p ++ Container.huffmanCr p ++ rest
         /\ Container.totalSize p = length (headerOnly 1 2 1 0 3 ++ [9; 8; 7; 6]).
Proof.
  eexists. split.
  - vm_compute. reflexivity.
  - apply (parseContainer_sections_tile_buffer (headerOnly 1 2 1 0 3 ++ [9; 8; 7; 6])).
    vm_compute. reflexivity.
Defined.
(** ** The Paeth predictor at the borders, and the opposite round trip *)

Lemma paeth_left_only (a : Z) : Paeth.paeth a 0 0 = a.
Proof.
  unfold Paeth.paeth.
  replace (a + 0 - 0 - a) with 0 by lia. replace (a + 0 - 0 - 0) with a by lia.
  change (Z.abs 0) with 0.
  destruct (Z.leb_spec 0 (Z.abs a)); [reflexivity|lia].
Qed.

Lemma paeth_up_only (b : Z) : Paeth.paeth 0 b 0 = b.
Proof.
  unfold Paeth.paeth.
  replace (0 + b - 0 - 0) with b by lia. replace (0 + b - 0 - b) with 0 by lia.
  change (Z.abs 0) with 0.
  destruct (Z.leb_spec (Z.abs b) 0); simpl.
  - destruct (Z.leb_spec (Z.abs b) (Z.abs b)); lia.
  - destruct (Z.leb_spec 0 (Z.abs b)); [reflexivity|lia].
Qed.

(** At the borders of the image the Paeth prediction degenerates: the
    first pixel is predicted as 0, a pixel of the first row by its left
    neighbour alone, a pixel of the first column by the pixel above it. *)
Theorem pred_at_borders (src : list Z) (w x y c : nat) :
  Paeth.pred src w 0 0 c = 0
  /\ Paeth.pred src w (S x) 0 c = aget src (Paeth.idx w x 0 + c)
  /\ Paeth.pred src w 0 (S y) c = aget src (Paeth.idx w 0 y + c).
Proof.
  unfold Paeth.pred. cbn [Nat.ltb Nat.leb andb].
  replace (S x - 1)%nat with x by lia. replace (S y - 1)%nat with y by lia.
  split; [reflexivity|]. split; [apply paeth_left_only|apply paeth_up_only].
Qed.

(** Subtracting the prediction again recovers the residual byte. *)
Lemma repredict (r p : Z) :
  isByte r -> isByte p -> Z.land (Z.land (r + p) 255 - p + 256) 255 = r.
Proof.
  unfold isByte. intros Hr Hp. rewrite !land_255.
  replace ((r + p) mod 256 - p + 256) with ((r + p) mod 256 + (256 - p)) by lia.
  rewrite Zplus_mod_idemp_l.
  replace (r + p + (256 - p)) with (r + 1 * 256) by lia.
  rewrite Z_mod_plus_full. apply Z.mod_small. lia.
Qed.

Lemma pixel_unique (w x y x' y' : nat) :
  (x < w)%nat -> (x' < w)%nat -> (y * w + x = y' * w + x')%nat -> x = x' /\ y = y'.
Proof.
  intros Hx Hx' H.
  assert (y = y').
  { rewrite (Nat.div_unique (y * w + x) w y x) by lia.
    rewrite H. symmetry. apply Nat.div_unique with x'; lia. }
  subst. split; [lia|reflexivity].
Qed.

(** What [decodePaethResidual] leaves in its output: every colour byte is
    the residual byte plus the prediction made from the output itself. *)
Lemma decodePaethResidual_bytes (res : ImageData) :
  sizedImage res -> Forall isByte (data res) ->
  let w := Z.to_nat (width res) in
  let h := Z.to_nat (height res) in
  let out := data (Paeth.decodePaethResidual res) in
  length out = length (data res)
  /\ Forall isByte out
  /\ forall x y, (x < w)%nat -> (y < h)%nat ->
       (forall c, (c < 3)%nat ->
          aget out (Paeth.idx w x y + c)
          = Z.land (aget (data res) (Paeth.idx w x y + c) + Paeth.pred out w x y c) 255)
       /\ aget out (Paeth.idx w x y + 3) = aget (data res) (Paeth.idx w x y + 3).
Proof.
  unfold sizedImage. intros Hlen Hbytes. simpl.
  set (w := Z.to_nat (width res)) in *. set (h := Z.to_nat (height res)) in *.
  set (d := data res) in *.
  pose (P := fun (k : nat) (out : list Z) =>
    length out = length d
    /\ Forall isByte out
    /\ forall x y, (x < w)%nat -> (y * w + x < k)%nat ->
         (forall c, (c < 3)%nat ->
            aget out (Paeth.idx w x y + c)
            = Z.land (aget d (Paeth.idx w x y + c) + Paeth.pred out w x y c) 255)
         /\ aget out (Paeth.idx w x y + 3) = aget d (Paeth.idx w x y + 3)).
  assert (HP : P (h * w)%nat (forXY w h (Paeth.decodeStep d w) (zeros (length d)))).
  { apply forXY_invariant.
    - split; [apply length_replicate|]. split.
      + apply Forall_replicate. unfold isByte. lia.
      + intros x y _ Hk. lia.
    - intros x0 y0 out Hx0 Hy0 (Hl & Hb & Hout).
      assert (Hk : (y0 * w + x0 < h * w)%nat) by nia.
      unfold Paeth.decodeStep.
      set (o := Paeth.idx w x0 y0).
      assert (Ho : o = (4 * (y0 * w + x0))%nat) by (unfold o, Paeth.idx; lia).
      set (v0 := toUint8Clamp (Z.land (aget d o + Paeth.pred out w x0 y0 0) 255)).
      set (out1 := aset out o v0).
      set (v1 := toUint8Clamp (Z.land (aget d (o + 1) + Paeth.pred out1 w x0 y0 1) 255)).
      set (out2 := aset out1 (o + 1) v1).
      set (v2 := toUint8Clamp (Z.land (aget d (o + 2) + Paeth.pred out2 w x0 y0 2) 255)).
      set (out3 := aset out2 (o + 2) v2).
      set (v3 := toUint8Clamp (aget d (o + 3))).
      set (out4 := aset out3 (o + 3) v3).
      assert (Hget : forall j, aget out4 j
                = if decide (j = o) then v0
                  else if decide (j = o + 1)%nat then v1
                  else if decide (j = o + 2)%nat then v2
                  else if decide (j = o + 3)%nat then v3
                  else aget out j).
      { intros j. unfold out4, out3, out2, out1. apply four_stores. lia. }
      assert (Hlow : forall j, (j < o)%nat -> aget out4 j = aget out j).
      { intros j Hj. rewrite Hget. repeat case_decide; first [lia|reflexivity]. }
      assert (Hpred : forall out' x y c, (x < w)%nat -> (c < 4)%nat ->
                 (y * w + x <= y0 * w + x0)%nat ->
                 (forall j, (j < o)%nat -> aget out' j = aget out j) ->
                 Paeth.pred out' w x y c = Paeth.pred out w x y c).
      { intros out' x y c Hx Hc Hle Hsame. apply pred_agree; [lia..|].
        intros j Hj. apply Hsame. lia. }
      assert (E1 : Paeth.pred out1 w x0 y0 1 = Paeth.pred out w x0 y0 1).
      { apply Hpred; [lia..|]. intros j Hj. unfold out1. apply aget_aset_ne. lia. }
      assert (E2 : Paeth.pred out2 w x0 y0 2 = Paeth.pred out w x0 y0 2).
      { apply Hpred; [lia..|]. intros j Hj. unfold out2, out1.
        rewrite !aget_aset_ne by lia. reflexivity. }
      assert (Hv : forall v, toUint8Clamp (Z.land v 255) = Z.land v 255).
      { intros v. apply toUint8Clamp_byte, land_255_byte. }
      split; [unfold out4, out3, out2, out1; rewrite !length_aset; exact Hl|].
      split.
      { unfold out4, out3, out2, out1, aset.
        repeat apply Forall_insert; try exact Hb.
        - unfold v0. rewrite Hv. apply land_255_byte.
        - unfold v1. rewrite Hv. apply land_255_byte.
        - unfold v2. rewrite Hv. apply land_255_byte.
        - unfold v3. rewrite toUint8Clamp_byte; apply aget_byte, Hbytes. }
      intros x y Hx Hxy.
      destruct (decide (y * w + x = y0 * w + x0)%nat) as [Heq|Hne].
      + destruct (pixel_unique w x y x0 y0 Hx Hx0 Heq) as (-> & ->). fold o.
        split.
        * intros c Hc. rewrite Hget.
          rewrite (Hpred out4 x0 y0 c) by (first [lia|exact Hlow]).
          destruct c as [|[|[|c]]]; try lia.
          -- rewrite Nat.add_0_r. rewrite decide_True by reflexivity.
             unfold v0. apply Hv.
          -- rewrite decide_False by lia. rewrite decide_True by reflexivity.
             unfold v1. rewrite Hv, E1. reflexivity.
          -- rewrite decide_False by lia. rewrite decide_False by lia.
             rewrite decide_True by reflexivity.
             unfold v2. rewrite Hv, E2. reflexivity.
        * rewrite Hget. rewrite !decide_False by lia. rewrite decide_True by reflexivity.
          unfold v3. apply toUint8Clamp_byte, aget_byte, Hbytes.
      + assert (Hlt : (y * w + x < y0 * w + x0)%nat) by lia.
        destruct (Hout x y Hx Hlt) as (Hrgb & Ha).
        assert (Hidx : (Paeth.idx w x y + 3 < o)%nat) by (unfold Paeth.idx; lia).
        split.
        * intros c Hc. rewrite Hlow by lia.
          rewrite (Hpred out4 x y c) by (first [lia|exact Hlow]).
          apply Hrgb, Hc.
        * rewrite Hlow by lia. exact Ha. }
  destruct HP as (Hl & Hb & Hout). split; [exact Hl|]. split; [exact Hb|].
  intros x y Hx Hy. apply Hout; [exact Hx|nia].
Qed.
(** The forward residual of the inverse reconstruction is the residual
    itself: on valid images [buildResidualImage] and [decodePaethResidual]
    are inverse to each other in both directions, so every byte raster of
    the right size is the residual of exactly one image. *)
Theorem paeth_forward_of_inverse (res : ImageData) :
  validImage res ->
  Paeth.buildResidualImage (Paeth.decodePaethResidual res) = res.
Proof.
  intros (Hw & Hh & Hlen & Hbytes).
  destruct (decodePaethResidual_bytes res Hlen Hbytes) as (Holen & Hobytes & Hout).
  assert (Hsized : sizedImage (Paeth.decodePaethResidual res)).
  { unfold sizedImage. cbn [width height Paeth.decodePaethResidual].
    rewrite Holen. exact Hlen. }
  destruct (buildResidualImage_bytes _ Hsized) as (Hrlen & Hres).
  cbn [width Paeth.decodePaethResidual] in Hres.
  destruct res as [wz hz d].
  cbn [width height data] in *.
  unfold Paeth.buildResidualImage at 1.
  cbn [width height Paeth.decodePaethResidual]. f_equal.
  fold (data (Paeth.buildResidualImage
                (Paeth.decodePaethResidual {| width := wz; height := hz; data := d |}))).
  set (w := Z.to_nat wz) in *. set (h := Z.to_nat hz) in *.
  set (out := data (Paeth.decodePaethResidual _)) in *.
  set (r := data (Paeth.buildResidualImage _)) in *.
  change (r = d). apply aget_ext; [lia|].
  intros j Hj. rewrite Hres by exact Hj.
  assert (Hjlt : (j < 4 * (h * w))%nat) by lia.
  assert (Hw0 : (0 < w)%nat) by nia.
  set (q := (j / 4)%nat). set (c := (j mod 4)%nat).
  set (x := (q mod w)%nat). set (y := (q / w)%nat).
  assert (Hc : (c < 4)%nat) by (apply Nat.mod_upper_bound; lia).
  assert (Hjq : j = (4 * q + c)%nat) by (apply Nat.div_mod_eq).
  assert (Hx : (x < w)%nat) by (apply Nat.mod_upper_bound; lia).
  assert (Hqxy : q = (w * y + x)%nat) by (apply Nat.div_mod_eq).
  assert (Hy : (y < h)%nat) by nia.
  assert (Hidx : j = (Paeth.idx w x y + c)%nat) by (unfold Paeth.idx; lia).
  destruct (Hout x y Hx Hy) as (Hrgb & Ha).
  unfold residualByte. fold q c x y.
  destruct (Nat.ltb_spec c 3) as [Hc3|Hc3].
  - rewrite Hidx. rewrite Hrgb by exact Hc3.
    apply repredict; [apply aget_byte, Hbytes|apply pred_byte, Hobytes].
  - assert (c = 3%nat) by lia. rewrite Hidx. replace c with 3%nat by lia.
    rewrite Ha. apply toUint8Clamp_byte, aget_byte, Hbytes.
Qed.

Lemma paeth_forward_of_inverse_witness :
  validImage translucent
  /\ Paeth.buildResidualImage (Paeth.decodePaethResidual translucent) = translucent.
Proof.
  assert (Hv : validImage translucent).
  { unfold validImage. simpl. repeat split; try lia.
    repeat constructor; unfold isByte; lia. }
  split; [exact Hv|]. apply (paeth_forward_of_inverse translucent Hv).
Defined.
(** ** QOI: size of the stream and shape of the decoded raster *)

Lemma length_encodeOp (r g b a pr pg pb pa : Z) :
  (1 <= length (QOI.encodeOp r g b a pr pg pb pa) <= 5)%nat.
Proof.
  unfold QOI.encodeOp.
  repeat match goal with |- context [if ?c then _ else _] => destruct c end; simpl; lia.
Qed.

Lemma foldl_invariant {S A : Type} (P : nat -> S -> Prop) (f : S -> A -> S)
      (l : list A) (s : S) :
  P 0%nat s ->
  (forall i s a, (i < length l)%nat -> P i s -> P (Datatypes.S i) (f s a)) ->
  P (length l) (foldl f s l).
Proof.
  revert s P. induction l as [|a l IH]; intros s P H0 Hstep; [exact H0|].
  simpl. apply (IH (f s a) (fun i s => P (Datatypes.S i) s)).
  - apply Hstep; [simpl; lia|exact H0].
  - intros i s' a' Hi. apply Hstep. simpl. lia.
Qed.

(** The encoder never writes more than five bytes per pixel on average: a
    pixel that closes a run writes the run byte the earlier pixels of the
    run saved.  So the stream always fits the buffer of
    [14 + 5 * width * height + 8] bytes that [encodeQOI] allocates, and it
    is never shorter than the header and the end marker. *)
Theorem encodeQOI_fits_buffer (img : ImageData) :
  (22 <= length (QOI.encodeQOI img)
   <= 14 + 5 * Z.to_nat (width img * height img) + 8)%nat.
Proof.
  unfold QOI.encodeQOI.
  set (n := Z.to_nat (width img * height img)).
  set (st0 := {| QOI.e_r := 0; QOI.e_g := 0; QOI.e_b := 0; QOI.e_a := 255;
                 QOI.e_run := 0; QOI.e_index := zeros (64 * 4);
                 QOI.e_bytes := QOI.header (width img) (height img) |}).
  pose (P := fun (k : nat) (st : QOI.EncState) =>
               0 <= QOI.e_run st
               /\ (14 <= length (QOI.e_bytes st))%nat
               /\ (length (QOI.e_bytes st) + (if (0 <? QOI.e_run st)%Z then 1 else 0)
                   <= 14 + 5 * k)%nat).
  assert (HP : P (length (map (fun i => (4 * i)%nat) (seq 0 n)))
                 (foldl (QOI.encodePixel (data img)) st0
                        (map (fun i => (4 * i)%nat) (seq 0 n)))).
  { apply foldl_invariant.
    - unfold P, st0. simpl. lia.
    - intros k st pxPos _ (Hrun & Hlo & Hhi). unfold P, QOI.encodePixel.
      set (r := aget (data img) pxPos). set (g := aget (data img) (pxPos + 1)).
      set (b := aget (data img) (pxPos + 2)). set (a := aget (data img) (pxPos + 3)).
      destruct (_ && _ && _ && _).
      + destruct (Z.eqb_spec (QOI.e_run st + 1) 62) as [E|E];
          cbn [QOI.e_run QOI.e_bytes].
        * rewrite length_app. simpl. destruct (Z.ltb_spec 0 (QOI.e_run st)); lia.
        * destruct (Z.ltb_spec 0 (QOI.e_run st)), (Z.ltb_spec 0 (QOI.e_run st + 1)); lia.
      + set (bytes := if 0 <? QOI.e_run st then _ else _).
        assert (Hb : (14 <= length bytes <= 14 + 5 * k)%nat).
        { unfold bytes. destruct (Z.ltb_spec 0 (QOI.e_run st));
            rewrite ?length_app; simpl; lia. }
        destruct (_ && _ && _ && _); cbn [QOI.e_run QOI.e_bytes];
          rewrite length_app.
        * simpl. lia.
        * pose proof (length_encodeOp r g b a (QOI.e_r st) (QOI.e_g st)
                                      (QOI.e_b st) (QOI.e_a st)).
          simpl. lia. }
  rewrite length_map, length_seq in HP.
  set (st := foldl _ st0 _) in *. destruct HP as (Hrun & Hlo & Hhi).
  rewrite length_app. change (length QOI.endMarker) with 8%nat.
  destruct (Z.ltb_spec 0 (QOI.e_run st)); rewrite ?length_app; simpl; lia.
Qed.
Lemma toUint8Clamp_isByte (v : Z) : isByte (toUint8Clamp v).
Proof. unfold toUint8Clamp, isByte. lia. Qed.

Lemma decodeStep_pixels (bytes : list Z) (st : QOI.DecState) :
  Forall isByte (QOI.d_pixels st) ->
  length (QOI.d_pixels (QOI.decodeStep bytes st)) = length (QOI.d_pixels st)
  /\ Forall isByte (QOI.d_pixels (QOI.decodeStep bytes st)).
Proof.
  intros Hb. unfold QOI.decodeStep.
  set (st1 := if 0 <? QOI.d_run st then _ else _).
  assert (H1 : QOI.d_pixels st1 = QOI.d_pixels st).
  { unfold st1. destruct (0 <? QOI.d_run st); [reflexivity|].
    repeat match goal with
           | |- context [if ?c then _ else _] => destruct c
           end; reflexivity. }
  cbn [QOI.d_pixels]. rewrite H1. split.
  - rewrite !length_aset. reflexivity.
  - unfold aset. repeat apply Forall_insert; auto using toUint8Clamp_isByte.
Qed.

Lemma decodeLoop_pixels (fuel : nat) (bytes : list Z) :
  forall st, Forall isByte (QOI.d_pixels st) ->
    length (QOI.d_pixels (QOI.decodeLoop fuel bytes st)) = length (QOI.d_pixels st)
    /\ Forall isByte (QOI.d_pixels (QOI.decodeLoop fuel bytes st)).
Proof.
  induction fuel as [|fuel IH]; intros st Hb; simpl; [auto|].
  destruct (_ && _); [|auto].
  destruct (decodeStep_pixels bytes st Hb) as (Hl & Hb').
  destruct (IH _ Hb') as (Hl2 & Hb2). split; [lia|exact Hb2].
Qed.

(** Whatever bytes it is given, [decodeQOI] either throws or returns a
    well-formed raster: exactly [4 * width * height] bytes, each in
    [0, 255].  It accepts a stream only if the stream has at least 22
    bytes, starts with 'qoif' and announces four channels. *)
Theorem decodeQOI_raster_shape (bytes : list Z) (img : ImageData) :
  QOI.decodeQOI bytes = Ok img ->
  (22 <= length bytes)%nat
  /\ take 4 bytes = [113; 111; 105; 102]
  /\ aget bytes 12 = 4
  /\ width img = QOI.readInt32 bytes 4
  /\ height img = QOI.readInt32 bytes 8
  /\ length (data img) = Z.to_nat (width img * height img * 4)
  /\ Forall isByte (data img).
Proof.
  unfold QOI.decodeQOI.
  destruct (Nat.ltb_spec (length bytes) (14 + 8)) as [|Hlen]; [discriminate|].
  destruct (bool_decide_reflect (take 4 bytes = [113; 111; 105; 102])) as [Hm|];
    [|discriminate].
  cbn [negb].
  destruct (Z.eqb_spec (aget bytes 12) 4) as [Hc|]; [|discriminate].
  cbn [negb].
  destruct (Z.ltb_spec (QOI.readInt32 bytes 4 * QOI.readInt32 bytes 8 * 4) 0);
    [discriminate|].
  intros Heq.
  apply (f_equal (fun r => match r with Ok a => a | Throw _ => img end)) in Heq.
  subst img. cbn [width height data].
  set (st0 := {| QOI.d_p := 14; QOI.d_r := 0; QOI.d_g := 0; QOI.d_b := 0;
                 QOI.d_a := 255; QOI.d_run := 0; QOI.d_index := zeros (64 * 4);
                 QOI.d_pixels := zeros _; QOI.d_pxPos := 0 |}).
  destruct (decodeLoop_pixels (Z.to_nat (QOI.readInt32 bytes 4 * QOI.readInt32 bytes 8 * 4))
              bytes st0) as (Hl & Hb).
  { apply Forall_replicate. unfold isByte. lia. }
  repeat split; auto; try lia.
  rewrite Hl. unfold st0. cbn [QOI.d_pixels]. apply length_replicate.
Qed.

Lemma decodeQOI_raster_shape_witness :
  (22 <= length (QOI.encodeQOI solidRed))%nat
  /\ take 4 (QOI.encodeQOI solidRed) = [113; 111; 105; 102]
  /\ aget (QOI.encodeQOI solidRed) 12 = 4
  /\ 2 = QOI.readInt32 (QOI.encodeQOI solidRed) 4
  /\ 2 = QOI.readInt32 (QOI.encodeQOI solidRed) 8
  /\ length (px 255 0 0 255 ++ px 255 0 0 255 ++ px 0 0 0 0 ++ px 0 0 0 0)
     = Z.to_nat (2 * 2 * 4)
  /\ Forall isByte (px 255 0 0 255 ++ px 255 0 0 255 ++ px 0 0 0 0 ++ px 0 0 0 0).
Proof.
  apply (decodeQOI_raster_shape (QOI.encodeQOI solidRed)
           {| width := 2; height := 2;
              data := px 255 0 0 255 ++ px 255 0 0 255 ++ px 0 0 0 0 ++ px 0 0 0 0 |}).
  vm_compute. reflexivity.
Defined.
Lemma lor_shifted (hi lo k : Z) :
  0 <= k -> 0 <= lo < 2 ^ k -> Z.lor (hi * 2 ^ k) lo = hi * 2 ^ k + lo.
Proof.
  intros Hk Hlo.
  assert (Hland : Z.land (hi * 2 ^ k) lo = 0).
  { apply Z.bits_inj'. intros n Hn. rewrite Z.land_spec, Z.bits_0.
    destruct (Z.ltb_spec n k).
    - rewrite Z.mul_pow2_bits_low by lia. reflexivity.
    - replace (Z.testbit lo n) with false; [apply andb_false_r|].
      symmetry. destruct (Z.eq_dec lo 0) as [->|]; [apply Z.bits_0|].
      apply Z.bits_above_log2; [lia|].
      apply Z.log2_lt_pow2; [lia|].
      apply Z.lt_le_trans with (2 ^ k); [lia|]. apply Z.pow_le_mono_r; lia. }
  pose proof (Z.add_lor_land (hi * 2 ^ k) lo). lia.
Qed.

Lemma header_field (v k : Z) :
  0 <= v < 2 ^ 31 -> 0 <= k < 32 ->
  Z.land (sar32 v k) 255 = (v / 2 ^ k) mod 256.
Proof.
  intros Hv Hk. unfold sar32. rewrite wrap32_small by lia.
  rewrite Z.mod_small by lia. rewrite Z.shiftr_div_pow2 by lia. apply land_255.
Qed.

Lemma aget_app_r (front l : list Z) (k : nat) :
  aget (front ++ l) (length front + k) = aget l k.
Proof.
  unfold aget. rewrite lookup_app_r by lia.
  replace (length front + k - length front)%nat with k by lia. reflexivity.
Qed.

Lemma readInt32_app (front l : list Z) (k : nat) :
  QOI.readInt32 (front ++ l) (length front + k) = QOI.readInt32 l k.
Proof.
  unfold QOI.readInt32. rewrite <- !Nat.add_assoc, !aget_app_r. reflexivity.
Qed.

(** Reading back the big-endian field the encoder wrote. *)
Lemma readInt32_header (v : Z) (rest : list Z) :
  0 <= v < 2 ^ 31 ->
  QOI.readInt32
    ([Z.land (sar32 v 24) 255; Z.land (sar32 v 16) 255;
      Z.land (sar32 v 8) 255; Z.land v 255] ++ rest) 0 = v.
Proof.
  intros Hv. unfold QOI.readInt32, aget.
  cbn [lookup list_lookup app default from_option Nat.add id].
  rewrite !header_field by lia. rewrite land_255.
  set (b0 := (v / 2 ^ 24) mod 256). set (b1 := (v / 2 ^ 16) mod 256).
  set (b2 := (v / 2 ^ 8) mod 256). set (b3 := v mod 256).
  assert (H0 : b0 = v / 2 ^ 24).
  { unfold b0. apply Z.mod_small. split; [apply Z.div_pos; lia|].
    apply Z.div_lt_upper_bound; lia. }
  assert (Hb0 : 0 <= b0 < 128).
  { rewrite H0. split; [apply Z.div_pos; lia|]. apply Z.div_lt_upper_bound; lia. }
  assert (Hb1 : 0 <= b1 < 256) by (apply Z.mod_pos_bound; lia).
  assert (Hb2 : 0 <= b2 < 256) by (apply Z.mod_pos_bound; lia).
  assert (Hb3 : 0 <= b3 < 256) by (apply Z.mod_pos_bound; lia).
  rewrite (shl32_small b0 24) by lia.
  rewrite (shl32_small b1 16) by lia.
  rewrite (shl32_small b2 8) by lia.
  unfold or32.
  rewrite (wrap32_small (b0 * 2 ^ 24)) by lia.
  rewrite (wrap32_small (b1 * 2 ^ 16)) by lia.
  rewrite (lor_shifted b0 (b1 * 2 ^ 16) 24) by lia.
  rewrite (wrap32_small (b0 * 2 ^ 24 + b1 * 2 ^ 16)) by lia.
  rewrite (wrap32_small (b2 * 2 ^ 8)) by lia.
  replace (b0 * 2 ^ 24 + b1 * 2 ^ 16) with ((b0 * 2 ^ 8 + b1) * 2 ^ 16) by lia.
  rewrite (lor_shifted _ (b2 * 2 ^ 8) 16) by lia.
  rewrite (wrap32_small _) by lia.
  rewrite (wrap32_small b3) by lia.
  replace ((b0 * 2 ^ 8 + b1) * 2 ^ 16 + b2 * 2 ^ 8)
    with ((b0 * 2 ^ 16 + b1 * 2 ^ 8 + b2) * 2 ^ 8) by lia.
  rewrite (lor_shifted _ b3 8) by lia.
  pose proof (be32_sum v) as Hsum. fold b1 b2 b3 in Hsum. rewrite <- H0 in Hsum. lia.
Qed.
(** The stream [encodeQOI] writes: the header, the chunks, the end marker. *)
Lemma encodeQOI_layout (img : ImageData) :
  exists body,
    QOI.encodeQOI img = QOI.header (width img) (height img) ++ body ++ QOI.endMarker.
Proof.
  unfold QOI.encodeQOI.
  set (hdr := QOI.header (width img) (height img)).
  set (st0 := {| QOI.e_r := 0; QOI.e_g := 0; QOI.e_b := 0; QOI.e_a := 255;
                 QOI.e_run := 0; QOI.e_index := zeros (64 * 4); QOI.e_bytes := hdr |}).
  set (l := map _ _).
  assert (HP : exists body, QOI.e_bytes (foldl (QOI.encodePixel (data img)) st0 l)
                            = hdr ++ body).
  { apply (foldl_invariant (fun _ st => exists body, QOI.e_bytes st = hdr ++ body)).
    - exists []. unfold st0. cbn [QOI.e_bytes]. rewrite app_nil_r. reflexivity.
    - intros _ st pxPos _ (body & Hb). unfold QOI.encodePixel.
      destruct (_ && _ && _ && _).
      + destruct (_ =? 62); cbn [QOI.e_bytes]; rewrite Hb.
        * rewrite <- app_assoc. eauto.
        * eauto.
      + set (bytes := if 0 <? QOI.e_run st then _ else _).
        assert (Hbytes : exists body', bytes = hdr ++ body').
        { unfold bytes. destruct (0 <? QOI.e_run st); rewrite Hb.
          - rewrite <- app_assoc. eauto.
          - eauto. }
        destruct Hbytes as (body' & ->).
        destruct (_ && _ && _ && _); cbn [QOI.e_bytes]; rewrite <- app_assoc; eauto. }
  destruct HP as (body & Hb). rewrite Hb.
  destruct (0 <? _).
  - exists (body ++ [Z.lor QOI.QOI_OP_RUN (QOI.e_run (foldl (QOI.encodePixel (data img)) st0 l) - 1)]).
    rewrite <- !app_assoc. reflexivity.
  - exists body. rewrite <- app_assoc. reflexivity.
Qed.

(** [decodeQOI] accepts every stream [encodeQOI] produces and recovers the
    dimensions; the raster it returns has the right size and holds bytes.
    (Whether the pixels are the encoded ones is a separate matter: a
    trailing run is cut short.) *)
Theorem decodeQOI_accepts_encodeQOI (img : ImageData) :
  0 <= width img < 2 ^ 31 -> 0 <= height img < 2 ^ 31 ->
  exists pixels,
    QOI.decodeQOI (QOI.encodeQOI img)
    = Ok {| width := width img; height := height img; data := pixels |}
    /\ length pixels = Z.to_nat (width img * height img * 4)
    /\ Forall isByte pixels.
Proof.
  intros Hw Hh.
  destruct (encodeQOI_layout img) as (body & Hlay).
  set (w := width img) in *. set (h := height img) in *.
  assert (Hrw : QOI.readInt32 (QOI.encodeQOI img) 4 = w).
  { rewrite Hlay. unfold QOI.header.
    change ([113; 111; 105; 102; Z.land (sar32 w 24) 255; Z.land (sar32 w 16) 255;
             Z.land (sar32 w 8) 255; Z.land w 255; Z.land (sar32 h 24) 255;
             Z.land (sar32 h 16) 255; Z.land (sar32 h 8) 255; Z.land h 255; 4; 0]
            ++ body ++ QOI.endMarker)
      with ([113; 111; 105; 102]
            ++ ([Z.land (sar32 w 24) 255; Z.land (sar32 w 16) 255;
                 Z.land (sar32 w 8) 255; Z.land w 255]
                ++ ([Z.land (sar32 h 24) 255; Z.land (sar32 h 16) 255;
                     Z.land (sar32 h 8) 255; Z.land h 255; 4; 0]
                    ++ body ++ QOI.endMarker))).
    rewrite (readInt32_app [113; 111; 105; 102] _ 0). apply readInt32_header, Hw. }
  assert (Hrh : QOI.readInt32 (QOI.encodeQOI img) 8 = h).
  { rewrite Hlay. unfold QOI.header.
    change ([113; 111; 105; 102; Z.land (sar32 w 24) 255; Z.land (sar32 w 16) 255;
             Z.land (sar32 w 8) 255; Z.land w 255; Z.land (sar32 h 24) 255;
             Z.land (sar32 h 16) 255; Z.land (sar32 h 8) 255; Z.land h 255; 4; 0]
            ++ body ++ QOI.endMarker)
      with ([113; 111; 105; 102; Z.land (sar32 w 24) 255; Z.land (sar32 w 16) 255;
             Z.land (sar32 w 8) 255; Z.land w 255]
            ++ ([Z.land (sar32 h 24) 255; Z.land (sar32 h 16) 255;
                 Z.land (sar32 h 8) 255; Z.land h 255]
                ++ ([4; 0] ++ body ++ QOI.endMarker))).
    rewrite (readInt32_app [113; 111; 105; 102; Z.land (sar32 w 24) 255;
                            Z.land (sar32 w 16) 255; Z.land (sar32 w 8) 255;
                            Z.land w 255] _ 0).
    apply readInt32_header, Hh. }
  assert (Hok : exists out, QOI.decodeQOI (QOI.encodeQOI img) = Ok out).
  { unfold QOI.decodeQOI. rewrite Hrw, Hrh.
    replace (length (QOI.encodeQOI img) <? 14 + 8)%nat with false.
    2: { symmetry. apply Nat.ltb_ge. rewrite Hlay, !length_app. simpl. lia. }
    replace (bool_decide (take 4 (QOI.encodeQOI img) = [113; 111; 105; 102])) with true.
    2: { symmetry. apply bool_decide_eq_true. rewrite Hlay. reflexivity. }
    replace (aget (QOI.encodeQOI img) 12 =? 4) with true.
    2: { rewrite Hlay. reflexivity. }
    cbn [negb].
    replace (w * h * 4 <? 0) with false by (symmetry; apply Z.ltb_ge; nia).
    eauto. }
  destruct Hok as ([w' h' pixels] & Hdec).
  destruct (decodeQOI_raster_shape _ _ Hdec) as (_ & _ & _ & Hw' & Hh' & Hl & Hb).
  cbn [width height data] in *. rewrite Hrw in Hw'. rewrite Hrh in Hh'. subst w' h'.
  exists pixels. auto.
Qed.

Lemma decodeQOI_accepts_encodeQOI_witness :
  exists pixels,
    QOI.decodeQOI (QOI.encodeQOI solidRed)
    = Ok {| width := 2; height := 2; data := pixels |}
    /\ length pixels = 16%nat
    /\ Forall isByte pixels.
Proof.
  apply (decodeQOI_accepts_encodeQOI solidRed); simpl; lia.
Defined.

(** ** Huffman front end: size of the run-length stream *)

Lemma rleLoop_length (fuel : nat) :
  forall ds : list Z,
    (length (Huffman.rleLoop fuel ds) <= 3 * length ds)%nat
    /\ (Forall (fun v => v <> Huffman.RLE_MARKER) ds ->
        (length (Huffman.rleLoop fuel ds) <= length ds)%nat).
Proof.
  induction fuel as [|fuel IH]; intros ds.
  - simpl. split; intros; lia.
  - destruct ds as [|value rest]; [simpl; split; intros; lia|].
    cbn [Huffman.rleLoop].
    destruct (runLength_spec value rest 1 ltac:(lia)) as (Hr1 & Hr2 & Hr3 & _).
    set (r := Huffman.runLength value rest 1) in *.
    set (ds' := drop (Z.to_nat r) (value :: rest)).
    assert (Hlen : length (value :: rest) = (Z.to_nat r + length ds')%nat).
    { unfold ds'. rewrite length_drop. simpl in *. lia. }
    destruct (IH ds') as (IH3 & IH1).
    rewrite length_app. split.
    + destruct (_ || _).
      * simpl length at 1. lia.
      * rewrite length_replicate. lia.
    + intros Hno.
      assert (Hno' : Forall (fun v => v <> Huffman.RLE_MARKER) ds')
        by (apply Forall_drop; exact Hno).
      specialize (IH1 Hno').
      apply Forall_inv in Hno.
      destruct (Z.leb_spec 3 r) as [H3|H3]; cbn [orb].
      * simpl length at 1. lia.
      * destruct (Z.eqb_spec value Huffman.RLE_MARKER); [contradiction|].
        rewrite length_replicate. lia.
Qed.

(** The run-length stage can expand its input: an isolated marker byte
    0xFF costs three bytes.  The stream is never longer than three times
    the input, and it is never longer than the input when the input holds
    no marker byte. *)
Theorem rleEncode_length (data : list Z) :
  (length (Huffman.rleEncode data) <= 3 * length data)%nat
  /\ (Forall (fun v => v <> Huffman.RLE_MARKER) data ->
      (length (Huffman.rleEncode data) <= length data)%nat).
Proof. apply rleLoop_length. Qed.
(** ** Huffman decoder: what it returns on arbitrary input *)





(** ** Huffman codec: what the round trip returns in general *)

Lemma decodeDeltas_clampedWalk (data : list Z) :
  forall prev out, decodeDeltas out (Huffman.deltaFrom prev data) = clampedWalk prev out data.
Proof.
  induction data as [|v rest IH]; intros prev out; [reflexivity|].
  cbn [Huffman.deltaFrom decodeDeltas clampedWalk].
  set (step := Z.max (-128) (Z.min 127 (v - prev))).
  assert (Hd : Z.land (step + 128) 255 = step + 128).
  { rewrite land_255. apply Z.mod_small. unfold step. lia. }
  rewrite Hd.
  assert (Hu : Huffman.unDelta out (step + 128) = Z.max 0 (Z.min 255 (out + step))).
  { unfold Huffman.unDelta.
    destruct (Z.ltb_spec (out + (step + 128 - 128)) 0).
    - destruct (Z.ltb_spec 255 0); lia.
    - destruct (Z.ltb_spec 255 (out + (step + 128 - 128))); lia. }
  rewrite Hu, IH. reflexivity.
Qed.

Lemma clampedWalk_id_iff (data : list Z) :
  Forall isByte data ->
  forall prev, isByte prev ->
    clampedWalk prev prev data = data <-> stepsInRange prev data.
Proof.
  induction 1 as [|v rest Hv Hrest IH]; intros prev Hprev.
  - simpl. tauto.
  - cbn [clampedWalk stepsInRange]. unfold isByte in *. split.
    + intros [= Ho Hr].
      assert (Hstep : -128 <= v - prev <= 127) by lia.
      split; [exact Hstep|].
      apply IH; [exact Hv|]. rewrite <- Hr at 2. f_equal. lia.
    + intros (Hstep & Hs).
      replace (Z.max 0 (Z.min 255 (prev + Z.max (-128) (Z.min 127 (v - prev))))) with v by lia.
      f_equal. apply IH; assumption.
Qed.

(** The round trip through [encodeHuffman] and [decodeHuffman] loses
    nothing but what the delta stage clamps: the decoder returns the
    clamped walk of the input.  The conditions are those under which the
    decoder's buffer, the one-byte entry count and the 24 bits the decoder
    holds are known to suffice. *)
Theorem huffman_roundtrip_is_clampedWalk (seq : list Z) :
  Forall isByte seq ->
  (length (Huffman.rleEncode (Huffman.deltaEncode seq)) <= 2 * length seq)%nat ->
  (length (Huffman.sortedCodeLens (Huffman.rleEncode (Huffman.deltaEncode seq))) <= 255)%nat ->
  Forall (fun e => Huffman.len e <= 24)
         (Huffman.sortedCodeLens (Huffman.rleEncode (Huffman.deltaEncode seq))) ->
  Huffman.decodeHuffman (Huffman.encodeHuffman seq) (length seq)
  = Ok (clampedWalk 0 0 seq).
Proof.
  intros Hb Hr Hc Hl. rewrite decode_of_encode by assumption.
  unfold Huffman.deltaEncode. rewrite decodeDeltas_clampedWalk. reflexivity.
Qed.

Lemma huffman_roundtrip_is_clampedWalk_witness :
  Huffman.decodeHuffman (Huffman.encodeHuffman [0; 200; 40; 40; 40; 41]) 6
  = Ok [0; 127; 0; 0; 0; 1].
Proof.
  apply (huffman_roundtrip_is_clampedWalk [0; 200; 40; 40; 40; 41]).
  - repeat constructor; unfold isByte; lia.
  - vm_compute. lia.
  - vm_compute. lia.
  - apply Forall_forall. intros e He.
    assert (Hin : e ∈ Huffman.sortedCodeLens
                        (Huffman.rleEncode (Huffman.deltaEncode [0; 200; 40; 40; 40; 41])))
      by exact He.
    vm_compute in Hin.
    repeat (apply elem_of_cons in Hin as [->|Hin]; [simpl; lia|]).
    inversion Hin.
Defined.

(** Under the same conditions the round trip is the identity exactly when
    no step of the sequence, counted from 0, leaves [-128, 127]: the
    condition is necessary as well as sufficient. *)
Theorem huffman_roundtrip_iff_steps_in_range (seq : list Z) :
  Forall isByte seq ->
  (length (Huffman.rleEncode (Huffman.deltaEncode seq)) <= 2 * length seq)%nat ->
  (length (Huffman.sortedCodeLens (Huffman.rleEncode (Huffman.deltaEncode seq))) <= 255)%nat ->
  Forall (fun e => Huffman.len e <= 24)
         (Huffman.sortedCodeLens (Huffman.rleEncode (Huffman.deltaEncode seq))) ->
  Huffman.decodeHuffman (Huffman.encodeHuffman seq) (length seq) = Ok seq
  <-> stepsInRange 0 seq.
Proof.
  intros Hb Hr Hc Hl. rewrite decode_of_encode by assumption.
  unfold Huffman.deltaEncode. rewrite decodeDeltas_clampedWalk.
  rewrite <- (clampedWalk_id_iff seq Hb 0) by (unfold isByte; lia).
  split; [intros [= H]; exact H|intros ->; reflexivity].
Qed.

Lemma huffman_roundtrip_iff_steps_in_range_witness :
  Huffman.decodeHuffman (Huffman.encodeHuffman [0; 200; 40; 40; 40; 41]) 6
  = Ok [0; 200; 40; 40; 40; 41]
  <-> stepsInRange 0 [0; 200; 40; 40; 40; 41].
Proof.
  apply (huffman_roundtrip_iff_steps_in_range [0; 200; 40; 40; 40; 41]).
  - repeat constructor; unfold isByte; lia.
  - vm_compute. lia.
  - vm_compute. lia.
  - apply Forall_forall. intros e He.
    assert (Hin : e ∈ Huffman.sortedCodeLens
                        (Huffman.rleEncode (Huffman.deltaEncode [0; 200; 40; 40; 40; 41])))
      by exact He.
    vm_compute in Hin.
    repeat (apply elem_of_cons in Hin as [->|Hin]; [simpl; lia|]).
    inversion Hin.
Defined.

(** ** Huffman encoder: the size and the form of its output *)

(** The code [buildCodeLengths] makes for a stream never spends more than
    16 bits per symbol on average: with at most 256 symbols, the two
    lightest nodes of a queue of [m] nodes weigh at most [2/m] of the
    stream.  (The statement is for tables within the 30 bits the 32-bit
    code arithmetic can hold.) *)
Theorem huffman_code_bits_bound (rle : list Z) :
  rle <> [] ->
  Forall (fun e => Huffman.len e <= 30) (Huffman.sortedCodeLens rle) ->
  (length (Huffman.sortedCodeLens rle) <= 256)%nat ->
  sumBy (lenOf (Huffman.sortedCodeLens rle)) rle <= 16 * Z.of_nat (length rle).
Proof.
  exact (sortedCodeLens_cost rle).
Qed.

Lemma huffman_code_bits_bound_witness :
  sumBy (lenOf (Huffman.sortedCodeLens [1; 2; 2; 3; 3; 3; 4]))
        [1; 2; 2; 3; 3; 3; 4]
  <= 16 * Z.of_nat (length [1; 2; 2; 3; 3; 3; 4]).
Proof.
  apply (huffman_code_bits_bound [1; 2; 2; 3; 3; 3; 4]).
  - discriminate.
  - apply (Forall_of_forallb _ (fun e => Huffman.len e <=? 30)); [intros e; lia|].
    vm_compute. reflexivity.
  - vm_compute. lia.
Defined.

(** What [encodeHuffman] returns for a sequence that is not empty: the
    header (the entry count, then symbol and length of every table
    entry) and the code bits of the run-length stream, eight to a byte,
    the last byte filled up with zero bits.  The buffer of twice the
    estimated size always has room for them, so the byte that the final
    flush writes without growing the buffer is never lost. *)
Theorem encodeHuffman_is_packedForm (seq : list Z) :
  seq <> [] -> Forall isByte seq ->
  Forall (fun e => Huffman.len e <= 30)
         (Huffman.sortedCodeLens (Huffman.rleEncode (Huffman.deltaEncode seq))) ->
  Huffman.encodeHuffman seq = packedForm seq.
Proof.
  exact (encodeHuffman_closed_form seq).
Qed.

Lemma encodeHuffman_is_packedForm_witness :
  Huffman.encodeHuffman [42; 42; 42; 42; 42] = packedForm [42; 42; 42; 42; 42].
Proof.
  apply (encodeHuffman_is_packedForm [42; 42; 42; 42; 42]).
  - discriminate.
  - repeat constructor; unfold isByte; lia.
  - apply (Forall_of_forallb _ (fun e => Huffman.len e <=? 30)); [intros e; lia|].
    vm_compute. reflexivity.
Defined.
